(** * A shallow embedding of the TRAC T64 interpreter of [main.py]

    The embedding follows the Python source function by function.

    - Python [str] values and the character lists [active] / [neutral] are
      lists of 8-bit characters ([list ascii]); ["".join] of such a list is
      the list itself.
    - A Python exception is a value of [outcome]; every list index, [del]
      and [int()] of the source that can raise is modelled by an operation
      that returns an [outcome].
    - The dictionary [forms] keeps insertion order (the primitive [ln]
      shows it), so it is an association list with unique keys.
    - [print] appends to the field [stdout] of the interpreter state.
    - The interpreter is [TRAC()]: the registry holds the ten core
      primitives and no user override.
    - [int] and [str] on integers are those of CPython with its default
      limit on conversions: [int] of a text with more than 4300 digits and
      [str] of an integer with more than 4300 digits raise [ValueError]. *)

From Stdlib Require Import Ascii String.
From Stdlib Require Import List ZArith Lia Bool Arith PeanoNat.
From Stdlib Require Import DecimalString Decimal DecimalZ DecimalPos DecimalN DecimalFacts.
From Stdlib Require Import List.
Import ListNotations.

Open Scope list_scope.

(** ** Python values *)

Definition str := list ascii.

(** [list(s)] for a string literal. *)
Definition chars (s : string) : str := list_ascii_of_string s.

Definition str_eqb (a b : str) : bool :=
  if list_eq_dec ascii_dec a b then true else false.

(** ** Exceptions *)

Inductive exn := IndexError | KeyError | ValueError.

Inductive outcome (A : Type) :=
| Ok (a : A)
| Raise (e : exn).

Arguments Ok {A} a.
Arguments Raise {A} e.

Definition bind {A B} (m : outcome A) (k : A -> outcome B) : outcome B :=
  match m with
  | Ok a => k a
  | Raise e => Raise e
  end.

Notation "x <- m ;; k" := (bind m (fun x => k))
  (at level 61, m at next level, right associativity).

(** ** Lists and slices *)

Module Py.

(** [l[i]] *)
Definition index {A} (l : list A) (i : nat) : outcome A :=
  match nth_error l i with
  | Some x => Ok x
  | None => Raise IndexError
  end.

(** [del l[i]] *)
Definition del {A} (l : list A) (i : nat) : outcome (list A) :=
  if i <? length l then Ok (firstn i l ++ skipn (S i) l)
  else Raise IndexError.

(** [l[a:b]] *)
Definition slice {A} (l : list A) (a b : nat) : list A :=
  skipn a (firstn b l).

(** [l[a:]] *)
Definition slice_from {A} (l : list A) (a : nat) : list A := skipn a l.

(** [del l[a:b]] *)
Definition del_slice {A} (l : list A) (a b : nat) : list A :=
  firstn a l ++ skipn (Nat.max a b) l.

(** [l.pop()] together with the shortened list *)
Fixpoint pop {A} (l : list A) : outcome (list A * A) :=
  match l with
  | [] => Raise IndexError
  | x :: l' =>
      match l' with
      | [] => Ok ([], x)
      | _ :: _ => p <- pop l' ;; Ok (x :: fst p, snd p)
      end
  end.

(** [s.startswith(p)] *)
Fixpoint startswith (s p : str) : bool :=
  match p, s with
  | [], _ => true
  | _ :: _, [] => false
  | c :: p', d :: s' => Ascii.eqb c d && startswith s' p'
  end.

(** [s.find(p, i)]: the lowest [j >= i] with [s[j:j+len(p)] == p];
    [None] stands for -1. *)
Fixpoint find (s p : str) (i : nat) : option nat :=
  match i with
  | 0 =>
      if startswith s p then Some 0
      else match s with
           | [] => None
           | _ :: s' => option_map S (find s' p 0)
           end
  | S i' =>
      match s with
      | [] => None
      | _ :: s' => option_map S (find s' p i')
      end
  end.

(** [sep.join(l)] *)
Fixpoint join (sep : str) (l : list str) : str :=
  match l with
  | [] => []
  | [x] => x
  | x :: l' => x ++ sep ++ join sep l'
  end.

(** *** Dictionaries in insertion order *)

Section Dict.
Context {K V : Type} (eqb : K -> K -> bool).

(** [d.get(k)] *)
Fixpoint get (d : list (K * V)) (k : K) : option V :=
  match d with
  | [] => None
  | (k', v) :: d' => if eqb k k' then Some v else get d' k
  end.

(** [k in d] *)
Definition mem (d : list (K * V)) (k : K) : bool :=
  match get d k with Some _ => true | None => false end.

(** [d[k]] *)
Definition getitem (d : list (K * V)) (k : K) : outcome V :=
  match get d k with Some v => Ok v | None => Raise KeyError end.

(** [d[k] = v]: an existing key keeps its place, a new one goes last. *)
Fixpoint setitem (d : list (K * V)) (k : K) (v : V) : list (K * V) :=
  match d with
  | [] => [(k, v)]
  | (k', v') :: d' =>
      if eqb k k' then (k', v) :: d' else (k', v') :: setitem d' k v
  end.

(** [del d[k]] *)
Fixpoint delitem (d : list (K * V)) (k : K) : outcome (list (K * V)) :=
  match d with
  | [] => Raise KeyError
  | (k', v') :: d' =>
      if eqb k k' then Ok d'
      else d'' <- delitem d' k ;; Ok ((k', v') :: d'')
  end.

(** [list(d.keys())] *)
Definition keys (d : list (K * V)) : list K := map fst d.
End Dict.

(** *** Integers: [int(s)] and [str(n)] *)

(** Characters that [int] strips at both ends. *)
Definition isspace (c : ascii) : bool :=
  let n := nat_of_ascii c in
  ((9 <=? n) && (n <=? 13)) || (n =? 32) || (n =? 133) || (n =? 160).

Definition digit_value (c : ascii) : option Z :=
  let n := nat_of_ascii c in
  if (48 <=? n) && (n <=? 57) then Some (Z.of_nat (n - 48)) else None.

Fixpoint lstrip (s : str) : str :=
  match s with
  | c :: s' => if isspace c then lstrip s' else s
  | [] => []
  end.

Definition strip (s : str) : str := rev (lstrip (rev (lstrip s))).

(** Digits with single underscores between them; [acc] is the value read
    so far and [after_digit] tells whether the last character was a
    digit. *)
Fixpoint digits (s : str) (acc : Z) (after_digit : bool) : outcome Z :=
  match s with
  | [] => if after_digit then Ok acc else Raise ValueError
  | c :: s' =>
      match digit_value c with
      | Some d => digits s' (10 * acc + d)%Z true
      | None =>
          if Ascii.eqb c "_"%char && after_digit then digits s' acc false
          else Raise ValueError
      end
  end.

(** [sys.get_int_max_str_digits()], as the interpreter starts. *)
Definition int_max_str_digits : Z := 4300.

(** The number of digits in [s]. *)
Definition digit_count (s : str) : Z :=
  Z.of_nat (length (filter (fun c => match digit_value c with
                                     | Some _ => true
                                     | None => false
                                     end) s)).

(** [int(s)] in base 10: the text is read, and a well-formed text with
    more digits than the limit is rejected (sign, underscores and the
    stripped whitespace do not count; leading zeros do). *)
Definition int (s : str) : outcome Z :=
  n <- match strip s with
       | c :: s' =>
           if Ascii.eqb c "-"%char then n <- digits s' 0%Z false ;; Ok (- n)%Z
           else if Ascii.eqb c "+"%char then digits s' 0%Z false
           else digits (c :: s') 0%Z false
       | [] => Raise ValueError
       end ;;
  if (int_max_str_digits <? digit_count s)%Z then Raise ValueError else Ok n.

(** The decimal text of [n]. *)
Definition decimal (n : Z) : str :=
  list_ascii_of_string (NilZero.string_of_int (Z.to_int n)).

(** [str(n)]: the decimal text, unless it has more digits than the
    limit. *)
Definition str_of_int (n : Z) : outcome str :=
  if (int_max_str_digits <? digit_count (decimal n))%Z then Raise ValueError
  else Ok (decimal n).

End Py.

(** ** The data model *)

(** [Frame.mode] only ever holds ["active"] or ["neutral"]. *)
Inductive Mode := active_mode | neutral_mode.

Record Frame := mkFrame {
  begin : nat;
  mode : Mode;
  argument_slices : list (nat * nat);
  current_argument_start : nat
}.

(** [Part = str | Marker] *)
Inductive Part :=
| Text (s : str)
| Marker (n : nat).

(** The fields of the class [TRAC], and the standard output.  [frames] is
    in the order of the Python list: the innermost frame is the last. *)
Record TRAC := mkTRAC {
  forms : list (str * list Part);
  active : list ascii;
  neutral : list ascii;
  scan : nat;
  frames : list Frame;
  args : list str;
  stdout : list ascii
}.

Definition set_forms (t : TRAC) (x : list (str * list Part)) : TRAC :=
  mkTRAC x (active t) (neutral t) (scan t) (frames t) (args t) (stdout t).
Definition set_active (t : TRAC) (x : list ascii) : TRAC :=
  mkTRAC (forms t) x (neutral t) (scan t) (frames t) (args t) (stdout t).
Definition set_neutral (t : TRAC) (x : list ascii) : TRAC :=
  mkTRAC (forms t) (active t) x (scan t) (frames t) (args t) (stdout t).
Definition set_scan (t : TRAC) (x : nat) : TRAC :=
  mkTRAC (forms t) (active t) (neutral t) x (frames t) (args t) (stdout t).
Definition set_frames (t : TRAC) (x : list Frame) : TRAC :=
  mkTRAC (forms t) (active t) (neutral t) (scan t) x (args t) (stdout t).
Definition set_args (t : TRAC) (x : list str) : TRAC :=
  mkTRAC (forms t) (active t) (neutral t) (scan t) (frames t) x (stdout t).

(** [print(x, end=e)] *)
Definition print (t : TRAC) (x e : str) : TRAC :=
  mkTRAC (forms t) (active t) (neutral t) (scan t) (frames t) (args t)
         (stdout t ++ x ++ e).

(** The state after [TRAC()]. *)
Definition init : TRAC := mkTRAC [] [] [] 0 [] [] [].

Definition _skip_chars : list ascii :=
  ["009"%char; "010"%char; "013"%char; "'"%char].

Definition char_in (c : ascii) (l : list ascii) : bool :=
  existsb (Ascii.eqb c) l.

(** ** The processor *)

Definition _reset_processor_with (t : TRAC) (program : str) : TRAC :=
  mkTRAC (forms t) program [] 0 [] [] (stdout t).

Definition _clear_processor (t : TRAC) : TRAC :=
  mkTRAC (forms t) [] [] 0 [] [] (stdout t).

Definition _delete_active_char (t : TRAC) : outcome TRAC :=
  if scan t <? length (active t) then
    a <- Py.del (active t) (scan t) ;; Ok (set_active t a)
  else Ok t.

Definition _move_active_char_to_neutral (t : TRAC) : outcome TRAC :=
  c <- Py.index (active t) (scan t) ;;
  _delete_active_char (set_neutral t (neutral t ++ [c])).

(** [all(active[i + off] == c for off, c in enumerate(expect))]; [i] is the
    index of the next character to compare. *)
Fixpoint all_expected (a : list ascii) (i : nat) (expect : list ascii)
  : outcome bool :=
  match expect with
  | [] => Ok true
  | c :: expect' =>
      x <- Py.index a i ;;
      if Ascii.eqb x c then all_expected a (S i) expect' else Ok false
  end.

Definition _peek (t : TRAC) (expect : list ascii) : outcome bool :=
  let i := scan t + 1 in
  if length (active t) <=? i + length expect - 1 then Ok false
  else all_expected (active t) i expect.

(** The [while] loop of [_consume_balanced_parentheses_into_neutral].  Every
    iteration that does not return deletes [active[i]] and leaves [i] as it
    is, so the loop walks the suffix [rest = active[i:]]; it returns whether
    the matching [')'] was found, what is left of the suffix and the new
    [neutral]. *)
Fixpoint consume_loop (rest : list ascii) (depth : Z) (ntl : list ascii)
  : bool * list ascii * list ascii :=
  match rest with
  | [] => (false, [], ntl)
  | ch :: rest' =>
      if Ascii.eqb ch "("%char then
        consume_loop rest' (depth + 1)%Z (ntl ++ [ch])
      else if Ascii.eqb ch ")"%char then
        if (depth - 1 =? 0)%Z then (true, rest', ntl)
        else consume_loop rest' (depth - 1)%Z (ntl ++ [ch])
      else consume_loop rest' depth (ntl ++ [ch])
  end.

Definition _consume_balanced_parentheses_into_neutral (t : TRAC)
  : outcome (bool * TRAC) :=
  t1 <- _delete_active_char t ;;
  let i := scan t1 in
  let '(found, rest, ntl) :=
    consume_loop (Py.slice_from (active t1) i) 1%Z (neutral t1) in
  Ok (found, set_neutral (set_active t1 (firstn i (active t1) ++ rest)) ntl).

Definition _begin_function (t : TRAC) (m : Mode) : TRAC :=
  let b := length (neutral t) in
  set_frames t (frames t ++ [mkFrame b m [] b]).

Definition _mark_argument_boundary (t : TRAC) : outcome TRAC :=
  match frames t with
  | [] => Ok t
  | _ :: _ =>
      p <- Py.pop (frames t) ;;
      let frame := snd p in
      let current_end := length (neutral t) in
      let current_slice := (current_argument_start frame, current_end) in
      Ok (set_frames t
            (fst p ++ [mkFrame (begin frame) (mode frame)
                         (argument_slices frame ++ [current_slice])
                         (length (neutral t))]))
  end.

(** ** The core primitives *)

Definition _arg (t : TRAC) (i : nat) : outcome str :=
  if i <? length (args t) then Py.index (args t) i else Ok [].

(** [not l] for a string or a list *)
Definition is_empty {A} (l : list A) : bool :=
  match l with [] => true | _ :: _ => false end.

(** What a handler does: the value it returns or the exception it raises,
    and the interpreter as the handler leaves it. *)
Definition BuiltIn := TRAC -> outcome str * TRAC.

(** The handlers are local functions of [_register_core_builtins]. *)
Module Core.

Definition ds : BuiltIn := fun t =>
  match (name <- _arg t 0 ;; body <- _arg t 1 ;; Ok (name, body)) with
  | Raise e => (Raise e, t)
  | Ok (name, body) =>
      if is_empty name then (Ok [], t)
      else (Ok [], set_forms t (Py.setitem str_eqb (forms t) name [Text body]))
  end.

(** The [while True] loop of [replace_pattern_in_parts] on the literal
    chunk [s], with loop variable [i] and the list [out] built so far.
    [None]: the loop did not end within [fuel] iterations. *)
Fixpoint find_loop (fuel : nat) (s pattern : str) (num i : nat)
  (out : list Part) : option (list Part) :=
  match fuel with
  | 0 => None
  | S fuel' =>
      match Py.find s pattern i with
      | None => Some (out ++ [Text (Py.slice_from s i)])
      | Some j =>
          find_loop fuel' s pattern num (j + length pattern)
            (out ++ [Text (Py.slice s i j)] ++ [Marker num])
      end
  end.

(** [for part in parts] of [replace_pattern_in_parts]. *)
Fixpoint for_parts (parts : list Part) (pattern : str) (num : nat)
  (out : list Part) : option (list Part) :=
  match parts with
  | [] => Some out
  | Marker n :: parts' => for_parts parts' pattern num (out ++ [Marker n])
  | Text s :: parts' =>
      match find_loop (S (length s)) s pattern num 0 out with
      | Some out' => for_parts parts' pattern num out'
      | None => None
      end
  end.

(** [merged and isinstance(merged[-1], str)], with the pieces of [merged]. *)
Fixpoint ends_with_text (merged : list Part) : option (list Part * str) :=
  match merged with
  | [] => None
  | [Text s] => Some ([], s)
  | x :: merged' =>
      match ends_with_text merged' with
      | Some (l, s) => Some (x :: l, s)
      | None => None
      end
  end.

(** [for item in out] of [replace_pattern_in_parts]. *)
Fixpoint merge_loop (out merged : list Part) : list Part :=
  match out with
  | [] => merged
  | item :: out' =>
      match ends_with_text merged, item with
      | Some (l, last), Text s => merge_loop out' (l ++ [Text (last ++ s)])
      | _, _ => merge_loop out' (merged ++ [item])
      end
  end.

(** A literal chunk of [s] characters needs at most [S (length s)]
    iterations of the [while] loop when the pattern is not empty (lemma
    [for_parts_total]), so the last branch is never taken. *)
Definition replace_pattern_in_parts (parts : list Part) (pattern : str)
  (num : nat) : list Part :=
  if is_empty pattern then parts
  else match for_parts parts pattern num [] with
       | Some out => merge_loop out []
       | None => parts
       end.

(** [for i, pattern in enumerate(patterns, start=i)] of [ss]. *)
Fixpoint ss_loop (patterns : list str) (i : nat) (parts : list Part)
  : list Part :=
  match patterns with
  | [] => parts
  | pattern :: patterns' =>
      ss_loop patterns' (S i)
        (if negb (is_empty pattern)
         then replace_pattern_in_parts parts pattern i
         else parts)
  end.

(** The first [for] loop of [ss] in the source has the body [pass] and is
    left out. *)
Definition ss : BuiltIn := fun t =>
  match _arg t 0 with
  | Raise e => (Raise e, t)
  | Ok name =>
      if negb (Py.mem str_eqb (forms t) name) then (Ok [], t)
      else match Py.getitem str_eqb (forms t) name with
           | Raise e => (Raise e, t)
           | Ok parts =>
               let parts := ss_loop (Py.slice_from (args t) 1) 1 parts in
               (Ok [], set_forms t (Py.setitem str_eqb (forms t) name parts))
           end
  end.

(** The dictionary comprehension of [cl], for [i] in [range]. *)
Fixpoint replacement (a : list str) (range : list nat)
  : outcome (list (nat * str)) :=
  match range with
  | [] => Ok []
  | i :: range' =>
      v <- (if i + 1 <? length a then Py.index a (i + 1) else Ok []) ;;
      d <- replacement a range' ;;
      Ok ((i + 1, v) :: d)
  end.

(** [for part in parts] of [cl]; [replacement.get(part.n, "")]. *)
Fixpoint cl_chunks (parts : list Part) (repl : list (nat * str)) : list str :=
  match parts with
  | [] => []
  | Marker n :: parts' =>
      match Py.get Nat.eqb repl n with
      | Some v => v
      | None => []
      end :: cl_chunks parts' repl
  | Text s :: parts' => s :: cl_chunks parts' repl
  end.

Definition cl : BuiltIn := fun t =>
  (name <- _arg t 0 ;;
   if negb (Py.mem str_eqb (forms t) name) then Ok []
   else
     parts <- Py.getitem str_eqb (forms t) name ;;
     repl <- replacement (args t) (seq 0 (length (args t))) ;;
     Ok (Py.join [] (cl_chunks parts repl)),
   t).

Definition eq : BuiltIn := fun t =>
  (A <- _arg t 0 ;;
   B <- _arg t 1 ;;
   T <- _arg t 2 ;;
   F <- _arg t 3 ;;
   Ok (if str_eqb A B then T else F),
   t).

(** [x or "0"] *)
Definition or_zero (x : str) : str :=
  if is_empty x then chars "0" else x.

Definition ml : BuiltIn := fun t =>
  (x <- _arg t 0 ;;
   a <- Py.int (or_zero x) ;;
   y <- _arg t 1 ;;
   b <- Py.int (or_zero y) ;;
   Py.str_of_int (a * b),
   t).

Definition ad : BuiltIn := fun t =>
  (x <- _arg t 0 ;;
   a <- Py.int (or_zero x) ;;
   y <- _arg t 1 ;;
   b <- Py.int (or_zero y) ;;
   Py.str_of_int (a + b),
   t).

Definition su : BuiltIn := fun t =>
  (x <- _arg t 0 ;;
   a <- Py.int (or_zero x) ;;
   y <- _arg t 1 ;;
   b <- Py.int (or_zero y) ;;
   Py.str_of_int (a - b),
   t).

Definition ln : BuiltIn := fun t =>
  (sep <- _arg t 0 ;;
   let names := Py.keys (forms t) in
   Ok (Py.join sep names),
   t).

(** [for i in range] of [dd]. *)
Fixpoint dd_loop (range : list nat) (t : TRAC) : outcome unit * TRAC :=
  match range with
  | [] => (Ok tt, t)
  | i :: range' =>
      match _arg t i with
      | Raise e => (Raise e, t)
      | Ok name =>
          if Py.mem str_eqb (forms t) name then
            match Py.delitem str_eqb (forms t) name with
            | Raise e => (Raise e, t)
            | Ok d => dd_loop range' (set_forms t d)
            end
          else dd_loop range' t
      end
  end.

Definition dd : BuiltIn := fun t =>
  match dd_loop (seq 0 (length (args t))) t with
  | (Ok _, t') => (Ok [], t')
  | (Raise e, t') => (Raise e, t')
  end.

(** [x is not None] holds for every string. *)
Definition ps : BuiltIn := fun t =>
  match _arg t 0 with
  | Raise e => (Raise e, t)
  | Ok x => (Ok [], print t x [])
  end.

End Core.

(** [self.builtins] after [_register_core_builtins]. *)
Definition builtins : list (str * BuiltIn) :=
  [ (chars "ds", Core.ds); (chars "ss", Core.ss); (chars "cl", Core.cl);
    (chars "eq", Core.eq); (chars "ml", Core.ml); (chars "su", Core.su);
    (chars "ad", Core.ad); (chars "ln", Core.ln); (chars "dd", Core.dd);
    (chars "ps", Core.ps) ].

(** ** Ending a call, and the scan loop *)

(** The block [# evaluate] of [_end_function_and_evaluate], entered after
    [self.args = args[1:]]: the value of the call and the interpreter as the
    handler leaves it. *)
Definition evaluate (name : str) (t : TRAC) : str * TRAC :=
  if Py.mem str_eqb builtins name then
    match Py.getitem str_eqb builtins name with
    | Ok handler =>
        match handler t with
        | (Ok v, t') => (v, t')
        | (Raise _, t') => ([], t')
        end
    | Raise _ => ([], t)
    end
  else ([], t).

Definition _end_function_and_evaluate (t : TRAC) : outcome TRAC :=
  match frames t with
  | [] => Ok (_clear_processor t)
  | _ :: _ =>
      p <- Py.pop (frames t) ;;
      let t := set_frames t (fst p) in
      let frame := snd p in
      let final_end := length (neutral t) in
      let slices :=
        argument_slices frame ++ [(current_argument_start frame, final_end)] in
      (* extract string arguments from neutral *)
      let body_start := begin frame in
      let body_end := final_end in
      let argv :=
        map (fun ab => Py.slice (neutral t) (fst ab) (snd ab)) slices in
      (* remove the function body from neutral *)
      let t := set_neutral t (Py.del_slice (neutral t) body_start body_end) in
      (* evaluate *)
      name <- (if is_empty argv then Ok [] else Py.index argv 0) ;;
      let t := set_args t (Py.slice_from argv 1) in
      let '(value, t) := evaluate name t in
      (* deliver *)
      let t :=
        match mode frame with
        | neutral_mode => set_neutral t (neutral t ++ value)
        | active_mode =>
            set_scan (set_active t (value ++ Py.slice_from (active t) (scan t))) 0
        end in
      Ok (set_args t [])
  end.

Inductive flow := Continue | Break.

(** One iteration of the [while True] loop of [execute]. *)
Definition loop_body (t : TRAC) : outcome (flow * TRAC) :=
  (* Step 2: end-of-active? *)
  if length (active t) <=? scan t then Ok (Break, t)
  else
    ch <- Py.index (active t) (scan t) ;;
    (* Step 3 *)
    if char_in ch _skip_chars then
      t <- _delete_active_char t ;; Ok (Continue, t)
    (* Step 4 *)
    else if Ascii.eqb ch "("%char then
      r <- _consume_balanced_parentheses_into_neutral t ;;
      if negb (fst r) then Ok (Break, _clear_processor (snd r))
      else Ok (Continue, snd r)
    (* Step 5 *)
    else if Ascii.eqb ch ","%char then
      t <- _delete_active_char t ;;
      t <- _mark_argument_boundary t ;;
      Ok (Continue, t)
    (* Step 6/7 *)
    else if Ascii.eqb ch "#"%char then
      p1 <- _peek t ["("%char] ;;
      if p1 then
        t <- _delete_active_char t ;;
        t <- _delete_active_char t ;;
        Ok (Continue, _begin_function t active_mode)
      else
        p2 <- _peek t ["#"%char; "("%char] ;;
        if p2 then
          t <- _delete_active_char t ;;
          t <- _delete_active_char t ;;
          t <- _delete_active_char t ;;
          Ok (Continue, _begin_function t neutral_mode)
        else
          (* Step 8 *)
          t <- _move_active_char_to_neutral t ;; Ok (Continue, t)
    (* Step 9 *)
    else if Ascii.eqb ch ")"%char then
      t <- _delete_active_char t ;;
      t <- _end_function_and_evaluate t ;;
      Ok (Continue, t)
    (* Step 10 *)
    else
      t <- _move_active_char_to_neutral t ;; Ok (Continue, t).

(** The [while True] loop; [None]: it did not end within [fuel]
    iterations. *)
Fixpoint loop (fuel : nat) (t : TRAC) : option (outcome TRAC) :=
  match fuel with
  | 0 => None
  | S fuel' =>
      match loop_body t with
      | Raise e => Some (Raise e)
      | Ok (Break, t') => Some (Ok t')
      | Ok (Continue, t') => loop fuel' t'
      end
  end.

(** [execute(s)]: the string returned and the interpreter afterwards. *)
Definition execute (fuel : nat) (t : TRAC) (s : str)
  : option (outcome (str * TRAC)) :=
  let t := print t s ["010"%char] in
  let t := _reset_processor_with t s in
  match loop fuel t with
  | None => None
  | Some (Raise e) => Some (Raise e)
  | Some (Ok t') => Some (Ok (Py.join [] [neutral t'], t'))
  end.


(** ** Predicates on states *)

(** The handler left the processor fields as they were. *)
Definition same_processor (t t' : TRAC) : Prop :=
  active t' = active t /\ neutral t' = neutral t /\ scan t' = scan t /\
  frames t' = frames t /\ args t' = args t.

(** Every frame starts at or after the frames below it. *)
Fixpoint ordered (fs : list Frame) : Prop :=
  match fs with
  | [] => True
  | f :: fs' => Forall (fun g => begin f <= begin g) fs' /\ ordered fs'
  end.

(** What holds between two iterations of the scan loop. *)
Definition processor_inv (t : TRAC) : Prop :=
  scan t = 0 /\ args t = [] /\ ordered (frames t) /\
  Forall (fun f => begin f <= length (neutral t)) (frames t).

(** The states that a run of [execute] goes through, seen between two
    iterations of its loop. *)
Inductive reachable : TRAC -> Prop :=
| reachable_start (t0 : TRAC) (s : str) :
    reachable (_reset_processor_with (print t0 s ["010"%char]) s)
| reachable_step (t t' : TRAC) (fl : flow) :
    reachable t -> loop_body t = Ok (fl, t') -> reachable t'.

(** The arguments of the call that a [')'] closes: the slices of the
    innermost frame [f] and the last one, read in [ntl]. *)
Definition call_args (ntl : list ascii) (f : Frame) : list str :=
  map (fun ab => Py.slice ntl (fst ab) (snd ab))
      (argument_slices f ++ [(current_argument_start f, length ntl)]).

(** [k] iterations of the scan loop that all end in [continue]. *)
Fixpoint continues (k : nat) (t : TRAC) : option TRAC :=
  match k with
  | 0 => Some t
  | S k' =>
      match loop_body t with
      | Ok (Continue, t') => continues k' t'
      | _ => None
      end
  end.

(** The order of the frames by [begin], outermost first: strict, as the
    specification words it, and weak. *)
Definition frames_increasing (fs : list Frame) : Prop :=
  forall i j fi fj, i < j ->
    nth_error fs i = Some fi -> nth_error fs j = Some fj ->
    begin fi < begin fj.

Definition frames_nondecreasing (fs : list Frame) : Prop :=
  forall i j fi fj, i < j ->
    nth_error fs i = Some fi -> nth_error fs j = Some fj ->
    begin fi <= begin fj.

(** The number of ['('] minus the number of [')'] in [s]. *)
Fixpoint paren_balance (s : list ascii) : Z :=
  match s with
  | [] => 0
  | c :: s' =>
      ((if Ascii.eqb c "("%char then 1
        else if Ascii.eqb c ")"%char then -1 else 0) + paren_balance s')%Z
  end.

(** No [')'] in [rest] closes the ['('] that stands before [rest]. *)
Definition unmatched_open (rest : list ascii) : Prop :=
  forall n, n <= length rest -> (0 < 1 + paren_balance (firstn n rest))%Z.

(** The two situations of a record abort: the scanner is at a ['('] that
    nothing closes, or at a [')'] with no frame open. *)
Definition record_abort (t : TRAC) : Prop :=
  (exists rest, skipn (scan t) (active t) = "("%char :: rest /\
                unmatched_open rest) \/
  (exists rest, skipn (scan t) (active t) = ")"%char :: rest /\
                frames t = []).

(** A signed integer literal and the integer it denotes: decimal digits
    with an optional sign; the empty text stands for 0. *)
Definition is_digit (c : ascii) : Prop := 48 <= nat_of_ascii c <= 57.

Definition decimal_value (ds : list ascii) : Z :=
  fold_left (fun acc c => (10 * acc + Z.of_nat (nat_of_ascii c - 48))%Z) ds 0%Z.

Inductive literal : str -> Z -> Prop :=
| literal_empty : literal [] 0%Z
| literal_digits (ds : list ascii) :
    ds <> [] -> Forall is_digit ds -> literal ds (decimal_value ds)
| literal_plus (ds : list ascii) :
    ds <> [] -> Forall is_digit ds ->
    literal ("+"%char :: ds) (decimal_value ds)
| literal_minus (ds : list ascii) :
    ds <> [] -> Forall is_digit ds ->
    literal ("-"%char :: ds) (- decimal_value ds)%Z.

(** The two arguments [A] and [B] and the result [r] are within the limit
    of the conversions: at most 4300 digits each. *)
Definition within_limit (A B : str) (r : Z) : bool :=
  (Py.digit_count A <=? Py.int_max_str_digits)%Z &&
  (Py.digit_count B <=? Py.int_max_str_digits)%Z &&
  (Z.abs r <? 10 ^ Py.int_max_str_digits)%Z.

(** The three records that define [Factorial] in the demonstration at the
    end of the source, and the call at 50. *)
Definition fact : str :=
  chars "#(ds,Factorial,(#(eq,X,1,1,(#(ml,X,#(cl,Factorial,#(su,X,1)))))))'".
Definition fact_ss : str := chars "#(ss,Factorial,X)'".
Definition fact_50 : str := chars "#(cl,Factorial,50)'".

(** The interpreter after each of the three. *)
Definition after_fact : TRAC :=
  Eval vm_compute in
    match execute 60 init fact with Some (Ok (_, t)) => t | _ => init end.
Definition after_fact_ss : TRAC :=
  Eval vm_compute in
    match execute 20 after_fact fact_ss with
    | Some (Ok (_, t)) => t
    | _ => init
    end.
Definition after_fact_50 : TRAC :=
  Eval vm_compute in
    match execute 4000 after_fact_ss fact_50 with
    | Some (Ok (_, t)) => t
    | _ => init
    end.

(** A form that calls itself, and the call of it. *)
Definition forever : str := chars "#(ds,L,(#(cl,L)))#(cl,L)".

(** The characters that the scanner does not simply move to [neutral], the
    texts without any of them, and the texts that may hold ['#'] but no
    other of them. *)
Definition special : list ascii :=
  ["("%char; ")"%char; ","%char; "#"%char;
   "009"%char; "010"%char; "013"%char; "'"%char].

Definition plain (s : str) : bool :=
  forallb (fun c => negb (char_in c special)) s.

Definition quotable (s : str) : bool :=
  forallb (fun c => Ascii.eqb c "#"%char || negb (char_in c special)) s.

(** The two ways of writing the call of [cl] on the form [N] with the
    argument [X], followed by [rest]. *)
Definition cl_quoted (N X rest : str) : str :=
  chars "#(cl," ++ N ++ chars ",(" ++ X ++ chars "))" ++ rest.

Definition cl_bare (N X rest : str) : str :=
  chars "#(cl," ++ N ++ chars "," ++ X ++ chars ")" ++ rest.

(** What [execute] returns and the form store it leaves. *)
Definition result (r : option (outcome (str * TRAC)))
  : option (outcome (str * list (str * list Part))) :=
  match r with
  | None => None
  | Some (Raise e) => Some (Raise e)
  | Some (Ok (v, t)) => Some (Ok (v, forms t))
  end.

(** The state [t] with [p] printed before everything else. *)
Definition printed_before (p : list ascii) (t : TRAC) : TRAC :=
  mkTRAC (forms t) (active t) (neutral t) (scan t) (frames t) (args t)
         (p ++ stdout t).

(** [k] iterations take the scanner over the prefix [P] to the state [u],
    whatever follows [P] in [active]. *)
Definition scans_over (k : nat) (P : list ascii) (t u : TRAC) : Prop :=
  scan u = 0 /\
  forall tail, continues k (set_active t (P ++ tail)) = Some (set_active u tail).

(** The interpreter after a record that defines the form [N] with the body
    [X] and makes [X] its first segment marker. *)
Definition after_ds_ss : TRAC :=
  Eval vm_compute in
    match execute 20 init (chars "#(ds,N,X)#(ss,N,X)") with
    | Some (Ok (_, t)) => t
    | _ => init
    end.

(** ** Segment markers: what the specification says *)

(** The argument that fills the marker [n]: [A_n], or the empty string when
    there is none. *)
Definition argument (A : list str) (n : nat) : str :=
  match n with
  | 0 => []
  | S m => nth m A []
  end.

(** The first pattern of [pats] that is not empty and that [s] starts with,
    with its position in the list, counted from [i]. *)
Fixpoint first_match (pats : list str) (i : nat) (s : str)
  : option (nat * str) :=
  match pats with
  | [] => None
  | p :: pats' =>
      if negb (is_empty p) && Py.startswith s p then Some (i, p)
      else first_match pats' (S i) s
  end.

(** [s] with every occurrence of a pattern replaced by the argument of the
    same position, from left to right and without overlap: after a match
    the scan resumes behind it ([skip] characters are still to be passed
    over). *)
Fixpoint substitute (pats : list str) (i : nat) (A : list str) (s : str)
  (skip : nat) : str :=
  match s with
  | [] => []
  | c :: s' =>
      match skip with
      | S k => substitute pats i A s' k
      | 0 =>
          match first_match pats i s with
          | Some (n, p) => argument A n ++ substitute pats i A s' (length p - 1)
          | None => c :: substitute pats i A s' 0
          end
      end
  end.

(** The pattern [p] occurs in [s] at the position [x]. *)
Definition occurs (p s : str) (x : nat) : Prop :=
  p <> [] /\ Py.startswith (skipn x s) p = true.

(** No occurrence of a pattern in [s] overlaps an occurrence of another
    pattern of the list. *)
Definition apart (pats : list str) (s : str) : Prop :=
  forall i j p q x y,
    i <> j -> nth_error pats i = Some p -> nth_error pats j = Some q ->
    occurs p s x -> occurs q s y ->
    x + length p <= y \/ y + length q <= x.

(** No occurrence of a pattern in [s] lies inside an occurrence of another
    pattern of the list. *)
Definition nested_free (pats : list str) (s : str) : Prop :=
  forall i j p q x y,
    i <> j -> nth_error pats i = Some p -> nth_error pats j = Some q ->
    occurs p s x -> occurs q s y ->
    ~ (y <= x /\ x + length p <= y + length q).

(** ** Segment markers: one pattern after the other *)

(** The pieces of [s] between the occurrences of [p] that a search from
    left to right finds, at most [fuel] of them. *)
Fixpoint split (fuel : nat) (p s : str) : list str :=
  match fuel with
  | 0 => [s]
  | S fuel' =>
      match Py.find s p 0 with
      | None => [s]
      | Some j => firstn j s :: split fuel' p (skipn (j + length p) s)
      end
  end.

(** The pieces as literal chunks with the marker [n] between them. *)
Fixpoint inter (n : nat) (l : list str) : list Part :=
  match l with
  | [] => []
  | [c] => [Text c]
  | c :: l' => Text c :: Marker n :: inter n l'
  end.

(** Every literal chunk cut at the occurrences of [p]. *)
Fixpoint expand (p : str) (n : nat) (parts : list Part) : list Part :=
  match parts with
  | [] => []
  | Text s :: parts' => inter n (split (length s) p s) ++ expand p n parts'
  | Marker m :: parts' => Marker m :: expand p n parts'
  end.

(** The body begins with a literal chunk. *)
Definition starts_with_text (parts : list Part) : Prop :=
  match parts with Text _ :: _ => True | _ => False end.

(** No two literal chunks are neighbours. *)
Fixpoint normal (parts : list Part) : Prop :=
  match parts with
  | [] => True
  | Text _ :: parts' =>
      match parts' with
      | Text _ :: _ => False
      | _ => normal parts'
      end
  | Marker _ :: parts' => normal parts'
  end.

(** The patterns replaced one after the other: the pieces of [s] between
    the occurrences of the first pattern are treated with the other
    patterns and joined by the argument of the first. *)
Fixpoint seq_subst (pats : list str) (i : nat) (A : list str) (s : str) : str :=
  match pats with
  | [] => s
  | p :: pats' =>
      if is_empty p then seq_subst pats' (S i) A s
      else Py.join (argument A i)
             (map (seq_subst pats' (S i) A) (split (length s) p s))
  end.

(** A body whose literal chunks are still to be treated with [pats] and
    whose markers are filled from [A]. *)
Fixpoint den (pats : list str) (i : nat) (A : list str) (parts : list Part)
  : str :=
  match parts with
  | [] => []
  | Text s :: parts' => seq_subst pats i A s ++ den pats i A parts'
  | Marker n :: parts' => argument A n ++ den pats i A parts'
  end.

(** ** Text and parentheses *)

(** The [')'] that closes the ['('] before [rest] is the character of
    [rest] with the index [n - 1]: the first [n] characters are the
    shortest beginning of [rest] with one [')'] more than ['(']. *)
Definition closes_at (rest : list ascii) (n : nat) : Prop :=
  (1 + paren_balance (firstn n rest) = 0)%Z /\
  forall m, m < n -> (0 < 1 + paren_balance (firstn m rest))%Z.

(** Every ['('] of [X] has its [')'] in [X], and the other way round. *)
Definition balanced (X : list ascii) : Prop :=
  paren_balance X = 0%Z /\
  forall n, n <= length X -> (0 <= paren_balance (firstn n X))%Z.

(** The characters that the scanner keeps outside calls and parentheses. *)
Definition kept (c : ascii) : bool :=
  negb (char_in c _skip_chars || Ascii.eqb c ","%char).

(** A character that is no parenthesis. *)
Definition flat (c : ascii) : bool :=
  negb (Ascii.eqb c "("%char || Ascii.eqb c ")"%char).

(** ** The form store *)

(** A marker as [ss] numbers them. *)
Definition marker_ok (p : Part) : Prop :=
  match p with
  | Marker n => 1 <= n
  | Text _ => True
  end.

(** A body as [ds] and [ss] leave it. *)
Definition body_ok (parts : list Part) : Prop :=
  normal parts /\ Forall marker_ok parts.

(** A form store as the primitives leave it: no name twice, no empty name,
    every body as above. *)
Definition forms_ok (d : list (str * list Part)) : Prop :=
  NoDup (Py.keys d) /\ ~ In [] (Py.keys d) /\
  Forall (fun kv => body_ok (snd kv)) d.

(** The pattern [p] occurs nowhere in [s]. *)
Definition free (p s : str) : Prop :=
  forall x, Py.startswith (skipn x s) p = false.

(** ** Calls written out *)

(** A piece of an argument as it is written: text without special
    characters, or a text in protective parentheses. *)
Inductive Piece : Type :=
| Bare (s : str)
| Quoted (X : str).

Definition piece_ok (p : Piece) : Prop :=
  match p with
  | Bare s => plain s = true
  | Quoted X => balanced X
  end.

(** What stands in the source for the argument, what the argument is, and
    the iterations that the scanner spends on it. *)
Definition written (a : list Piece) : str :=
  concat (map (fun p => match p with
                        | Bare s => s
                        | Quoted X => "("%char :: X ++ [")"%char]
                        end) a).

Definition meant (a : list Piece) : str :=
  concat (map (fun p => match p with Bare s => s | Quoted X => X end) a).

Definition steps (a : list Piece) : nat :=
  list_sum (map (fun p => match p with Bare s => length s | Quoted _ => 1 end) a).

(** The call of the mode [m] with the first argument [a0] and the other
    arguments [al], and the iterations up to and with its [')']. *)
Definition call_text (m : Mode) (a0 : list Piece) (al : list (list Piece))
  : str :=
  match m with
  | active_mode => chars "#("
  | neutral_mode => chars "##("
  end ++ written a0 ++ concat (map (fun a => ","%char :: written a) al) ++
  [")"%char].

Definition call_steps (a0 : list Piece) (al : list (list Piece)) : nat :=
  1 + steps a0 + list_sum (map (fun a => 1 + steps a) al) + 1.

(** ** What a run prints *)

(** What the iteration at [t] prints: the first argument of the call that
    the [')'] under the scanner closes, when that call names [ps]. *)
Definition ps_output (t : TRAC) : str :=
  match skipn (scan t) (active t), rev (frames t) with
  | c :: _, f :: _ =>
      if Ascii.eqb c ")"%char then
        let argv := call_args (neutral t) f in
        if str_eqb (hd [] argv) (chars "ps") then nth 0 (tl argv) [] else []
      else []
  | _, _ => []
  end.

(** What the first [k] iterations from [t] print, one after the other. *)
Fixpoint printed (k : nat) (t : TRAC) : str :=
  match k with
  | 0 => []
  | S k' =>
      ps_output t ++
      match loop_body t with
      | Ok (Continue, t') => printed k' t'
      | _ => []
      end
  end.

(** * Properties *)

Lemma str_eqb_eq (a b : str) : str_eqb a b = true <-> a = b.
Proof.
  unfold str_eqb. destruct (list_eq_dec ascii_dec a b); split; congruence.
Qed.

Lemma str_eqb_refl (a : str) : str_eqb a a = true.
Proof. now apply str_eqb_eq. Qed.

Lemma str_eqb_neq (a b : str) : str_eqb a b = false <-> a <> b.
Proof.
  unfold str_eqb. destruct (list_eq_dec ascii_dec a b); split; congruence.
Qed.

(** ** Lists *)

Lemma pop_snoc {A} (l : list A) (x : A) : Py.pop (l ++ [x]) = Ok (l, x).
Proof.
  induction l as [|y l IH]; simpl; [reflexivity|].
  destruct (l ++ [x]) eqn:E.
  - destruct l; discriminate.
  - rewrite IH. reflexivity.
Qed.

Lemma nonempty_snoc {A} (l : list A) :
  l <> [] -> exists l' x, l = l' ++ [x].
Proof.
  intros H. destruct (exists_last H) as [l' [x E]]. eauto.
Qed.

Lemma index_lt {A} (l : list A) (i : nat) :
  i < length l -> exists x, Py.index l i = Ok x.
Proof.
  intros H. unfold Py.index.
  destruct (nth_error l i) eqn:E; [eauto|].
  apply nth_error_None in E. lia.
Qed.

Lemma ordered_snoc (fs : list Frame) (f : Frame) :
  ordered (fs ++ [f]) <->
  ordered fs /\ Forall (fun g => begin g <= begin f) fs.
Proof.
  induction fs as [|g fs IH]; simpl.
  - intuition.
  - rewrite IH, Forall_app. split.
    + intros [[H1 H2] [H3 H4]]. inversion H2; subst. repeat split; auto.
    + intros [[H1 H2] H3]. inversion H3; subst. repeat split; auto.
Qed.

(** ** The helpers of the processor never raise *)

Lemma delete_active_char_eq (t : TRAC) :
  _delete_active_char t =
  Ok (if scan t <? length (active t)
      then set_active t (firstn (scan t) (active t) ++
                         skipn (S (scan t)) (active t))
      else t).
Proof.
  unfold _delete_active_char, Py.del.
  destruct (scan t <? length (active t)); reflexivity.
Qed.

Lemma delete_active_char_head (t : TRAC) (c : ascii) (rest : list ascii) :
  scan t = 0 -> active t = c :: rest ->
  _delete_active_char t = Ok (set_active t rest).
Proof.
  intros Hs Ha. rewrite delete_active_char_eq, Hs, Ha. reflexivity.
Qed.

Lemma move_active_char_head (t : TRAC) (c : ascii) (rest : list ascii) :
  scan t = 0 -> active t = c :: rest ->
  _move_active_char_to_neutral t =
  Ok (set_active (set_neutral t (neutral t ++ [c])) rest).
Proof.
  intros Hs Ha. unfold _move_active_char_to_neutral.
  rewrite Hs, Ha. simpl.
  rewrite (delete_active_char_head _ c rest); auto.
Qed.

Lemma all_expected_total (a : list ascii) (expect : list ascii) (i : nat) :
  i + length expect <= length a ->
  exists b, all_expected a i expect = Ok b.
Proof.
  revert i. induction expect as [|c e IH]; intros i H; simpl in *.
  - eauto.
  - destruct (index_lt a i) as [x Hx]; [lia|]. rewrite Hx. simpl.
    destruct (Ascii.eqb x c); [|eauto].
    apply IH. lia.
Qed.

Lemma peek_total (t : TRAC) (expect : list ascii) :
  expect <> [] -> exists b, _peek t expect = Ok b.
Proof.
  intros Hne. unfold _peek.
  destruct (length (active t) <=? scan t + 1 + length expect - 1) eqn:E.
  - eauto.
  - apply Nat.leb_gt in E. apply all_expected_total.
    destruct expect; [congruence|]. simpl in *. lia.
Qed.

Lemma mark_argument_boundary_total (t : TRAC) :
  exists fs, _mark_argument_boundary t = Ok (set_frames t fs) /\
             (frames t = [] -> fs = []) /\
             (forall l f, frames t = l ++ [f] ->
                fs = l ++ [mkFrame (begin f) (mode f)
                             (argument_slices f ++
                                [(current_argument_start f, length (neutral t))])
                             (length (neutral t))]).
Proof.
  unfold _mark_argument_boundary.
  destruct (frames t) as [|f0 l0] eqn:E.
  - exists []. destruct t; simpl in *; subst. repeat split; auto.
    intros l f H. destruct l; discriminate.
  - destruct (nonempty_snoc (f0 :: l0)) as [l [f H]]; [discriminate|].
    rewrite H, pop_snoc. simpl.
    eexists. split; [reflexivity|]. split; [intros C; destruct l; discriminate|].
    intros l' f' H'. apply app_inj_tail in H'. destruct H'; subst. reflexivity.
Qed.

(** ** The handlers *)

Lemma same_processor_refl (t : TRAC) : same_processor t t.
Proof. unfold same_processor. auto. Qed.

Lemma same_processor_set_forms (t : TRAC) d : same_processor t (set_forms t d).
Proof. unfold same_processor. auto. Qed.

Lemma same_processor_trans (t1 t2 t3 : TRAC) :
  same_processor t1 t2 -> same_processor t2 t3 -> same_processor t1 t3.
Proof. unfold same_processor. intuition congruence. Qed.

Lemma builtins_get (name : str) (h : BuiltIn) :
  Py.get str_eqb builtins name = Some h ->
  (name = chars "ds" /\ h = Core.ds) \/ (name = chars "ss" /\ h = Core.ss) \/
  (name = chars "cl" /\ h = Core.cl) \/ (name = chars "eq" /\ h = Core.eq) \/
  (name = chars "ml" /\ h = Core.ml) \/ (name = chars "su" /\ h = Core.su) \/
  (name = chars "ad" /\ h = Core.ad) \/ (name = chars "ln" /\ h = Core.ln) \/
  (name = chars "dd" /\ h = Core.dd) \/ (name = chars "ps" /\ h = Core.ps).
Proof.
  unfold builtins. simpl.
  repeat match goal with
         | |- context [str_eqb name ?k] =>
             let E := fresh "E" in
             destruct (str_eqb name k) eqn:E;
             [apply str_eqb_eq in E; intros H; inversion H; subst; tauto|]
         end.
  discriminate.
Qed.

Lemma dd_loop_same_processor (range : list nat) (t : TRAC) :
  same_processor t (snd (Core.dd_loop range t)).
Proof.
  revert t. induction range as [|i r IH]; intros t; simpl.
  - apply same_processor_refl.
  - destruct (_arg t i); [|apply same_processor_refl].
    destruct (Py.mem str_eqb (forms t) a); [|apply IH].
    destruct (Py.delitem str_eqb (forms t) a); [|apply same_processor_refl].
    eapply same_processor_trans; [apply same_processor_set_forms|apply IH].
Qed.

Lemma handler_same_processor (name : str) (h : BuiltIn) (t : TRAC) :
  Py.get str_eqb builtins name = Some h -> same_processor t (snd (h t)).
Proof.
  intros H. apply builtins_get in H.
  repeat (destruct H as [[_ H]|H]; [subst h|]); try destruct H as [_ H]; try subst h;
    try apply same_processor_refl.
  - unfold Core.ds.
    destruct (name0 <- _arg t 0;; body <- _arg t 1;; Ok (name0, body)) as [[n b]|];
      [|apply same_processor_refl].
    destruct (is_empty n); [apply same_processor_refl|apply same_processor_set_forms].
  - unfold Core.ss. destruct (_arg t 0); [|apply same_processor_refl].
    destruct (negb _); [apply same_processor_refl|].
    destruct (Py.getitem _ _ _); [apply same_processor_set_forms|apply same_processor_refl].
  - unfold Core.dd.
    pose proof (dd_loop_same_processor (seq 0 (length (args t))) t) as P.
    destruct (Core.dd_loop _ t) as [[u|e] t']; exact P.
  - unfold Core.ps. destruct (_arg t 0); [|apply same_processor_refl].
    unfold same_processor, print. simpl. auto.
Qed.

Lemma evaluate_same_processor (name : str) (t : TRAC) :
  same_processor t (snd (evaluate name t)).
Proof.
  unfold evaluate, Py.mem, Py.getitem.
  destruct (Py.get str_eqb builtins name) as [h|] eqn:E;
    [|apply same_processor_refl].
  pose proof (handler_same_processor name h t E) as P.
  destruct (h t) as [[v|e] t']; exact P.
Qed.

(** The handlers that leave the form store alone. *)
Lemma handler_keeps_forms (name : str) (h : BuiltIn) (t : TRAC) :
  Py.get str_eqb builtins name = Some h ->
  name <> chars "ds" -> name <> chars "ss" -> name <> chars "dd" ->
  forms (snd (h t)) = forms t.
Proof.
  intros H N1 N2 N3. apply builtins_get in H.
  repeat (destruct H as [[Hn H]|H]; [subst h; try congruence|]);
    try (destruct H as [Hn H]; subst h; try congruence);
    try reflexivity.
  unfold Core.ps. destruct (_arg t 0); reflexivity.
Qed.

(** ** Ending a call *)

Lemma del_slice_to_end {A} (l : list A) (a : nat) :
  Py.del_slice l a (length l) = firstn a l.
Proof.
  unfold Py.del_slice.
  rewrite skipn_all2 by lia. apply app_nil_r.
Qed.

Lemma end_function_eq (t : TRAC) (fs : list Frame) (f : Frame) :
  frames t = fs ++ [f] ->
  _end_function_and_evaluate t =
  let argv := call_args (neutral t) f in
  let t0 := set_args (set_neutral (set_frames t fs)
                        (firstn (begin f) (neutral t))) (tl argv) in
  let t1 := snd (evaluate (hd [] argv) t0) in
  let value := fst (evaluate (hd [] argv) t0) in
  Ok (set_args
        match mode f with
        | neutral_mode => set_neutral t1 (neutral t1 ++ value)
        | active_mode =>
            set_scan (set_active t1 (value ++ skipn (scan t1) (active t1))) 0
        end []).
Proof.
  intros H. unfold _end_function_and_evaluate.
  rewrite H. destruct (fs ++ [f]) eqn:E; [destruct fs; discriminate|].
  rewrite <- E, pop_snoc. cbn [bind fst snd].
  cbn [neutral set_frames].
  rewrite del_slice_to_end. fold (call_args (neutral t) f).
  unfold call_args.
  destruct (argument_slices f ++ [(current_argument_start f, length (neutral t))])
    as [|p sl] eqn:E2; [destruct (argument_slices f); discriminate|].
  cbn [map is_empty Py.index nth_error bind hd tl Py.slice_from skipn].
  destruct (evaluate _ _) as [value t1]. reflexivity.
Qed.

Lemma end_function_total (t : TRAC) :
  exists t', _end_function_and_evaluate t = Ok t'.
Proof.
  destruct (frames t) as [|f0 l0] eqn:E.
  - unfold _end_function_and_evaluate. rewrite E. eauto.
  - destruct (nonempty_snoc (f0 :: l0)) as [l [f H]]; [discriminate|].
    rewrite H in E. rewrite (end_function_eq t l f E). eauto.
Qed.

Lemma consume_total (t : TRAC) :
  exists r, _consume_balanced_parentheses_into_neutral t = Ok r.
Proof.
  unfold _consume_balanced_parentheses_into_neutral.
  rewrite delete_active_char_eq. cbn [bind].
  destruct (consume_loop _ _ _) as [[found rest] ntl]. eauto.
Qed.

(** An iteration of the scan loop never raises. *)
Lemma loop_body_total (t : TRAC) : exists r, loop_body t = Ok r.
Proof.
  unfold loop_body.
  destruct (length (active t) <=? scan t) eqn:E; [eauto|].
  apply Nat.leb_gt in E.
  destruct (index_lt (active t) (scan t) E) as [ch Hch]. rewrite Hch.
  cbn [bind].
  assert (Hmove : exists t', _move_active_char_to_neutral t = Ok t').
  { unfold _move_active_char_to_neutral. rewrite Hch. cbn [bind].
    rewrite delete_active_char_eq. eauto. }
  destruct (char_in ch _skip_chars).
  { rewrite delete_active_char_eq. cbn [bind]. eauto. }
  destruct (Ascii.eqb ch "("%char).
  { destruct (consume_total t) as [r Hr]. rewrite Hr. cbn [bind].
    destruct (negb (fst r)); eauto. }
  destruct (Ascii.eqb ch ","%char).
  { rewrite delete_active_char_eq. cbn [bind].
    match goal with |- context [_mark_argument_boundary ?u] =>
      destruct (mark_argument_boundary_total u) as [fs [Hfs _]]; rewrite Hfs
    end. cbn [bind]. eauto. }
  destruct (Ascii.eqb ch "#"%char).
  { destruct (peek_total t ["("%char]) as [b1 H1]; [discriminate|].
    rewrite H1. cbn [bind]. destruct b1.
    - rewrite delete_active_char_eq. cbn [bind].
      rewrite delete_active_char_eq. cbn [bind]. eauto.
    - destruct (peek_total t ["#"%char; "("%char]) as [b2 H2]; [discriminate|].
      rewrite H2. cbn [bind]. destruct b2.
      + do 3 (rewrite delete_active_char_eq; cbn [bind]). eauto.
      + destruct Hmove as [t' Ht']. rewrite Ht'. cbn [bind]. eauto. }
  destruct (Ascii.eqb ch ")"%char).
  { rewrite delete_active_char_eq. cbn [bind].
    match goal with |- context [_end_function_and_evaluate ?u] =>
      destruct (end_function_total u) as [t' Ht']; rewrite Ht'
    end. cbn [bind]. eauto. }
  destruct Hmove as [t' Ht']. rewrite Ht'. cbn [bind]. eauto.
Qed.

(** ** The invariant of the scan loop *)

Lemma bind_ok {A B} (m : outcome A) (k : A -> outcome B) (r : B) :
  bind m k = Ok r -> exists a, m = Ok a /\ k a = Ok r.
Proof. destruct m; simpl; [eauto|discriminate]. Qed.

Ltac bind_inv H :=
  let a := fresh "u" in
  let H1 := fresh "Hu" in
  apply bind_ok in H; destruct H as [a [H1 H]].

Lemma inv_set_active (t : TRAC) (a : list ascii) :
  processor_inv t -> processor_inv (set_active t a).
Proof. unfold processor_inv. simpl. auto. Qed.

Lemma inv_grow (t : TRAC) (x : list ascii) :
  processor_inv t -> processor_inv (set_neutral t (neutral t ++ x)).
Proof.
  unfold processor_inv. simpl. intros (H1 & H2 & H3 & H4). repeat split; auto.
  eapply Forall_impl; [|exact H4]. intros f Hf. simpl in Hf.
  rewrite length_app. lia.
Qed.

Lemma inv_clear (t : TRAC) : processor_inv (_clear_processor t).
Proof. unfold processor_inv. simpl. auto. Qed.

Lemma inv_reset (t : TRAC) (s : str) : processor_inv (_reset_processor_with t s).
Proof. unfold processor_inv. simpl. auto. Qed.

Lemma inv_delete (t t' : TRAC) :
  processor_inv t -> _delete_active_char t = Ok t' -> processor_inv t'.
Proof.
  intros I H. rewrite delete_active_char_eq in H. inversion H; subst.
  destruct (scan t <? length (active t)); [apply inv_set_active|]; exact I.
Qed.

Lemma inv_move (t t' : TRAC) :
  processor_inv t -> _move_active_char_to_neutral t = Ok t' -> processor_inv t'.
Proof.
  intros I H. unfold _move_active_char_to_neutral in H. bind_inv H.
  eapply inv_delete; [|exact H]. apply inv_grow. exact I.
Qed.

Lemma consume_loop_grows (rest : list ascii) (depth : Z) (ntl : list ascii) :
  exists x, snd (consume_loop rest depth ntl) = ntl ++ x.
Proof.
  revert depth ntl. induction rest as [|ch rest IH]; intros depth ntl; simpl.
  - exists []. now rewrite app_nil_r.
  - destruct (Ascii.eqb ch "("%char).
    { destruct (IH (depth + 1)%Z (ntl ++ [ch])) as [x Hx]. rewrite Hx.
      exists (ch :: x). now rewrite <- app_assoc. }
    destruct (Ascii.eqb ch ")"%char).
    { destruct (depth - 1 =? 0)%Z.
      - exists []. now rewrite app_nil_r.
      - destruct (IH (depth - 1)%Z (ntl ++ [ch])) as [x Hx]. rewrite Hx.
        exists (ch :: x). now rewrite <- app_assoc. }
    destruct (IH depth (ntl ++ [ch])) as [x Hx]. rewrite Hx.
    exists (ch :: x). now rewrite <- app_assoc.
Qed.

Lemma inv_consume (t : TRAC) (r : bool * TRAC) :
  processor_inv t -> _consume_balanced_parentheses_into_neutral t = Ok r ->
  processor_inv (snd r).
Proof.
  intros I H. unfold _consume_balanced_parentheses_into_neutral in H.
  bind_inv H. pose proof (inv_delete t u I Hu) as I1.
  pose proof (consume_loop_grows (Py.slice_from (active u) (scan u)) 1 (neutral u))
    as [x Hx].
  destruct (consume_loop _ _ _) as [[found rest] ntl]. simpl in Hx. subst ntl.
  inversion H; subst. simpl.
  apply (inv_grow (set_active u (firstn (scan u) (active u) ++ rest)) x).
  apply inv_set_active. exact I1.
Qed.

Lemma inv_begin (t : TRAC) (m : Mode) :
  processor_inv t -> processor_inv (_begin_function t m).
Proof.
  unfold processor_inv, _begin_function. simpl.
  intros (H1 & H2 & H3 & H4). repeat split; auto.
  - apply ordered_snoc. split; auto.
  - apply Forall_app. split; auto.
Qed.

Lemma inv_mark (t t' : TRAC) :
  processor_inv t -> _mark_argument_boundary t = Ok t' -> processor_inv t'.
Proof.
  intros I H.
  destruct (mark_argument_boundary_total t) as [fs [E [H0 H1]]].
  rewrite E in H. inversion H; subst t'. clear H E.
  destruct I as (I1 & I2 & I3 & I4).
  destruct (frames t) as [|f0 l0] eqn:Ef.
  - rewrite (H0 eq_refl). unfold processor_inv. simpl. auto.
  - destruct (nonempty_snoc (f0 :: l0)) as [l [f Hl]]; [discriminate|].
    rewrite (H1 l f Hl). rewrite Hl in I3, I4.
    apply ordered_snoc in I3. apply Forall_app in I4.
    unfold processor_inv. simpl. repeat split; auto.
    + apply ordered_snoc. simpl. exact I3.
    + apply Forall_app. split; [tauto|]. constructor; [|constructor].
      simpl. destruct I4 as [_ I4]. inversion I4; auto.
Qed.

Lemma inv_end (t t' : TRAC) :
  processor_inv t -> _end_function_and_evaluate t = Ok t' -> processor_inv t'.
Proof.
  intros I H.
  destruct (frames t) as [|f0 l0] eqn:Ef.
  - unfold _end_function_and_evaluate in H. rewrite Ef in H.
    inversion H. apply inv_clear.
  - destruct (nonempty_snoc (f0 :: l0)) as [l [f Hl]]; [discriminate|].
    rewrite Hl in Ef. rewrite (end_function_eq t l f Ef) in H.
    cbv zeta in H. inversion H; subst t'. clear H.
    destruct I as (I1 & I2 & I3 & I4). rewrite Ef in I3, I4.
    apply ordered_snoc in I3. apply Forall_app in I4.
    destruct I3 as [I3 I5]. destruct I4 as [I4 I6].
    inversion I6 as [|? ? I7 _]; subst.
    match goal with |- context [evaluate ?n ?u] =>
      pose proof (evaluate_same_processor n u) as P;
      destruct (evaluate n u) as [value t1]
    end.
    destruct P as (P1 & P2 & P3 & P4 & P5). simpl in P1, P2, P3, P4, P5.
    assert (B : Forall (fun g => begin g <= length (firstn (begin f) (neutral t))) l).
    { eapply Forall_impl; [|exact I5]. intros g Hg. simpl in Hg.
      rewrite length_firstn. lia. }
    cbn [fst snd].
    destruct (mode f); unfold processor_inv; simpl; rewrite ?P4, ?P2, ?P3;
      repeat split; auto.
    eapply Forall_impl; [|exact B]. intros g Hg. simpl in Hg.
    rewrite length_app. lia.
Qed.

Lemma loop_body_inv (t t' : TRAC) (fl : flow) :
  processor_inv t -> loop_body t = Ok (fl, t') -> processor_inv t'.
Proof.
  intros I H. unfold loop_body in H.
  destruct (length (active t) <=? scan t); [inversion H; subst; exact I|].
  bind_inv H. rename u into ch.
  destruct (char_in ch _skip_chars).
  { bind_inv H. inversion H; subst. eapply inv_delete; eauto. }
  destruct (Ascii.eqb ch "("%char).
  { bind_inv H. pose proof (inv_consume t u I Hu0) as I1.
    destruct (negb (fst u)); inversion H; subst; [apply inv_clear|exact I1]. }
  destruct (Ascii.eqb ch ","%char).
  { bind_inv H. bind_inv H. inversion H; subst.
    eapply inv_mark; [|eauto]. eapply inv_delete; eauto. }
  destruct (Ascii.eqb ch "#"%char).
  { bind_inv H. destruct u.
    - bind_inv H. bind_inv H. inversion H; subst. apply inv_begin.
      eapply inv_delete; [|eauto]. eapply inv_delete; eauto.
    - bind_inv H. destruct u.
      + bind_inv H. bind_inv H. bind_inv H. inversion H; subst. apply inv_begin.
        eapply inv_delete; [|eauto]. eapply inv_delete; [|eauto].
        eapply inv_delete; eauto.
      + bind_inv H. inversion H; subst. eapply inv_move; eauto. }
  destruct (Ascii.eqb ch ")"%char).
  { bind_inv H. bind_inv H. inversion H; subst.
    eapply inv_end; [|eauto]. eapply inv_delete; eauto. }
  bind_inv H. inversion H; subst. eapply inv_move; eauto.
Qed.

Lemma reachable_inv (t : TRAC) : reachable t -> processor_inv t.
Proof.
  induction 1 as [t0 s|t t' fl _ IH H].
  - apply inv_reset.
  - eapply loop_body_inv; eauto.
Qed.

Lemma ordered_nondecreasing (fs : list Frame) :
  ordered fs -> frames_nondecreasing fs.
Proof.
  induction fs as [|f fs IH]; intros H i j fi fj Hij Hi Hj.
  - destruct i; discriminate.
  - destruct H as [H1 H2]. destruct j as [|j]; [lia|]. simpl in Hj.
    destruct i as [|i]; simpl in Hi.
    + inversion Hi; subst fi. rewrite Forall_forall in H1.
      apply H1. eapply nth_error_In; eauto.
    + apply (IH H2 i j); auto. lia.
Qed.

Lemma loop_continues (k fuel : nat) (t t' : TRAC) :
  continues k t = Some t' -> loop (k + fuel) t = loop fuel t'.
Proof.
  revert t. induction k as [|k IH]; intros t H; simpl in *.
  - inversion H. reflexivity.
  - destruct (loop_body t) as [[[|] u]|]; try discriminate. apply IH, H.
Qed.

Lemma continues_reachable (k : nat) (t t' : TRAC) :
  reachable t -> continues k t = Some t' -> reachable t'.
Proof.
  revert t. induction k as [|k IH]; intros t R H; simpl in *.
  - inversion H; subst. exact R.
  - destruct (loop_body t) as [[[|] u]|] eqn:E; try discriminate.
    eapply IH; [|exact H]. eapply reachable_step; eauto.
Qed.

Lemma break_active_empty (t t' : TRAC) :
  scan t = 0 -> loop_body t = Ok (Break, t') -> active t' = [].
Proof.
  intros Hs H. unfold loop_body in H.
  destruct (length (active t) <=? scan t) eqn:E.
  { inversion H; subst. apply Nat.leb_le in E. rewrite Hs in E.
    destruct (active t'); [reflexivity|simpl in E; lia]. }
  bind_inv H.
  destruct (char_in u _skip_chars); [bind_inv H; discriminate|].
  destruct (Ascii.eqb u "("%char).
  { bind_inv H. destruct (negb (fst u0)); inversion H. reflexivity. }
  destruct (Ascii.eqb u ","%char); [bind_inv H; bind_inv H; discriminate|].
  destruct (Ascii.eqb u "#"%char).
  { bind_inv H. destruct u0.
    - bind_inv H. bind_inv H. discriminate.
    - bind_inv H. destruct u0.
      + bind_inv H. bind_inv H. bind_inv H. discriminate.
      + bind_inv H. discriminate. }
  destruct (Ascii.eqb u ")"%char); [bind_inv H; bind_inv H; discriminate|].
  bind_inv H. discriminate.
Qed.

Lemma loop_end (fuel : nat) (t t' : TRAC) :
  reachable t -> loop fuel t = Some (Ok t') ->
  reachable t' /\ active t' = [].
Proof.
  revert t. induction fuel as [|fuel IH]; intros t R H; simpl in H.
  - discriminate.
  - destruct (loop_body t) as [[[|] u]|] eqn:E.
    + apply (IH u); [eapply reachable_step; eauto|exact H].
    + inversion H; subst u. split; [eapply reachable_step; eauto|].
      eapply break_active_empty; [|exact E].
      apply reachable_inv in R. apply R.
    + discriminate.
Qed.

(** ** Protective parentheses *)

Lemma consume_loop_unmatched (rest : list ascii) (depth : Z) (ntl : list ascii) :
  (forall n, n <= length rest ->
     (0 < depth + paren_balance (firstn n rest))%Z) ->
  fst (fst (consume_loop rest depth ntl)) = false.
Proof.
  revert depth ntl. induction rest as [|ch rest IH]; intros depth ntl H.
  - reflexivity.
  - assert (H1 := H 1 ltac:(simpl; lia)).
    assert (HS : forall n, n <= length rest ->
              (0 < depth + paren_balance (ch :: firstn n rest))%Z).
    { intros n Hn. apply (H (S n)). simpl. lia. }
    simpl in H1, HS |- *.
    destruct (Ascii.eqb ch "("%char).
    { apply IH. intros n Hn. specialize (HS n Hn). lia. }
    destruct (Ascii.eqb ch ")"%char).
    { destruct (depth - 1 =? 0)%Z eqn:E; [apply Z.eqb_eq in E; lia|].
      apply IH. intros n Hn. specialize (HS n Hn). lia. }
    apply IH. intros n Hn. specialize (HS n Hn). lia.
Qed.

Lemma consume_loop_matched (rest : list ascii) (depth : Z) (ntl : list ascii) :
  (0 < depth)%Z ->
  fst (fst (consume_loop rest depth ntl)) = true ->
  exists n, n <= length rest /\ (depth + paren_balance (firstn n rest) = 0)%Z.
Proof.
  revert depth ntl. induction rest as [|ch rest IH]; intros depth ntl Hd H.
  - discriminate.
  - simpl in H.
    destruct (Ascii.eqb ch "("%char) eqn:E1.
    { apply IH in H; [|lia]. destruct H as [n [Hn Hb]]. exists (S n).
      simpl. rewrite E1. split; lia. }
    destruct (Ascii.eqb ch ")"%char) eqn:E2.
    { destruct (depth - 1 =? 0)%Z eqn:E.
      - apply Z.eqb_eq in E. exists 1. simpl. rewrite E1, E2.
        split; [lia|]. destruct rest; simpl; lia.
      - apply Z.eqb_neq in E.
        apply IH in H; [|lia]. destruct H as [n [Hn Hb]]. exists (S n).
        simpl. rewrite E1, E2. split; lia. }
    destruct (IH _ _ Hd H) as [n [Hn Hb]]. exists (S n).
    simpl. rewrite E1, E2. split; lia.
Qed.

Lemma consume_eq (t : TRAC) (rest : list ascii) :
  scan t = 0 -> active t = "("%char :: rest ->
  _consume_balanced_parentheses_into_neutral t =
  let r := consume_loop rest 1 (neutral t) in
  Ok (fst (fst r), set_neutral (set_active t (snd (fst r))) (snd r)).
Proof.
  intros Hs Ha. unfold _consume_balanced_parentheses_into_neutral.
  rewrite (delete_active_char_head t _ rest Hs Ha). cbn [bind].
  cbn [scan set_active active neutral]. rewrite Hs.
  cbn [Py.slice_from skipn firstn app].
  destruct (consume_loop rest 1 (neutral t)) as [[found r] n]. reflexivity.
Qed.

Lemma abort_loop (t : TRAC) (fuel : nat) :
  scan t = 0 -> record_abort t ->
  loop (S (S fuel)) t = Some (Ok (_clear_processor t)).
Proof.
  intros Hs [[rest [Ha Hu]]|[rest [Ha Hf]]]; rewrite Hs in Ha; simpl in Ha.
  - cbn [loop]. unfold loop_body. rewrite Hs, Ha.
    cbn [length Nat.leb Py.index nth_error bind].
    change (char_in "("%char _skip_chars) with false.
    cbn [Ascii.eqb Bool.eqb].
    rewrite (consume_eq t rest Hs Ha). cbv zeta. cbn [bind fst snd].
    rewrite consume_loop_unmatched by exact Hu. reflexivity.
  - cbn [loop]. unfold loop_body at 1. rewrite Hs, Ha.
    cbn [length Nat.leb Py.index nth_error bind].
    change (char_in ")"%char _skip_chars) with false.
    cbn [Ascii.eqb Bool.eqb].
    rewrite (delete_active_char_head t _ rest Hs Ha). cbn [bind].
    unfold _end_function_and_evaluate. cbn [frames set_active]. rewrite Hf.
    cbn [bind]. unfold loop_body. reflexivity.
Qed.

(** ** Known primitives *)

Lemma evaluate_known (name : str) (h : BuiltIn) (t : TRAC) :
  Py.get str_eqb builtins name = Some h ->
  evaluate name t =
  match h t with
  | (Ok v, t') => (v, t')
  | (Raise _, t') => ([], t')
  end.
Proof.
  intros H. unfold evaluate, Py.mem, Py.getitem. rewrite H. reflexivity.
Qed.

Lemma evaluate_unknown (name : str) (t : TRAC) :
  Py.get str_eqb builtins name = None -> evaluate name t = ([], t).
Proof.
  intros H. unfold evaluate, Py.mem. rewrite H. reflexivity.
Qed.

Lemma get_setitem (d : list (str * list Part)) (k : str) (v : list Part) :
  Py.get str_eqb (Py.setitem str_eqb d k v) k = Some v.
Proof.
  induction d as [|[k' v'] d IH]; simpl.
  - now rewrite str_eqb_refl.
  - destruct (str_eqb k k') eqn:E; simpl; rewrite E; auto.
Qed.

(** * The processor at the end of a call, at an abort and at the end *)

(** C1. When [')'] closes the innermost frame [f] in a state of a run, the
    arguments of the call are the slices of [f] read in [neutral], the body
    region [neutral[begin f:]] is cut off, the primitive named by the first
    argument is evaluated on the other arguments, and its value [V] goes in
    front of the rest of [active] (to be scanned again, [scan] being 0) for
    an active frame, or at the end of [neutral] for a neutral frame. *)
Theorem call_end_delivers (t : TRAC) (rest : list ascii) (fs : list Frame)
  (f : Frame) :
  reachable t -> active t = ")"%char :: rest -> frames t = fs ++ [f] ->
  let argv := call_args (neutral t) f in
  let kept := firstn (begin f) (neutral t) in
  let t0 := mkTRAC (forms t) rest kept 0 fs (tl argv) (stdout t) in
  let V := fst (evaluate (hd [] argv) t0) in
  let t1 := snd (evaluate (hd [] argv) t0) in
  neutral t = kept ++ skipn (begin f) (neutral t) /\
  length kept = begin f /\
  loop_body t =
  Ok (Continue,
      match mode f with
      | active_mode => mkTRAC (forms t1) (V ++ rest) kept 0 fs [] (stdout t1)
      | neutral_mode => mkTRAC (forms t1) rest (kept ++ V) 0 fs [] (stdout t1)
      end).
Proof.
  intros R Ha Hf argv kept t0 V t1.
  destruct (reachable_inv t R) as (Hs & Hargs & Hord & Hb).
  split; [symmetry; apply firstn_skipn|].
  split.
  { subst kept. rewrite length_firstn. rewrite Hf in Hb.
    apply Forall_app in Hb. destruct Hb as [_ Hb]. inversion Hb; subst. lia. }
  unfold loop_body. rewrite Hs, Ha.
  cbn [length Nat.leb Py.index nth_error bind].
  change (char_in ")"%char _skip_chars) with false.
  cbn [Ascii.eqb Bool.eqb].
  rewrite (delete_active_char_head t _ rest Hs Ha). cbn [bind].
  rewrite (end_function_eq (set_active t rest) fs f Hf). cbv zeta.
  cbn [bind neutral set_active].
  assert (E0 : set_args (set_neutral (set_frames (set_active t rest) fs)
                 (firstn (begin f) (neutral t)))
                 (tl (call_args (neutral t) f)) = t0).
  { subst t0 kept argv. unfold set_args, set_neutral, set_frames, set_active.
    simpl. rewrite Hs. reflexivity. }
  rewrite E0. fold argv. fold V. fold t1.
  pose proof (evaluate_same_processor (hd [] argv) t0) as P. fold t1 in P.
  destruct P as (P1 & P2 & P3 & P4 & P5).
  destruct t1 as [fo ac ne sc fr ar so]. simpl in P1, P2, P3, P4, P5. subst.
  destruct (mode f); reflexivity.
Qed.

(** C5. When the run of [execute] on [s] comes, after [k] iterations, to a
    state [t] where the scanner meets a ['('] that nothing closes or a
    [')'] with no frame open, [execute] returns the empty string, [active],
    [neutral], [frames] and [args] are empty, and the form store (and what
    was printed) is what it was in [t]. *)
Theorem record_abort_clears (t0 : TRAC) (s : str) (k fuel : nat) (t : TRAC) :
  continues k (_reset_processor_with (print t0 s ["010"%char]) s) = Some t ->
  record_abort t ->
  execute (k + S (S fuel)) t0 s =
  Some (Ok ([], mkTRAC (forms t) [] [] 0 [] [] (stdout t))).
Proof.
  intros Hk Ha. unfold execute.
  rewrite (loop_continues k (S (S fuel)) _ t Hk).
  rewrite abort_loop; [reflexivity| |exact Ha].
  assert (R : reachable t).
  { eapply continues_reachable; [apply reachable_start|exact Hk]. }
  apply reachable_inv in R. apply R.
Qed.

Lemma record_abort_clears_witness :
  execute 10 init (chars "#(ds,A,b))") =
  Some (Ok ([], mkTRAC [(chars "A", [Text (chars "b")])] [] [] 0 [] []
                  (chars "#(ds,A,b))" ++ ["010"%char]))).
Proof.
  apply (record_abort_clears init (chars "#(ds,A,b))") 8 0
           (mkTRAC [(chars "A", [Text (chars "b")])] [")"%char] [] 0 [] []
                   (chars "#(ds,A,b))" ++ ["010"%char]))).
  - vm_compute. reflexivity.
  - right. exists []. split; reflexivity.
Defined.

(** C7, as the specification words it, fails: after [execute("ab#(cl,x")]
    [neutral] holds the five characters returned and one frame is left on
    the stack. *)
Lemma buffers_not_empty_after_execute :
  ~ (forall fuel t0 s v t',
       execute fuel t0 s = Some (Ok (v, t')) ->
       active t' = [] /\ neutral t' = [] /\ frames t' = [] /\ args t' = []).
Proof.
  intros H.
  destruct (H 9 init (chars "ab#(cl,x") (chars "abclx")
              (mkTRAC [] [] (chars "abclx") 0
                 [mkFrame 2 active_mode [(2, 4)] 4] []
                 (chars "ab#(cl,x" ++ ["010"%char])))
    as (_ & Hn & _).
  - vm_compute. reflexivity.
  - discriminate.
Qed.

(** C9, as the code has it.  In every state of a run the frames are in
    non-decreasing order of [begin], so the innermost frame has the largest
    [begin], and no [begin] is past the end of [neutral]. *)
Theorem frames_begin_nondecreasing (t : TRAC) :
  reachable t ->
  frames_nondecreasing (frames t) /\
  (forall fs g f, frames t = fs ++ [g] -> In f fs -> begin f <= begin g) /\
  (forall f, In f (frames t) -> begin f <= length (neutral t)).
Proof.
  intros R. destruct (reachable_inv t R) as (_ & _ & Ho & Hb).
  split; [apply ordered_nondecreasing, Ho|]. split.
  - intros fs g f E Hin. rewrite E in Ho. apply ordered_snoc in Ho.
    destruct Ho as [_ Ho]. rewrite Forall_forall in Ho. apply Ho, Hin.
  - rewrite Forall_forall in Hb. exact Hb.
Qed.

Lemma two_frames_reachable :
  reachable (mkTRAC [] [] [] 0
               [mkFrame 0 active_mode [] 0; mkFrame 0 active_mode [] 0] []
               (chars "#(#(" ++ ["010"%char])).
Proof.
  apply (continues_reachable 2 _ _ (reachable_start init (chars "#(#("))).
  vm_compute. reflexivity.
Defined.

Lemma frames_begin_nondecreasing_witness :
  frames_nondecreasing
    [mkFrame 0 active_mode [] 0; mkFrame 0 active_mode [] 0].
Proof.
  exact (proj1 (frames_begin_nondecreasing _ two_frames_reachable)).
Defined.

(** C9, as the specification words it, fails: scanning ["#(#("] pushes two
    frames that both begin at 0. *)
Lemma frames_not_strictly_increasing :
  ~ (forall t, reachable t -> frames_increasing (frames t)).
Proof.
  intros H. specialize (H _ two_frames_reachable).
  specialize (H 0 1 (mkFrame 0 active_mode [] 0) (mkFrame 0 active_mode [] 0)).
  simpl in H. specialize (H ltac:(lia) eq_refl eq_refl). lia.
Qed.

(** C10. A call of any primitive other than [ds], [ss] and [dd] (so a call
    of [cl], [eq], [ml], [ad], [su], [ln] or [ps], and a call of an unknown
    name) leaves the form store as it was. *)
Theorem only_ds_ss_dd_modify_forms (name : str) (t : TRAC) :
  name <> chars "ds" -> name <> chars "ss" -> name <> chars "dd" ->
  forms (snd (evaluate name t)) = forms t.
Proof.
  intros N1 N2 N3. unfold evaluate, Py.mem, Py.getitem.
  destruct (Py.get str_eqb builtins name) as [h|] eqn:E; [|reflexivity].
  pose proof (handler_keeps_forms name h t E N1 N2 N3) as P.
  destruct (h t) as [[v|e] t']; exact P.
Qed.

Lemma only_ds_ss_dd_modify_forms_witness :
  forms (snd (evaluate (chars "ps")
                (mkTRAC [(chars "A", [Text (chars "b")])] [] [] 0 [] [chars "x"] []))) =
  [(chars "A", [Text (chars "b")])].
Proof.
  apply (only_ds_ss_dd_modify_forms (chars "ps")
           (mkTRAC [(chars "A", [Text (chars "b")])] [] [] 0 [] [chars "x"] []));
    discriminate.
Defined.

(** C3. For a name [N] that is not empty and any body [B], the call
    [ds] with the arguments [N], [B] followed by the call [cl] with the
    argument [N] returns [B]. *)
Theorem ds_cl_roundtrip (t : TRAC) (N B : str) :
  N <> [] ->
  fst (evaluate (chars "cl")
         (set_args (snd (evaluate (chars "ds") (set_args t [N; B]))) [N])) = B.
Proof.
  intros HN.
  rewrite (evaluate_known (chars "ds") Core.ds) by reflexivity.
  unfold Core.ds. cbn [_arg args set_args length Nat.ltb Nat.leb Py.index
                         nth_error bind].
  destruct N as [|c N]; [congruence|]. cbn [is_empty snd].
  rewrite (evaluate_known (chars "cl") Core.cl) by reflexivity.
  unfold Core.cl. cbn [_arg args set_args length Nat.ltb Nat.leb Py.index
                         nth_error bind forms set_forms].
  unfold Py.mem, Py.getitem. rewrite get_setitem.
  cbn [negb bind seq Core.replacement Nat.add Nat.ltb Nat.leb length fst].
  reflexivity.
Qed.

Lemma ds_cl_roundtrip_witness :
  fst (evaluate (chars "cl")
         (set_args (snd (evaluate (chars "ds")
                           (set_args init [chars "N"; chars "#(x,y)"])))
            [chars "N"])) = chars "#(x,y)".
Proof.
  apply (ds_cl_roundtrip init (chars "N") (chars "#(x,y)")). discriminate.
Defined.

(** * Integer arithmetic *)

Lemma arg_nth (t : TRAC) (i : nat) : _arg t i = Ok (nth i (args t) []).
Proof.
  unfold _arg, Py.index.
  destruct (i <? length (args t)) eqn:E.
  - apply Nat.ltb_lt in E.
    destruct (nth_error (args t) i) eqn:E1.
    + now rewrite (nth_error_nth _ _ _ E1).
    + apply nth_error_None in E1. lia.
  - apply Nat.ltb_ge in E. now rewrite nth_overflow.
Qed.

Lemma digit_not_space (c : ascii) : is_digit c -> Py.isspace c = false.
Proof.
  unfold is_digit, Py.isspace. intros H.
  repeat match goal with
         | |- context [?a <=? ?b] => destruct (Nat.leb_spec a b)
         | |- context [?a =? ?b] => destruct (Nat.eqb_spec a b)
         end; simpl; try reflexivity; lia.
Qed.

Lemma digit_value_digit (c : ascii) :
  is_digit c -> Py.digit_value c = Some (Z.of_nat (nat_of_ascii c - 48)).
Proof.
  unfold is_digit, Py.digit_value. intros [H1 H2].
  apply Nat.leb_le in H1, H2. now rewrite H1, H2.
Qed.

Lemma digits_fold (ds : list ascii) (acc : Z) (b : bool) :
  Forall is_digit ds -> ds <> [] \/ b = true ->
  Py.digits ds acc b =
  Ok (fold_left (fun acc c => (10 * acc + Z.of_nat (nat_of_ascii c - 48))%Z)
        ds acc).
Proof.
  revert acc b. induction ds as [|c ds IH]; intros acc b Hd Hb.
  - destruct Hb as [Hb|Hb]; [congruence|]. subst. reflexivity.
  - inversion Hd; subst. simpl. rewrite digit_value_digit by assumption.
    apply IH; auto.
Qed.

Lemma lstrip_id (s : str) :
  Forall (fun c => Py.isspace c = false) s -> Py.lstrip s = s.
Proof.
  intros H. destruct s as [|c s]; [reflexivity|].
  inversion H; subst. simpl. now rewrite H2.
Qed.

Lemma strip_id (s : str) :
  Forall (fun c => Py.isspace c = false) s -> Py.strip s = s.
Proof.
  intros H. unfold Py.strip. rewrite (lstrip_id s H).
  rewrite lstrip_id by (apply Forall_rev, H). apply rev_involutive.
Qed.

Lemma digits_not_space (ds : list ascii) :
  Forall is_digit ds -> Forall (fun c => Py.isspace c = false) ds.
Proof.
  intros H. eapply Forall_impl; [|exact H]. apply digit_not_space.
Qed.

Lemma digit_not_sign (c : ascii) :
  is_digit c -> Ascii.eqb c "-"%char = false /\ Ascii.eqb c "+"%char = false.
Proof.
  intros H. split.
  - destruct (Ascii.eqb_spec c "-"%char); [|reflexivity].
    subst. unfold is_digit in H. cbv in H. lia.
  - destruct (Ascii.eqb_spec c "+"%char); [|reflexivity].
    subst. unfold is_digit in H. cbv in H. lia.
Qed.

Lemma digit_count_digits (ds : list ascii) :
  Forall is_digit ds -> Py.digit_count ds = Z.of_nat (length ds).
Proof.
  intros H. unfold Py.digit_count. f_equal.
  induction H as [|c ds Hc Hd IH]; [reflexivity|].
  cbn [filter]. rewrite (digit_value_digit c Hc). cbn [length]. now rewrite IH.
Qed.

Lemma digit_count_sign (c : ascii) (ds : list ascii) :
  Py.digit_value c = None -> Py.digit_count (c :: ds) = Py.digit_count ds.
Proof. intros H. unfold Py.digit_count. cbn [filter]. now rewrite H. Qed.

(** [int] reads every literal that is not empty as the integer it
    denotes, unless the literal has more digits than the limit. *)
Lemma int_literal (A : str) (a : Z) :
  literal A a -> A <> [] ->
  Py.int A =
  if (Py.int_max_str_digits <? Py.digit_count A)%Z then Raise ValueError
  else Ok a.
Proof.
  intros H HA. unfold Py.int.
  match goal with
  | |- bind ?m _ = _ => assert (E : m = Ok a)
  end.
  { destruct H as [|ds Hne Hd|ds Hne Hd|ds Hne Hd].
    - congruence.
    - rewrite strip_id by (apply digits_not_space, Hd).
      destruct ds as [|c ds]; [congruence|].
      inversion Hd; subst.
      destruct (digit_not_sign c H1) as [E1 E2]. rewrite E1, E2.
      apply digits_fold; auto.
    - rewrite strip_id
        by (constructor; [reflexivity|apply digits_not_space, Hd]).
      cbn [Ascii.eqb Bool.eqb]. apply digits_fold; auto.
    - rewrite strip_id
        by (constructor; [reflexivity|apply digits_not_space, Hd]).
      cbn [Ascii.eqb Bool.eqb].
      rewrite (digits_fold ds 0 false Hd (or_introl Hne)). reflexivity. }
  rewrite E. reflexivity.
Qed.

Lemma int_or_zero (A : str) (a : Z) :
  literal A a ->
  Py.int (Core.or_zero A) =
  if (Py.int_max_str_digits <? Py.digit_count A)%Z then Raise ValueError
  else Ok a.
Proof.
  intros H. destruct A as [|c A].
  - inversion H; subst; [vm_compute; reflexivity|congruence].
  - apply int_literal; [exact H|discriminate].
Qed.

Lemma literal_of_digits (ds : list ascii) (z : Z) :
  ds <> [] -> Forall is_digit ds -> decimal_value ds = z -> literal ds z.
Proof. intros H1 H2 H3. subst. now apply literal_digits. Qed.

Lemma uint_digits (d : Decimal.uint) :
  Forall is_digit (list_ascii_of_string (NilEmpty.string_of_uint d)).
Proof.
  induction d; cbn [NilEmpty.string_of_uint list_ascii_of_string];
    constructor; auto; unfold is_digit; cbv; lia.
Qed.

Lemma uint_fold_acc (d : Decimal.uint) (acc : positive) :
  fold_left (fun acc c => (10 * acc + Z.of_nat (nat_of_ascii c - 48))%Z)
    (list_ascii_of_string (NilEmpty.string_of_uint d)) (Z.pos acc) =
  Z.pos (Pos.of_uint_acc d acc).
Proof.
  revert acc. induction d; intros acc; cbn [NilEmpty.string_of_uint
    list_ascii_of_string fold_left Pos.of_uint_acc]; [reflexivity|..];
    rewrite <- IHd; f_equal;
    match goal with
    | |- context [Z.of_nat ?n] =>
        let v := eval vm_compute in (Z.of_nat n) in
        change (Z.of_nat n) with v
    end; lia.
Qed.

Lemma uint_fold (d : Decimal.uint) :
  decimal_value (list_ascii_of_string (NilEmpty.string_of_uint d)) =
  Z.of_N (Pos.of_uint d).
Proof.
  unfold decimal_value.
  induction d; cbn [NilEmpty.string_of_uint list_ascii_of_string fold_left
                      Pos.of_uint Z.of_N]; [reflexivity|exact IHd|..];
    rewrite <- uint_fold_acc; reflexivity.
Qed.

Lemma pos_digits (p : positive) :
  let ds := list_ascii_of_string (NilEmpty.string_of_uint (Pos.to_uint p)) in
  ds <> [] /\ Forall is_digit ds /\ decimal_value ds = Z.pos p /\
  list_ascii_of_string (NilZero.string_of_uint (Pos.to_uint p)) = ds.
Proof.
  cbv zeta. pose proof (DecimalPos.Unsigned.to_uint_nonnil p) as Hn.
  repeat split.
  - destruct (Pos.to_uint p); try congruence; discriminate.
  - apply uint_digits.
  - rewrite uint_fold, DecimalPos.Unsigned.of_to. reflexivity.
  - unfold NilZero.string_of_uint. destruct (Pos.to_uint p); congruence.
Qed.

(** The decimal text of an integer is a literal that denotes it. *)
Lemma decimal_literal (z : Z) : literal (Py.decimal z) z.
Proof.
  unfold Py.decimal. destruct z as [|p|p]; cbn [Z.to_int].
  - apply literal_of_digits; [discriminate| |reflexivity].
    repeat constructor; unfold is_digit; cbv; lia.
  - destruct (pos_digits p) as (H1 & H2 & H3 & H4).
    cbn [NilZero.string_of_int]. rewrite H4.
    apply literal_of_digits; assumption.
  - destruct (pos_digits p) as (H1 & H2 & H3 & H4).
    cbn [NilZero.string_of_int list_ascii_of_string]. rewrite H4.
    change (Z.neg p) with (- Z.pos p)%Z. rewrite <- H3.
    apply literal_minus; assumption.
Qed.

(** The value of a digit string, read after [acc]. *)
Lemma fold_digits (ds : list ascii) (acc : Z) :
  Forall is_digit ds ->
  let f := fun acc c => (10 * acc + Z.of_nat (nat_of_ascii c - 48))%Z in
  (fold_left f ds acc =
   acc * 10 ^ Z.of_nat (length ds) + fold_left f ds 0)%Z /\
  (0 <= fold_left f ds 0 < 10 ^ Z.of_nat (length ds))%Z.
Proof.
  intros H f. revert acc. induction H as [|c ds Hc Hd IH]; intros acc.
  - cbn [fold_left length]. change (10 ^ Z.of_nat 0)%Z with 1%Z. lia.
  - cbn [fold_left length]. rewrite Nat2Z.inj_succ, Z.pow_succ_r by lia.
    destruct (IH (f acc c)) as [E1 B]. destruct (IH (f 0%Z c)) as [E2 _].
    rewrite E1, E2. clear E1 E2 IH. subst f. cbv beta in *.
    unfold is_digit in Hc.
    set (P := (10 ^ Z.of_nat (length ds))%Z) in *.
    set (F := fold_left _ ds 0%Z) in *.
    assert (Hd' : (0 <= Z.of_nat (nat_of_ascii c - 48) <= 9)%Z) by lia.
    set (d := Z.of_nat (nat_of_ascii c - 48)) in *.
    split; [ring|nia].
Qed.

(** A digit string without a leading zero lies between two powers of
    ten. *)
Lemma digits_magnitude (c : ascii) (ds : list ascii) :
  Forall is_digit (c :: ds) -> nat_of_ascii c <> 48 ->
  (10 ^ Z.of_nat (length ds) <= decimal_value (c :: ds)
   < 10 ^ Z.of_nat (length (c :: ds)))%Z.
Proof.
  intros H Hc. split; [|apply (fold_digits (c :: ds) 0 H)].
  unfold decimal_value. cbn [fold_left]. inversion H; subst.
  destruct (fold_digits ds (10 * 0 + Z.of_nat (nat_of_ascii c - 48)) H3)
    as [E B].
  rewrite E. unfold is_digit in H2.
  set (P := (10 ^ Z.of_nat (length ds))%Z) in *.
  assert (Hd' : (1 <= Z.of_nat (nat_of_ascii c - 48))%Z) by lia.
  nia.
Qed.

(** The decimal text of a positive number has no leading zero. *)
Lemma pos_leading_digit (p : positive) :
  exists c ds,
    list_ascii_of_string (NilEmpty.string_of_uint (Pos.to_uint p)) = c :: ds /\
    nat_of_ascii c <> 48.
Proof.
  set (d := Pos.to_uint p).
  assert (Hu : unorm d = d).
  { rewrite <- (DecimalPos.Unsigned.to_of d). unfold d.
    rewrite DecimalPos.Unsigned.of_to. reflexivity. }
  assert (Hz : unorm d <> zero).
  { rewrite Hu. intros C.
    pose proof (DecimalPos.Unsigned.of_to p) as O. fold d in O.
    rewrite C in O. discriminate. }
  assert (Hn : nzhead d <> Nil).
  { intros C. apply Hz. now apply unorm_0. }
  pose proof (unorm_nzhead d Hn) as E. rewrite Hu in E.
  pose proof (nzhead_nonzero d) as N0. rewrite <- E in N0.
  destruct d as [|u|u|u|u|u|u|u|u|u|u];
    [now rewrite <- E in Hn|exfalso; exact (N0 u eq_refl)|..];
    cbn [NilEmpty.string_of_uint list_ascii_of_string];
    eexists; eexists; (split; [reflexivity|cbv; lia]).
Qed.

Lemma pos_magnitude (p : positive) :
  let n := Py.digit_count
             (list_ascii_of_string (NilEmpty.string_of_uint (Pos.to_uint p))) in
  (1 <= n /\ 10 ^ (n - 1) <= Z.pos p < 10 ^ n)%Z.
Proof.
  cbv zeta. destruct (pos_digits p) as (H1 & H2 & H3 & _).
  destruct (pos_leading_digit p) as (c & ds & E & Hc).
  rewrite E in *. rewrite (digit_count_digits _ H2).
  pose proof (digits_magnitude c ds H2 Hc) as M. rewrite H3 in M.
  cbn [length] in *. rewrite Nat2Z.inj_succ in *.
  replace (Z.succ (Z.of_nat (length ds)) - 1)%Z with (Z.of_nat (length ds))
    by lia.
  lia.
Qed.

(** The decimal text of [z] has more than [M] digits exactly when [z] is
    at least [10 ^ M] in magnitude. *)
Lemma decimal_digit_count (z M : Z) :
  (1 <= M)%Z ->
  (M <? Py.digit_count (Py.decimal z))%Z = negb (Z.abs z <? 10 ^ M)%Z.
Proof.
  intros HM.
  assert (G : forall p n, (1 <= n /\ 10 ^ (n - 1) <= Z.pos p < 10 ^ n)%Z ->
                (M <? n)%Z = negb (Z.pos p <? 10 ^ M)%Z).
  { intros p n (Hn & Hlo & Hhi).
    destruct (Z.ltb_spec M n) as [L|L]; destruct (Z.ltb_spec (Z.pos p) (10 ^ M));
      try reflexivity; exfalso.
    - assert (10 ^ M <= 10 ^ (n - 1))%Z by (apply Z.pow_le_mono_r; lia). lia.
    - assert (10 ^ n <= 10 ^ M)%Z by (apply Z.pow_le_mono_r; lia). lia. }
  unfold Py.decimal. destruct z as [|p|p]; cbn [Z.to_int Z.abs].
  - change (Py.digit_count _) with 1%Z.
    destruct (Z.ltb_spec M 1); [lia|].
    destruct (Z.ltb_spec 0 (10 ^ M)); [reflexivity|].
    pose proof (Z.pow_pos_nonneg 10 M). lia.
  - destruct (pos_digits p) as (_ & _ & _ & H4).
    cbn [NilZero.string_of_int]. rewrite H4.
    apply G, pos_magnitude.
  - destruct (pos_digits p) as (_ & _ & _ & H4).
    cbn [NilZero.string_of_int list_ascii_of_string]. rewrite H4.
    rewrite digit_count_sign by reflexivity.
    apply G, pos_magnitude.
Qed.

(** [str] writes an integer below [10 ^ 4300] in magnitude as its decimal
    text and raises on the others. *)
Lemma str_of_int_eq (z : Z) :
  Py.str_of_int z =
  if (Z.abs z <? 10 ^ Py.int_max_str_digits)%Z then Ok (Py.decimal z)
  else Raise ValueError.
Proof.
  unfold Py.str_of_int. rewrite decimal_digit_count by (cbv; discriminate).
  destruct (Z.abs z <? 10 ^ Py.int_max_str_digits)%Z; reflexivity.
Qed.

Lemma arith_value (t : TRAC) (op : Z -> Z -> Z) (a b : Z) :
  literal (nth 0 (args t) []) a -> literal (nth 1 (args t) []) b ->
  (x <- _arg t 0 ;;
   a <- Py.int (Core.or_zero x) ;;
   y <- _arg t 1 ;;
   b <- Py.int (Core.or_zero y) ;;
   Py.str_of_int (op a b)) =
  if within_limit (nth 0 (args t) []) (nth 1 (args t) []) (op a b)
  then Ok (Py.decimal (op a b)) else Raise ValueError.
Proof.
  intros Ha Hb. rewrite !arg_nth. cbn [bind]. unfold within_limit.
  rewrite (int_or_zero _ a Ha). rewrite (Z.leb_antisym _ (Py.digit_count (nth 0 (args t) []))).
  destruct (Py.int_max_str_digits <? Py.digit_count (nth 0 (args t) []))%Z;
    cbn [bind negb andb]; [reflexivity|].
  rewrite (int_or_zero _ b Hb). rewrite (Z.leb_antisym _ (Py.digit_count (nth 1 (args t) []))).
  destruct (Py.int_max_str_digits <? Py.digit_count (nth 1 (args t) []))%Z;
    cbn [bind negb andb]; [reflexivity|].
  apply str_of_int_eq.
Qed.

(** C6, as the specification words it, fails beyond the limit of the
    conversions: [ad] of a literal of 4301 digits and nothing returns the
    empty string, which does not denote the sum, and [ml] of two literals
    of 2201 digits, whose product has 4401 digits, returns the empty
    string too. *)
Lemma arithmetic_not_exact_beyond_limit :
  ~ (forall t argv a b,
       literal (nth 0 argv []) a -> literal (nth 1 argv []) b ->
       literal (fst (evaluate (chars "ad") (set_args t argv))) (a + b)) /\
  fst (evaluate (chars "ml")
         (set_args init ["1"%char :: repeat "0"%char 2200;
                         "1"%char :: repeat "0"%char 2200])) = [].
Proof.
  split; [|vm_compute; reflexivity].
  intros H.
  set (A := repeat "1"%char 4301).
  assert (HA : literal A (decimal_value A)).
  { apply literal_digits; [discriminate|].
    apply Forall_forall. intros c Hc. apply repeat_spec in Hc. subst c.
    unfold is_digit. cbv. lia. }
  specialize (H init [A] (decimal_value A) 0%Z HA literal_empty).
  assert (E : fst (evaluate (chars "ad") (set_args init [A])) = [])
    by (vm_compute; reflexivity).
  rewrite E in H.
  assert (P : (0 <? decimal_value A + 0)%Z = true) by (vm_compute; reflexivity).
  apply Z.ltb_lt in P.
  remember (decimal_value A + 0)%Z as z eqn:Hz. clear Hz HA E.
  inversion H as [Hz|ds Hne Hd Hds|ds Hne Hd Hds|ds Hne Hd Hds].
  - lia.
  - subst ds. congruence.
Qed.

(** C6, as the code has it.  When the first two arguments [A] and [B] of a
    call of [ad], [su] or [ml] are signed integer literals that denote [a]
    and [b] (an argument that is empty or missing counts as 0), the call
    returns the decimal text of the exact integer [a + b], [a - b],
    [a * b], a literal that denotes it, as long as [A] and [B] have at most
    4300 digits each and the result is below [10 ^ 4300] in magnitude (has
    at most 4300 digits); otherwise it returns the empty string.  The
    three records of the demonstration that define [Factorial], followed by
    the call at 50, return the 65 digits of 50!. *)
Theorem arithmetic_exact (t : TRAC) (argv : list str) (a b : Z) :
  literal (nth 0 argv []) a -> literal (nth 1 argv []) b ->
  let t' := set_args t argv in
  let A := nth 0 argv [] in
  let B := nth 1 argv [] in
  evaluate (chars "ad") t' =
  (if within_limit A B (a + b) then Py.decimal (a + b) else [], t') /\
  evaluate (chars "su") t' =
  (if within_limit A B (a - b) then Py.decimal (a - b) else [], t') /\
  evaluate (chars "ml") t' =
  (if within_limit A B (a * b) then Py.decimal (a * b) else [], t') /\
  literal (Py.decimal (a + b)) (a + b) /\
  literal (Py.decimal (a - b)) (a - b) /\
  literal (Py.decimal (a * b)) (a * b) /\
  execute 60 init fact = Some (Ok ([], after_fact)) /\
  execute 20 after_fact fact_ss = Some (Ok ([], after_fact_ss)) /\
  execute 4000 after_fact_ss fact_50 =
  Some (Ok (chars "30414093201713378043612608166064768844377641568960512000000000000",
            after_fact_50)).
Proof.
  intros Ha Hb t' A B.
  assert (Ha' : literal (nth 0 (args t') []) a) by exact Ha.
  assert (Hb' : literal (nth 1 (args t') []) b) by exact Hb.
  change A with (nth 0 (args t') []). change B with (nth 1 (args t') []).
  split; [|split; [|split]].
  - rewrite (evaluate_known (chars "ad") Core.ad) by reflexivity.
    unfold Core.ad. rewrite (arith_value t' Z.add a b Ha' Hb').
    destruct (within_limit _ _ _); reflexivity.
  - rewrite (evaluate_known (chars "su") Core.su) by reflexivity.
    unfold Core.su. rewrite (arith_value t' Z.sub a b Ha' Hb').
    destruct (within_limit _ _ _); reflexivity.
  - rewrite (evaluate_known (chars "ml") Core.ml) by reflexivity.
    unfold Core.ml. rewrite (arith_value t' Z.mul a b Ha' Hb').
    destruct (within_limit _ _ _); reflexivity.
  - repeat (split; [apply decimal_literal|]).
    split; [vm_compute; reflexivity|].
    split; vm_compute; reflexivity.
Qed.

Lemma arithmetic_exact_witness :
  evaluate (chars "ml") (set_args init [chars "-12"; chars "+007"]) =
  (chars "-84", set_args init [chars "-12"; chars "+007"]).
Proof.
  assert (H1 : literal (nth 0 [chars "-12"; chars "+007"] []) (-12)).
  { apply (literal_minus (chars "12")); [discriminate|].
    repeat constructor; unfold is_digit; cbv; lia. }
  assert (H2 : literal (nth 1 [chars "-12"; chars "+007"] []) 7).
  { apply (literal_plus (chars "007")); [discriminate|].
    repeat constructor; unfold is_digit; cbv; lia. }
  pose proof (arithmetic_exact init [chars "-12"; chars "+007"] (-12) 7 H1 H2)
    as H.
  cbv zeta in H. destruct H as (_ & _ & H & _).
  rewrite H. vm_compute. reflexivity.
Defined.

Lemma call_end_state_reachable :
  reachable (mkTRAC [] (chars ")x") (chars "ad12") 0
               [mkFrame 0 active_mode [(0, 2); (2, 3)] 3] []
               (chars "#(ad,1,2)x" ++ ["010"%char])).
Proof.
  apply (continues_reachable 7 _ _ (reachable_start init (chars "#(ad,1,2)x"))).
  vm_compute. reflexivity.
Qed.

Lemma call_end_delivers_witness :
  loop_body (mkTRAC [] (chars ")x") (chars "ad12") 0
               [mkFrame 0 active_mode [(0, 2); (2, 3)] 3] []
               (chars "#(ad,1,2)x" ++ ["010"%char])) =
  Ok (Continue, mkTRAC [] (chars "3x") [] 0 [] []
                  (chars "#(ad,1,2)x" ++ ["010"%char])).
Proof.
  exact (proj2 (proj2
    (call_end_delivers _ (chars "x") []
       (mkFrame 0 active_mode [(0, 2); (2, 3)] 3)
       call_end_state_reachable eq_refl eq_refl))).
Defined.

(** * Runs that end and runs that do not *)

Lemma loop_none (k fuel : nat) (t t' : TRAC) :
  continues k t = Some t' -> fuel <= k -> loop fuel t = None.
Proof.
  revert fuel t. induction k as [|k IH]; intros fuel t H Hf.
  - assert (fuel = 0) by lia. subst. reflexivity.
  - destruct fuel as [|fuel]; [reflexivity|]. simpl in *.
    destruct (loop_body t) as [[[|] u]|]; try discriminate.
    apply IH; [exact H|lia].
Qed.

(** A state that comes back after [k > 0] iterations is never left. *)
Lemma cycle_diverges (k : nat) (t : TRAC) :
  0 < k -> continues k t = Some t -> forall fuel, loop fuel t = None.
Proof.
  intros Hk H fuel. induction fuel as [fuel IH] using lt_wf_ind.
  destruct (Nat.le_gt_cases fuel k) as [Hle|Hgt].
  - eapply loop_none; eauto.
  - replace fuel with (k + (fuel - k)) by lia.
    rewrite (loop_continues k (fuel - k) t t H). apply IH. lia.
Qed.

Lemma diverges_after (k0 k : nat) (t0 t : TRAC) :
  continues k0 t0 = Some t -> 0 < k -> continues k t = Some t ->
  forall fuel, loop fuel t0 = None.
Proof.
  intros H0 Hk H fuel.
  destruct (Nat.le_gt_cases fuel k0) as [Hle|Hgt].
  - eapply loop_none; eauto.
  - replace fuel with (k0 + (fuel - k0)) by lia.
    rewrite (loop_continues k0 (fuel - k0) t0 t H0).
    eapply cycle_diverges; eauto.
Qed.

Lemma consume_loop_suffix (rest : list ascii) (depth : Z) (ntl : list ascii) :
  exists pre, rest = pre ++ snd (fst (consume_loop rest depth ntl)).
Proof.
  revert depth ntl. induction rest as [|ch rest IH]; intros depth ntl; simpl.
  - exists []. reflexivity.
  - destruct (Ascii.eqb ch "("%char).
    { destruct (IH (depth + 1)%Z (ntl ++ [ch])) as [pre Hp].
      exists (ch :: pre). simpl. now rewrite <- Hp. }
    destruct (Ascii.eqb ch ")"%char).
    { destruct (depth - 1 =? 0)%Z.
      - exists [ch]. reflexivity.
      - destruct (IH (depth - 1)%Z (ntl ++ [ch])) as [pre Hp].
        exists (ch :: pre). simpl. now rewrite <- Hp. }
    destruct (IH depth (ntl ++ [ch])) as [pre Hp].
    exists (ch :: pre). simpl. now rewrite <- Hp.
Qed.

(** The scanner at the character [c] of a state between two iterations. *)
Lemma loop_body_head (t : TRAC) (c : ascii) (rest : list ascii) :
  scan t = 0 -> active t = c :: rest ->
  loop_body t =
  if char_in c _skip_chars then Ok (Continue, set_active t rest)
  else if Ascii.eqb c "("%char then
    r <- _consume_balanced_parentheses_into_neutral t ;;
    if negb (fst r) then Ok (Break, _clear_processor (snd r))
    else Ok (Continue, snd r)
  else if Ascii.eqb c ","%char then
    t <- _mark_argument_boundary (set_active t rest) ;; Ok (Continue, t)
  else if Ascii.eqb c "#"%char then
    p1 <- _peek t ["("%char] ;;
    if p1 then
      t <- _delete_active_char (set_active t rest) ;;
      Ok (Continue, _begin_function t active_mode)
    else
      p2 <- _peek t ["#"%char; "("%char] ;;
      if p2 then
        t <- _delete_active_char (set_active t rest) ;;
        t <- _delete_active_char t ;;
        Ok (Continue, _begin_function t neutral_mode)
      else
        Ok (Continue, set_active (set_neutral t (neutral t ++ [c])) rest)
  else if Ascii.eqb c ")"%char then
    t <- _end_function_and_evaluate (set_active t rest) ;; Ok (Continue, t)
  else Ok (Continue, set_active (set_neutral t (neutral t ++ [c])) rest).
Proof.
  intros Hs Ha. unfold loop_body. rewrite Hs, Ha.
  cbn [length Nat.leb Py.index nth_error bind].
  rewrite (delete_active_char_head t c rest Hs Ha).
  rewrite (move_active_char_head t c rest Hs Ha).
  cbn [bind]. reflexivity.
Qed.

Lemma call_free_step (t t' : TRAC) (fl : flow) :
  scan t = 0 -> frames t = [] -> ~ In "#"%char (active t) ->
  loop_body t = Ok (fl, t') ->
  scan t' = 0 /\ frames t' = [] /\ ~ In "#"%char (active t') /\
  (fl = Continue -> length (active t') < length (active t)).
Proof.
  intros Hs Hf Hn H.
  destruct (active t) as [|c rest] eqn:Ha.
  { unfold loop_body in H. rewrite Ha, Hs in H. simpl in H.
    inversion H; subst. rewrite Ha. repeat split; auto. discriminate. }
  rewrite (loop_body_head t c rest Hs Ha) in H.
  assert (Hr : ~ In "#"%char rest) by (intros C; apply Hn; now right).
  destruct (char_in c _skip_chars).
  { inversion H; subst. simpl. repeat split; auto. }
  destruct (Ascii.eqb_spec c "("%char) as [Ec|Ec].
  { subst c.
    rewrite (consume_eq t rest Hs Ha) in H. cbv zeta in H. cbn [bind fst snd] in H.
    destruct (consume_loop_suffix rest 1 (neutral t)) as [pre Hp].
    destruct (consume_loop rest 1 (neutral t)) as [[found r] n].
    cbn [fst snd] in *. subst rest.
    destruct (negb found); inversion H; subst; simpl; repeat split; auto;
      try lia; try discriminate.
    - intros C. apply Hr. apply in_or_app. now right.
    - intros _. rewrite length_app. lia. }
  destruct (Ascii.eqb c ","%char).
  { unfold _mark_argument_boundary in H. cbn [frames set_active] in H.
    rewrite Hf in H. cbn [bind] in H. inversion H; subst. simpl.
    repeat split; auto. }
  destruct (Ascii.eqb_spec c "#"%char) as [E|E].
  { subst. exfalso. apply Hn. now left. }
  destruct (Ascii.eqb c ")"%char).
  { unfold _end_function_and_evaluate in H. cbn [frames set_active] in H.
    rewrite Hf in H. cbn [bind] in H. inversion H; subst. simpl.
    repeat split; auto. intros _. lia. }
  inversion H; subst. simpl. repeat split; auto.
Qed.

Lemma call_free_terminates (n : nat) (t : TRAC) :
  scan t = 0 -> frames t = [] -> ~ In "#"%char (active t) ->
  length (active t) < n -> exists t', loop n t = Some (Ok t').
Proof.
  revert t. induction n as [|n IH]; intros t Hs Hf Hn Hl; [lia|].
  simpl. destruct (loop_body_total t) as [[fl u] Hu]. rewrite Hu.
  destruct (call_free_step t u fl Hs Hf Hn Hu) as (H1 & H2 & H3 & H4).
  destruct fl; [|eauto].
  apply IH; auto. specialize (H4 eq_refl). lia.
Qed.

Lemma loop_never_raises (fuel : nat) (t : TRAC) (e : exn) :
  loop fuel t <> Some (Raise e).
Proof.
  revert t. induction fuel as [|fuel IH]; intros t; simpl; [discriminate|].
  destruct (loop_body_total t) as [[fl u] Hu]. rewrite Hu.
  destruct fl; [apply IH|discriminate].
Qed.

Lemma dd_loop_unknown (range : list nat) (t : TRAC) :
  (forall n, In n (args t) -> Py.get str_eqb (forms t) n = None) ->
  Forall (fun i => i < length (args t)) range ->
  Core.dd_loop range t = (Ok tt, t).
Proof.
  intros Hu. induction range as [|i r IH]; intros Hr; [reflexivity|].
  inversion Hr; subst. simpl. rewrite arg_nth.
  unfold Py.mem. rewrite Hu by (apply nth_In; assumption). apply IH. assumption.
Qed.

Lemma seq_below (n : nat) : Forall (fun i => i < n) (seq 0 n).
Proof. apply Forall_forall. intros i Hi. apply in_seq in Hi. lia. Qed.

Lemma forever_diverges (fuel : nat) : execute fuel init forever = None.
Proof.
  unfold execute.
  rewrite (diverges_after 8 6
             (_reset_processor_with (print init forever ["010"%char]) forever)
             (mkTRAC [(chars "L", [Text (chars "#(cl,L)")])] (chars "#(cl,L)")
                [] 0 [] [] (forever ++ ["010"%char])));
    [reflexivity|vm_compute; reflexivity|lia|vm_compute; reflexivity].
Qed.

(** C4, as the specification words it, fails twice: [execute] does not
    return on the call of a form that calls itself, and the call [ad] with
    the single argument [5], its second argument missing, returns [5]. *)
Lemma silent_empty_as_stated_fails :
  ~ (forall t0 s, exists fuel v t', execute fuel t0 s = Some (Ok (v, t'))) /\
  ~ (forall t, length (args t) < 2 -> fst (evaluate (chars "ad") t) = []).
Proof.
  split.
  - intros H. destruct (H init forever) as (fuel & v & t' & E).
    rewrite forever_diverges in E. discriminate.
  - intros H. specialize (H (set_args init [chars "5"]) ltac:(simpl; lia)).
    vm_compute in H. discriminate.
Qed.

(** C4, as the code has it.  [execute] never raises, and it returns a
    string on every source without ['#'].  The result of a call is the
    empty string, with the interpreter left as it was, for an unknown
    primitive, for an argument of [ad], [su] or [ml] that [int] rejects, for
    [cl] and [ss] of an unknown form, for [dd] of unknown forms only and for
    [ds] with an empty name; it is the empty string whenever the handler
    raises.  A missing argument is read as the empty string.  After the
    [')'] of a call the scan loop continues. *)
Theorem local_faults_are_silent :
  (forall fuel t0 s e, execute fuel t0 s <> Some (Raise e)) /\
  (forall t0 s, ~ In "#"%char s ->
     exists v t', execute (S (length s)) t0 s = Some (Ok (v, t'))) /\
  (forall name t, Py.get str_eqb builtins name = None ->
     evaluate name t = ([], t)) /\
  (forall name h t e, Py.get str_eqb builtins name = Some h ->
     fst (h t) = Raise e -> evaluate name t = ([], snd (h t))) /\
  (forall name t e, In name [chars "ad"; chars "su"; chars "ml"] ->
     Py.int (Core.or_zero (nth 0 (args t) [])) = Raise e \/
     Py.int (Core.or_zero (nth 1 (args t) [])) = Raise e ->
     evaluate name t = ([], t)) /\
  (forall name t, In name [chars "cl"; chars "ss"] ->
     Py.get str_eqb (forms t) (nth 0 (args t) []) = None ->
     evaluate name t = ([], t)) /\
  (forall t, (forall n, In n (args t) -> Py.get str_eqb (forms t) n = None) ->
     evaluate (chars "dd") t = ([], t)) /\
  (forall t, nth 0 (args t) [] = [] -> evaluate (chars "ds") t = ([], t)) /\
  (forall t i, length (args t) <= i -> _arg t i = Ok []) /\
  (forall t rest, reachable t -> active t = ")"%char :: rest ->
     frames t <> [] -> exists t', loop_body t = Ok (Continue, t')).
Proof.
  repeat apply conj.
  - intros fuel t0 s e. unfold execute.
    destruct (loop fuel _) as [[u|e']|] eqn:E; try discriminate.
    exfalso. exact (loop_never_raises _ _ _ E).
  - intros t0 s Hs. unfold execute.
    destruct (call_free_terminates (S (length s))
                (_reset_processor_with (print t0 s ["010"%char]) s))
      as [t' Ht']; auto.
    rewrite Ht'. eauto.
  - intros name t H. apply evaluate_unknown, H.
  - intros name h t e H He. rewrite (evaluate_known name h t H).
    destruct (h t) as [[v|e'] t']; simpl in *; [discriminate|reflexivity].
  - intros name t e Hn He.
    assert (G : forall op : Z -> Z -> Z, exists e',
              (x <- _arg t 0 ;;
               a <- Py.int (Core.or_zero x) ;;
               y <- _arg t 1 ;;
               b <- Py.int (Core.or_zero y) ;;
               Py.str_of_int (op a b)) = Raise e').
    { intros op. rewrite !arg_nth. cbn [bind].
      destruct (Py.int (Core.or_zero (nth 0 (args t) []))) as [a|e1] eqn:E1;
        cbn [bind]; [|eexists; reflexivity].
      destruct He as [He|He]; [discriminate|]. rewrite He.
      eexists; reflexivity. }
    destruct Hn as [Hn|[Hn|[Hn|[]]]]; subst name.
    + rewrite (evaluate_known (chars "ad") Core.ad) by reflexivity.
      unfold Core.ad. destruct (G Z.add) as [e' Ge]. now rewrite Ge.
    + rewrite (evaluate_known (chars "su") Core.su) by reflexivity.
      unfold Core.su. destruct (G Z.sub) as [e' Ge]. now rewrite Ge.
    + rewrite (evaluate_known (chars "ml") Core.ml) by reflexivity.
      unfold Core.ml. destruct (G Z.mul) as [e' Ge]. now rewrite Ge.
  - intros name t Hn Hu. destruct Hn as [Hn|[Hn|[]]]; subst name.
    + rewrite (evaluate_known (chars "cl") Core.cl) by reflexivity.
      unfold Core.cl. rewrite arg_nth. cbn [bind]. unfold Py.mem.
      rewrite Hu. reflexivity.
    + rewrite (evaluate_known (chars "ss") Core.ss) by reflexivity.
      unfold Core.ss. rewrite arg_nth. unfold Py.mem.
      rewrite Hu. reflexivity.
  - intros t Hu.
    rewrite (evaluate_known (chars "dd") Core.dd) by reflexivity.
    unfold Core.dd. rewrite (dd_loop_unknown _ t Hu (seq_below _)). reflexivity.
  - intros t Hn.
    rewrite (evaluate_known (chars "ds") Core.ds) by reflexivity.
    unfold Core.ds. rewrite !arg_nth. cbn [bind]. rewrite Hn. reflexivity.
  - intros t i Hi. rewrite arg_nth. now rewrite nth_overflow.
  - intros t rest R Ha Hf.
    destruct (reachable_inv t R) as (Hs & _).
    rewrite (loop_body_head t _ rest Hs Ha).
    change (char_in ")"%char _skip_chars) with false.
    cbn [Ascii.eqb Bool.eqb].
    destruct (end_function_total (set_active t rest)) as [t' Ht'].
    rewrite Ht'. cbn [bind]. eauto.
Qed.

Lemma local_faults_are_silent_witness :
  evaluate (chars "ml") (set_args init [chars "x"; chars "2"]) =
  ([], set_args init [chars "x"; chars "2"]) /\
  evaluate (chars "cl") (set_args init [chars "N"]) =
  ([], set_args init [chars "N"]) /\
  evaluate (chars "zz") (set_args init [chars "N"]) =
  ([], set_args init [chars "N"]).
Proof.
  destruct local_faults_are_silent as (_ & _ & H3 & _ & H5 & H6 & _).
  split; [|split].
  - apply (H5 (chars "ml") (set_args init [chars "x"; chars "2"]) ValueError).
    + simpl. tauto.
    + left. reflexivity.
  - apply (H6 (chars "cl") (set_args init [chars "N"])).
    + simpl. tauto.
    + reflexivity.
  - apply (H3 (chars "zz") (set_args init [chars "N"])). reflexivity.
Defined.

(** * Scanning text *)

Lemma continues_app (a b : nat) (t u v : TRAC) :
  continues a t = Some u -> continues b u = Some v ->
  continues (a + b) t = Some v.
Proof.
  revert t. induction a as [|a IH]; intros t H1 H2; simpl in *.
  - inversion H1; subst. exact H2.
  - destruct (loop_body t) as [[[|] w]|]; try discriminate. eauto.
Qed.

Lemma scans_over_app (k1 k2 : nat) (P1 P2 : list ascii) (t u v : TRAC) :
  scans_over k1 P1 t u -> scans_over k2 P2 u v ->
  scans_over (k1 + k2) (P1 ++ P2) t v.
Proof.
  intros [_ H1] [Hv H2]. split; [exact Hv|]. intros tail.
  rewrite <- app_assoc.
  eapply continues_app; [apply H1|].
  exact (H2 tail).
Qed.

Lemma special_inv (c : ascii) :
  char_in c special = false ->
  char_in c _skip_chars = false /\ Ascii.eqb c "("%char = false /\
  Ascii.eqb c ")"%char = false /\ Ascii.eqb c ","%char = false /\
  Ascii.eqb c "#"%char = false.
Proof.
  unfold special, _skip_chars, char_in. cbn [existsb]. intros H.
  repeat match goal with
         | H : _ || _ = false |- _ => apply orb_false_elim in H; destruct H
         end.
  repeat split; auto.
  repeat (apply orb_false_intro; auto).
Qed.

Lemma scans_over_char (t : TRAC) (c : ascii) :
  scan t = 0 -> char_in c special = false ->
  scans_over 1 [c] t (set_neutral t (neutral t ++ [c])).
Proof.
  intros Hs Hc. split; [exact Hs|]. intros tail. cbn [continues app].
  rewrite (loop_body_head _ c tail) by (auto; reflexivity).
  destruct (special_inv c Hc) as (H1 & H2 & H3 & H4 & H5).
  rewrite H1, H2, H3, H4, H5. reflexivity.
Qed.

Lemma scans_over_nil (t : TRAC) : scan t = 0 -> scans_over 0 [] t t.
Proof.
  intros Hs. split; [exact Hs|]. intros tail. simpl.
  destruct t; reflexivity.
Qed.

Lemma scans_over_plain (P : list ascii) (t : TRAC) :
  scan t = 0 -> plain P = true ->
  scans_over (length P) P t (set_neutral t (neutral t ++ P)).
Proof.
  revert t. induction P as [|c P IH]; intros t Hs Hp.
  - rewrite app_nil_r.
    replace (set_neutral t (neutral t)) with t by (destruct t; reflexivity).
    now apply scans_over_nil.
  - simpl in Hp. apply andb_prop in Hp. destruct Hp as [Hc Hp].
    apply negb_true_iff in Hc.
    pose proof (scans_over_char t c Hs Hc) as S1.
    pose proof (IH (set_neutral t (neutral t ++ [c])) Hs Hp) as S2.
    pose proof (scans_over_app _ _ _ _ _ _ _ S1 S2) as S3.
    cbn [neutral set_neutral] in S3. rewrite <- app_assoc in S3.
    exact S3.
Qed.

Lemma mark_set_active (t u : TRAC) (a : list ascii) :
  _mark_argument_boundary t = Ok u ->
  _mark_argument_boundary (set_active t a) = Ok (set_active u a).
Proof.
  unfold _mark_argument_boundary. cbn [frames set_active neutral].
  destruct (frames t) as [|f fs].
  - intros H. inversion H. reflexivity.
  - destruct (Py.pop (f :: fs)) as [p|e]; cbn [bind]; [|discriminate].
    intros H. inversion H. reflexivity.
Qed.

Lemma scans_over_comma (t : TRAC) :
  scan t = 0 -> exists u, scans_over 1 [","%char] t u.
Proof.
  intros Hs.
  destruct (mark_argument_boundary_total t) as [fs [Hfs _]].
  exists (set_frames t fs). split; [exact Hs|]. intros tail.
  cbn [continues app].
  rewrite (loop_body_head _ ","%char tail) by (auto; reflexivity).
  change (char_in ","%char _skip_chars) with false.
  cbn [Ascii.eqb Bool.eqb].
  replace (set_active (set_active t (","%char :: tail)) tail)
    with (set_active t tail) by reflexivity.
  rewrite (mark_set_active t _ tail Hfs). reflexivity.
Qed.

Lemma scans_over_open (t : TRAC) :
  scan t = 0 ->
  scans_over 1 ["#"%char; "("%char] t (_begin_function t active_mode).
Proof.
  intros Hs. split; [exact Hs|]. intros tail. cbn [continues app].
  rewrite (loop_body_head _ "#"%char ("("%char :: tail)) by (auto; reflexivity).
  change (char_in "#"%char _skip_chars) with false.
  cbn [Ascii.eqb Bool.eqb].
  unfold _peek. cbn [scan set_active active length]. rewrite Hs.
  cbn [Nat.add Nat.sub Nat.leb all_expected Py.index nth_error bind
         Ascii.eqb Bool.eqb].
  rewrite (delete_active_char_head _ "("%char tail) by (auto; reflexivity).
  cbn [bind]. reflexivity.
Qed.

Lemma quotable_inv (c : ascii) (X : list ascii) :
  quotable (c :: X) = true ->
  Ascii.eqb c "("%char = false /\ Ascii.eqb c ")"%char = false /\
  (c = "#"%char \/ char_in c special = false) /\ quotable X = true.
Proof.
  intros H. unfold quotable in H. cbn [forallb] in H.
  apply andb_prop in H. destruct H as [Hc HX]. fold (quotable X) in HX.
  apply orb_prop in Hc. destruct Hc as [Hc|Hc].
  - apply Ascii.eqb_eq in Hc. subst. repeat split; auto.
  - apply negb_true_iff in Hc.
    destruct (special_inv c Hc) as (H1 & H2 & H3 & H4 & H5).
    repeat split; auto.
Qed.

Lemma consume_loop_quotable (X r n : list ascii) :
  quotable X = true ->
  consume_loop (X ++ ")"%char :: r) 1 n = (true, r, n ++ X).
Proof.
  revert n. induction X as [|c X IH]; intros n H.
  - simpl. now rewrite app_nil_r.
  - destruct (quotable_inv c X H) as (H1 & H2 & _ & HX).
    cbn [app consume_loop]. rewrite H1, H2, IH by exact HX.
    now rewrite <- app_assoc.
Qed.

(** One iteration takes the scanner over [(X)]. *)
Lemma scans_over_quoted (t : TRAC) (X : list ascii) :
  scan t = 0 -> quotable X = true ->
  scans_over 1 ("("%char :: X ++ [")"%char]) t
    (set_neutral t (neutral t ++ X)).
Proof.
  intros Hs HX. split; [exact Hs|]. intros tail. cbn [continues].
  rewrite <- app_comm_cons, <- app_assoc. cbn [app].
  rewrite (loop_body_head _ "("%char (X ++ ")"%char :: tail))
    by (auto; reflexivity).
  change (char_in "("%char _skip_chars) with false.
  cbn [Ascii.eqb Bool.eqb].
  rewrite (consume_eq _ (X ++ ")"%char :: tail)) by (auto; reflexivity).
  cbv zeta. cbn [neutral set_active].
  rewrite consume_loop_quotable by exact HX. reflexivity.
Qed.

Lemma peek_not_open (t : TRAC) (tail : list ascii) :
  scan t = 0 -> active t = "#"%char :: tail ->
  (forall z, nth_error tail 0 = Some z -> Ascii.eqb z "("%char = false) ->
  (forall z, nth_error tail 0 = Some "#"%char -> nth_error tail 1 = Some z ->
             Ascii.eqb z "("%char = false) ->
  _peek t ["("%char] = Ok false /\ _peek t ["#"%char; "("%char] = Ok false.
Proof.
  intros Hs Ha H1 H2. unfold _peek. rewrite Hs, Ha.
  destruct tail as [|y tail]; [split; reflexivity|].
  specialize (H1 y eq_refl).
  cbn [length Nat.add Nat.sub Nat.leb all_expected Py.index nth_error bind].
  rewrite H1. split; [reflexivity|].
  destruct tail as [|z tail]; [reflexivity|].
  cbn [length Nat.add Nat.sub Nat.leb all_expected Py.index nth_error bind].
  destruct (Ascii.eqb_spec y "#"%char) as [E|E]; [|reflexivity].
  subst y. rewrite (H2 z eq_refl eq_refl). reflexivity.
Qed.

Lemma quotable_then_close (X tail : list ascii) :
  quotable X = true ->
  (forall z, nth_error (X ++ ")"%char :: tail) 0 = Some z ->
             Ascii.eqb z "("%char = false) /\
  (forall z, nth_error (X ++ ")"%char :: tail) 0 = Some "#"%char ->
             nth_error (X ++ ")"%char :: tail) 1 = Some z ->
             Ascii.eqb z "("%char = false).
Proof.
  intros HX. destruct X as [|y X].
  - split; simpl.
    + intros z H. inversion H; subst. reflexivity.
    + intros z H. discriminate H.
  - destruct (quotable_inv y X HX) as (Hy & _ & _ & HX').
    split; simpl.
    + intros z H. inversion H; subst. exact Hy.
    + intros z _ H. destruct X as [|w X]; simpl in H; inversion H; subst.
      * reflexivity.
      * apply (quotable_inv z X HX').
Qed.

(** [length X] iterations take the scanner over [X] when [')'] follows. *)
Lemma continues_bare (X : list ascii) (t : TRAC) (tail : list ascii) :
  scan t = 0 -> quotable X = true ->
  continues (length X) (set_active t (X ++ ")"%char :: tail)) =
  Some (set_active (set_neutral t (neutral t ++ X)) (")"%char :: tail)).
Proof.
  revert t. induction X as [|c X IH]; intros t Hs HX.
  - simpl. rewrite app_nil_r. destruct t; reflexivity.
  - destruct (quotable_inv c X HX) as (H1 & H2 & H3 & HX').
    cbn [length continues app].
    assert (E : loop_body (set_active t (c :: X ++ ")"%char :: tail)) =
                Ok (Continue,
                    set_active (set_neutral t (neutral t ++ [c]))
                      (X ++ ")"%char :: tail))).
    { rewrite (loop_body_head _ c (X ++ ")"%char :: tail))
        by (auto; reflexivity).
      destruct H3 as [H3|H3].
      - subst c. change (char_in "#"%char _skip_chars) with false.
        cbn [Ascii.eqb Bool.eqb].
        destruct (quotable_then_close X tail HX') as [Q1 Q2].
        destruct (peek_not_open
                    (set_active t ("#"%char :: X ++ ")"%char :: tail))
                    (X ++ ")"%char :: tail) Hs eq_refl Q1 Q2) as [P1 P2].
        rewrite P1. cbn [bind]. rewrite P2. reflexivity.
      - destruct (special_inv c H3) as (S1 & S2 & S3 & S4 & S5).
        rewrite S1, S2, S3, S4, S5. reflexivity. }
    rewrite E.
    rewrite (IH (set_neutral t (neutral t ++ [c])) Hs HX').
    cbn [neutral set_neutral]. rewrite <- app_assoc. reflexivity.
Qed.

(** * What was printed does not matter to the scanner *)

Lemma pb_delete (p : list ascii) (t : TRAC) :
  _delete_active_char (printed_before p t) =
  match _delete_active_char t with
  | Ok u => Ok (printed_before p u)
  | Raise e => Raise e
  end.
Proof.
  rewrite !delete_active_char_eq. cbn [scan active printed_before].
  destruct (scan t <? length (active t)); reflexivity.
Qed.

Lemma pb_move (p : list ascii) (t : TRAC) :
  _move_active_char_to_neutral (printed_before p t) =
  match _move_active_char_to_neutral t with
  | Ok u => Ok (printed_before p u)
  | Raise e => Raise e
  end.
Proof.
  unfold _move_active_char_to_neutral. cbn [scan active printed_before].
  destruct (Py.index (active t) (scan t)) as [c|e]; cbn [bind]; [|reflexivity].
  apply (pb_delete p (set_neutral t (neutral t ++ [c]))).
Qed.

Lemma pb_consume (p : list ascii) (t : TRAC) :
  _consume_balanced_parentheses_into_neutral (printed_before p t) =
  match _consume_balanced_parentheses_into_neutral t with
  | Ok r => Ok (fst r, printed_before p (snd r))
  | Raise e => Raise e
  end.
Proof.
  unfold _consume_balanced_parentheses_into_neutral. rewrite pb_delete.
  destruct (_delete_active_char t) as [u|e]; cbn [bind]; [|reflexivity].
  cbn [scan active neutral printed_before].
  destruct (consume_loop _ _ _) as [[found rest] ntl]. reflexivity.
Qed.

Lemma pb_mark (p : list ascii) (t : TRAC) :
  _mark_argument_boundary (printed_before p t) =
  match _mark_argument_boundary t with
  | Ok u => Ok (printed_before p u)
  | Raise e => Raise e
  end.
Proof.
  unfold _mark_argument_boundary. cbn [frames printed_before].
  destruct (frames t) as [|f fs]; [reflexivity|].
  destruct (Py.pop (f :: fs)); reflexivity.
Qed.

Lemma pb_dd_loop (p : list ascii) (range : list nat) (t : TRAC) :
  Core.dd_loop range (printed_before p t) =
  (fst (Core.dd_loop range t), printed_before p (snd (Core.dd_loop range t))).
Proof.
  revert t. induction range as [|i r IH]; intros t; [reflexivity|].
  cbn [Core.dd_loop].
  change (_arg (printed_before p t) i) with (_arg t i).
  destruct (_arg t i) as [name|e]; [|reflexivity].
  cbn [forms printed_before].
  destruct (Py.mem str_eqb (forms t) name); [|apply IH].
  destruct (Py.delitem str_eqb (forms t) name) as [d|e]; [|reflexivity].
  apply (IH (set_forms t d)).
Qed.

Lemma pb_handler (p : list ascii) (name : str) (h : BuiltIn) (t : TRAC) :
  Py.get str_eqb builtins name = Some h ->
  h (printed_before p t) = (fst (h t), printed_before p (snd (h t))).
Proof.
  intros H. apply builtins_get in H.
  repeat (destruct H as [[_ H]|H]; [subst h|]); try destruct H as [_ H];
    try subst h; try reflexivity.
  - unfold Core.ds. change (_arg (printed_before p t)) with (_arg t).
    destruct (name0 <- _arg t 0;; body <- _arg t 1;; Ok (name0, body))
      as [[n b]|]; [|reflexivity].
    destruct (is_empty n); reflexivity.
  - unfold Core.ss. change (_arg (printed_before p t)) with (_arg t).
    destruct (_arg t 0); [|reflexivity]. cbn [forms printed_before].
    destruct (negb _); [reflexivity|].
    destruct (Py.getitem _ _ _); reflexivity.
  - unfold Core.dd. cbn [args printed_before]. rewrite pb_dd_loop.
    destruct (Core.dd_loop _ t) as [[u|e] t']; reflexivity.
  - unfold Core.ps. change (_arg (printed_before p t)) with (_arg t).
    destruct (_arg t 0); [|reflexivity].
    unfold print, printed_before. cbn. now rewrite !app_assoc.
Qed.

Lemma pb_evaluate (p : list ascii) (name : str) (t : TRAC) :
  evaluate name (printed_before p t) =
  (fst (evaluate name t), printed_before p (snd (evaluate name t))).
Proof.
  unfold evaluate, Py.mem, Py.getitem.
  destruct (Py.get str_eqb builtins name) as [h|] eqn:E; [|reflexivity].
  rewrite (pb_handler p name h t E).
  destruct (h t) as [[v|e] t']; reflexivity.
Qed.

Lemma pb_end (p : list ascii) (t : TRAC) :
  _end_function_and_evaluate (printed_before p t) =
  match _end_function_and_evaluate t with
  | Ok u => Ok (printed_before p u)
  | Raise e => Raise e
  end.
Proof.
  unfold _end_function_and_evaluate. cbn [frames printed_before].
  destruct (frames t) as [|f fs]; [reflexivity|].
  destruct (Py.pop (f :: fs)) as [q|e]; cbn [bind]; [|reflexivity].
  cbn [neutral set_frames printed_before].
  match goal with
  | |- context [bind ?m _] => destruct m as [name|e]; cbn [bind]; [|reflexivity]
  end.
  match goal with
  | |- context [evaluate name
                  (set_args (set_neutral (set_frames (printed_before p t) ?a) ?b)
                     ?c)] =>
      change (set_args (set_neutral (set_frames (printed_before p t) a) b) c)
        with (printed_before p (set_args (set_neutral (set_frames t a) b) c))
  end.
  rewrite pb_evaluate.
  destruct (evaluate name _) as [value t1]. cbn [fst snd].
  destruct (mode (snd q)); reflexivity.
Qed.

Lemma pb_loop_body (p : list ascii) (t : TRAC) :
  loop_body (printed_before p t) =
  match loop_body t with
  | Ok (fl, u) => Ok (fl, printed_before p u)
  | Raise e => Raise e
  end.
Proof.
  unfold loop_body. cbn [active scan printed_before].
  change (_peek (printed_before p t)) with (_peek t).
  destruct (length (active t) <=? scan t); [reflexivity|].
  destruct (Py.index (active t) (scan t)) as [ch|e]; cbn [bind]; [|reflexivity].
  rewrite pb_move, pb_consume, pb_delete.
  destruct (char_in ch _skip_chars).
  { destruct (_delete_active_char t); reflexivity. }
  destruct (Ascii.eqb ch "("%char).
  { destruct (_consume_balanced_parentheses_into_neutral t) as [r|e];
      cbn [bind fst snd]; [|reflexivity].
    destruct (negb (fst r)); reflexivity. }
  destruct (Ascii.eqb ch ","%char).
  { destruct (_delete_active_char t) as [u|e]; cbn [bind]; [|reflexivity].
    rewrite pb_mark. destruct (_mark_argument_boundary u); reflexivity. }
  destruct (Ascii.eqb ch "#"%char).
  { destruct (_peek t ["("%char]) as [[|]|e]; cbn [bind]; [| |reflexivity].
    - destruct (_delete_active_char t) as [u|e]; cbn [bind]; [|reflexivity].
      rewrite pb_delete.
      destruct (_delete_active_char u); reflexivity.
    - destruct (_peek t ["#"%char; "("%char]) as [[|]|e]; cbn [bind];
        [| |reflexivity].
      + destruct (_delete_active_char t) as [u|e]; cbn [bind]; [|reflexivity].
        rewrite pb_delete.
        destruct (_delete_active_char u) as [v|e]; cbn [bind]; [|reflexivity].
        rewrite pb_delete.
        destruct (_delete_active_char v); reflexivity.
      + destruct (_move_active_char_to_neutral t); reflexivity. }
  destruct (Ascii.eqb ch ")"%char).
  { destruct (_delete_active_char t) as [u|e]; cbn [bind]; [|reflexivity].
    rewrite pb_end. destruct (_end_function_and_evaluate u); reflexivity. }
  destruct (_move_active_char_to_neutral t); reflexivity.
Qed.

Lemma pb_loop (p : list ascii) (fuel : nat) (t : TRAC) :
  loop fuel (printed_before p t) =
  match loop fuel t with
  | Some (Ok u) => Some (Ok (printed_before p u))
  | Some (Raise e) => Some (Raise e)
  | None => None
  end.
Proof.
  revert t. induction fuel as [|fuel IH]; intros t; [reflexivity|].
  cbn [loop]. rewrite pb_loop_body.
  destruct (loop_body t) as [[[|] u]|e]; auto.
Qed.

(** What [execute] returns does not depend on what was printed. *)
Lemma execute_result (fuel : nat) (t0 : TRAC) (s : str) :
  result (execute fuel t0 s) =
  match loop fuel (mkTRAC (forms t0) s [] 0 [] [] []) with
  | Some (Ok u) => Some (Ok (neutral u, forms u))
  | Some (Raise e) => Some (Raise e)
  | None => None
  end.
Proof.
  unfold execute.
  replace (_reset_processor_with (print t0 s ["010"%char]) s)
    with (printed_before (stdout t0 ++ s ++ ["010"%char])
            (mkTRAC (forms t0) s [] 0 [] [] [])).
  - rewrite pb_loop.
    destruct (loop fuel _) as [[u|e]|]; reflexivity.
  - unfold printed_before, _reset_processor_with, print. cbn.
    now rewrite app_nil_r.
Qed.

(** Both ways of writing the call bring the scanner to one state. *)
Lemma cl_quoted_bare (t : TRAC) (N X rest : str) :
  scan t = 0 -> plain N = true -> quotable X = true ->
  exists u,
    continues (6 + length N) (set_active t (cl_quoted N X rest)) = Some u /\
    continues (5 + length N + length X) (set_active t (cl_bare N X rest)) =
    Some u.
Proof.
  intros Hs HN HX.
  pose proof (scans_over_open t Hs) as S1.
  set (t1 := _begin_function t active_mode) in *.
  assert (Hs1 : scan t1 = 0) by exact Hs.
  pose proof (scans_over_plain (chars "cl") t1 Hs1 eq_refl) as S2.
  set (t2 := set_neutral t1 (neutral t1 ++ chars "cl")) in *.
  destruct (scans_over_comma t2 Hs1) as [t3 S3].
  assert (Hs3 : scan t3 = 0) by apply S3.
  pose proof (scans_over_plain N t3 Hs3 HN) as S4.
  set (t4 := set_neutral t3 (neutral t3 ++ N)) in *.
  destruct (scans_over_comma t4 Hs3) as [t5 S5].
  assert (Hs5 : scan t5 = 0) by apply S5.
  pose proof (scans_over_app _ _ _ _ _ _ _ S1
                (scans_over_app _ _ _ _ _ _ _ S2
                   (scans_over_app _ _ _ _ _ _ _ S3
                      (scans_over_app _ _ _ _ _ _ _ S4 S5)))) as [_ P].
  exists (set_active (set_neutral t5 (neutral t5 ++ X)) (")"%char :: rest)).
  split.
  - destruct (scans_over_quoted t5 X Hs5 HX) as [_ Q].
    replace (6 + length N) with ((1 + (length (chars "cl") + (1 + (length N + 1)))) + 1)
      by (simpl; lia).
    eapply continues_app.
    + unfold cl_quoted.
      replace (chars "#(cl," ++ N ++ chars ",(" ++ X ++ chars "))" ++ rest)
        with ((["#"%char; "("%char] ++ chars "cl" ++ [","%char] ++ N ++ [","%char])
                ++ ("("%char :: X ++ [")"%char]) ++ ")"%char :: rest)
        by (cbn; rewrite <- !app_assoc; reflexivity).
      apply P.
    + apply (Q (")"%char :: rest)).
  - replace (5 + length N + length X)
      with ((1 + (length (chars "cl") + (1 + (length N + 1)))) + length X)
      by (simpl; lia).
    eapply continues_app.
    + unfold cl_bare.
      replace (chars "#(cl," ++ N ++ chars "," ++ X ++ chars ")" ++ rest)
        with ((["#"%char; "("%char] ++ chars "cl" ++ [","%char] ++ N ++ [","%char])
                ++ X ++ ")"%char :: rest)
        by (cbn; rewrite <- !app_assoc; reflexivity).
      apply P.
    + apply (continues_bare X t5 rest Hs5 HX).
Qed.

(** C8, as the code has it.  When the name [N] has no character that the
    scanner treats specially and the text [X] has no parenthesis, comma or
    idle character, the sources [#(cl,N,(X))] and [#(cl,N,X)], followed by
    the same text, come to the same state of the scanner after [6 + len(N)]
    and [5 + len(N) + len(X)] iterations; so with the same number of further
    iterations [execute] returns the same string and leaves the same form
    store on both, or has not returned yet on both. *)
Theorem quoting_idempotent_on_plain (t0 : TRAC) (N X rest : str) (fuel : nat) :
  plain N = true -> quotable X = true ->
  result (execute (6 + length N + fuel) t0 (cl_quoted N X rest)) =
  result (execute (5 + length N + length X + fuel) t0 (cl_bare N X rest)).
Proof.
  intros HN HX. rewrite !execute_result.
  destruct (cl_quoted_bare (mkTRAC (forms t0) [] [] 0 [] [] []) N X rest
              eq_refl HN HX) as [u [H1 H2]].
  change (mkTRAC (forms t0) (cl_quoted N X rest) [] 0 [] [] [])
    with (set_active (mkTRAC (forms t0) [] [] 0 [] [] []) (cl_quoted N X rest)).
  change (mkTRAC (forms t0) (cl_bare N X rest) [] 0 [] [] [])
    with (set_active (mkTRAC (forms t0) [] [] 0 [] [] []) (cl_bare N X rest)).
  rewrite (loop_continues _ fuel _ u H1).
  rewrite (loop_continues _ fuel _ u H2).
  reflexivity.
Qed.

Lemma quoting_idempotent_on_plain_witness :
  result (execute 20 after_ds_ss (cl_quoted (chars "N") (chars "a#b") (chars "!"))) =
  result (execute 22 after_ds_ss (cl_bare (chars "N") (chars "a#b") (chars "!"))).
Proof.
  apply (quoting_idempotent_on_plain after_ds_ss (chars "N") (chars "a#b")
           (chars "!") 13); reflexivity.
Defined.

(** C8, as the specification words it, fails: with the form [N] made of one
    segment marker, the text [((a))] has no comma and no ['#'], and
    [#(cl,N,(((a))))] returns [(a)] while [#(cl,N,((a)))] returns [a]. *)
Lemma quoting_not_idempotent :
  ~ (forall t0 N X fuel v1 t1 v2 t2,
       ~ In ","%char X -> ~ In "#"%char X ->
       execute fuel t0 (cl_quoted N X []) = Some (Ok (v1, t1)) ->
       execute fuel t0 (cl_bare N X []) = Some (Ok (v2, t2)) ->
       v1 = v2).
Proof.
  intros H.
  assert (E : chars "(a)" = chars "a"); [|discriminate E].
  eapply (H after_ds_ss (chars "N") (chars "((a))") 20).
  - intros C. simpl in C.
    repeat (destruct C as [C|C]; [discriminate C|]). exact C.
  - intros C. simpl in C.
    repeat (destruct C as [C|C]; [discriminate C|]). exact C.
  - vm_compute. reflexivity.
  - vm_compute. reflexivity.
Qed.

(** * Segment markers *)

(** ** [find] *)

Lemma option_map_add0 (o : option nat) : option_map (Nat.add 0) o = o.
Proof. destruct o; reflexivity. Qed.

Lemma find_skipn (p s : str) (i : nat) :
  i <= length s ->
  Py.find s p i = option_map (Nat.add i) (Py.find (skipn i s) p 0).
Proof.
  revert s. induction i as [|i IH]; intros s H.
  - now rewrite option_map_add0.
  - destruct s as [|c s]; [simpl in H; lia|].
    cbn [Py.find skipn]. rewrite IH by (simpl in H; lia).
    destruct (Py.find (skipn i s) p 0); reflexivity.
Qed.

Lemma startswith_length (s p : str) :
  Py.startswith s p = true -> length p <= length s.
Proof.
  revert s. induction p as [|c p IH]; intros s H; [simpl; lia|].
  destruct s as [|d s]; [discriminate|]. simpl in H.
  apply andb_prop in H. destruct H as [_ H]. apply IH in H. simpl. lia.
Qed.

Lemma startswith_app (p r : str) : Py.startswith (p ++ r) p = true.
Proof.
  induction p as [|c p IH]; [destruct r; reflexivity|].
  simpl. now rewrite Ascii.eqb_refl, IH.
Qed.

Lemma startswith_inv (s p : str) :
  Py.startswith s p = true -> s = p ++ skipn (length p) s.
Proof.
  revert s. induction p as [|c p IH]; intros s H; [reflexivity|].
  destruct s as [|d s]; [discriminate|]. simpl in H.
  apply andb_prop in H. destruct H as [H1 H2].
  apply Ascii.eqb_eq in H1. subst. simpl. f_equal. now apply IH.
Qed.

Lemma find_none (p s : str) :
  p <> [] -> Py.find s p 0 = None ->
  forall x, Py.startswith (skipn x s) p = false.
Proof.
  intros Hp. induction s as [|c s IH]; intros H x.
  - rewrite skipn_nil. destruct p; [congruence|reflexivity].
  - cbn [Py.find] in H.
    destruct (Py.startswith (c :: s) p) eqn:E; [discriminate|].
    destruct x as [|x]; [exact E|]. simpl. apply IH.
    destruct (Py.find s p 0); [discriminate|reflexivity].
Qed.

Lemma find_some (p s : str) (j : nat) :
  Py.find s p 0 = Some j ->
  Py.startswith (skipn j s) p = true /\
  (forall x, x < j -> Py.startswith (skipn x s) p = false) /\
  j + length p <= length s.
Proof.
  revert j. induction s as [|c s IH]; intros j H.
  - cbn [Py.find] in H. destruct (Py.startswith [] p) eqn:E; [|discriminate].
    inversion H; subst. repeat split; auto; [lia|].
    apply startswith_length in E. simpl in *. lia.
  - cbn [Py.find] in H. destruct (Py.startswith (c :: s) p) eqn:E.
    + inversion H; subst. repeat split; auto; [lia|].
      apply startswith_length in E. simpl in *. lia.
    + destruct (Py.find s p 0) as [j'|] eqn:F; [|discriminate].
      inversion H; subst. destruct (IH j' eq_refl) as (H1 & H2 & H3).
      repeat split; auto.
      * intros x Hx. destruct x as [|x]; [exact E|]. simpl. apply H2. lia.
      * simpl. lia.
Qed.

(** ** The loop over one literal chunk *)

Lemma split_nonempty (fuel : nat) (p s : str) : split fuel p s <> [].
Proof.
  destruct fuel; simpl; [discriminate|].
  destruct (Py.find s p 0); discriminate.
Qed.

Lemma inter_cons (n : nat) (c : str) (l : list str) :
  l <> [] -> inter n (c :: l) = Text c :: Marker n :: inter n l.
Proof. destruct l; [congruence|reflexivity]. Qed.

Lemma find_loop_S (fuel : nat) (s p : str) (n i : nat) (out : list Part) :
  Core.find_loop (S fuel) s p n i out =
  match Py.find s p i with
  | None => Some (out ++ [Text (Py.slice_from s i)])
  | Some j =>
      Core.find_loop fuel s p n (j + length p)
        (out ++ [Text (Py.slice s i j)] ++ [Marker n])
  end.
Proof. reflexivity. Qed.

Lemma find_loop_split (p : str) (n : nat) (s : str) (fuel i : nat)
  (out : list Part) :
  p <> [] -> i <= length s -> length s - i <= fuel ->
  Core.find_loop (S fuel) s p n i out =
  Some (out ++ inter n (split fuel p (skipn i s))).
Proof.
  intros Hp. revert i out. induction fuel as [|fuel IH]; intros i out Hi Hf.
  - cbn [Core.find_loop split inter]. rewrite find_skipn by exact Hi.
    unfold Py.slice_from. rewrite skipn_all2 by lia.
    destruct p as [|c p]; [congruence|]. reflexivity.
  - rewrite find_loop_S. cbn [split]. rewrite find_skipn by exact Hi.
    destruct (Py.find (skipn i s) p 0) as [j|] eqn:F; cbn [option_map].
    + destruct (find_some p (skipn i s) j F) as (_ & _ & Hj).
      rewrite length_skipn in Hj.
      assert (0 < length p) by (destruct p; [congruence|simpl; lia]).
      rewrite IH by lia.
      rewrite inter_cons by apply split_nonempty.
      unfold Py.slice. rewrite skipn_firstn_comm.
      replace (i + j - i) with j by lia.
      rewrite skipn_skipn.
      replace (j + length p + i) with (i + j + length p) by lia.
      rewrite <- !app_assoc. reflexivity.
    + reflexivity.
Qed.

(** The [while] loop of [replace_pattern_in_parts] always ends, and so
    does its [for] loop. *)
Lemma for_parts_total (parts : list Part) (p : str) (n : nat)
  (out : list Part) :
  p <> [] -> Core.for_parts parts p n out = Some (out ++ expand p n parts).
Proof.
  intros Hp. revert out. induction parts as [|[s|m] parts IH]; intros out.
  - simpl. now rewrite app_nil_r.
  - cbn [Core.for_parts expand].
    rewrite find_loop_split by (auto; lia). cbn [skipn].
    rewrite IH. now rewrite <- app_assoc.
  - cbn [Core.for_parts expand]. rewrite IH. now rewrite <- app_assoc.
Qed.

(** ** Merging *)

Lemma ends_with_text_marker (l : list Part) (m : nat) :
  Core.ends_with_text (l ++ [Marker m]) = None.
Proof.
  induction l as [|x l IH]; [reflexivity|].
  cbn [app Core.ends_with_text]. rewrite IH.
  destruct x as [s|k]; [|reflexivity].
  destruct (l ++ [Marker m]) eqn:E; [destruct l; discriminate|reflexivity].
Qed.

Lemma merge_normal (X acc : list Part) :
  normal X ->
  Core.ends_with_text acc = None \/ ~ starts_with_text X ->
  Core.merge_loop X acc = acc ++ X.
Proof.
  revert acc. induction X as [|item X IH]; intros acc HX Hacc.
  - simpl. now rewrite app_nil_r.
  - cbn [Core.merge_loop].
    replace (acc ++ item :: X) with ((acc ++ [item]) ++ X)
      by (rewrite <- app_assoc; reflexivity).
    destruct item as [s|m].
    + destruct Hacc as [Hacc|Hacc]; [|exfalso; apply Hacc; exact I].
      rewrite Hacc. apply IH.
      * simpl in HX. destruct X as [|[s'|m'] X']; auto; contradiction.
      * right. simpl in HX. destruct X as [|[s'|m'] X']; auto.
    + assert (E : match Core.ends_with_text acc, Marker m with
                  | Some (l, last), Text s =>
                      Core.merge_loop X (l ++ [Text (last ++ s)])
                  | _, _ => Core.merge_loop X (acc ++ [Marker m])
                  end = Core.merge_loop X (acc ++ [Marker m])).
      { destruct (Core.ends_with_text acc) as [[l last]|]; reflexivity. }
      rewrite E. apply IH; [exact HX|].
      left. apply ends_with_text_marker.
Qed.

Lemma normal_inter_app (n : nat) (l : list str) (Y : list Part) :
  l <> [] -> normal Y -> ~ starts_with_text Y -> normal (inter n l ++ Y).
Proof.
  intros Hl HY HS. induction l as [|c l IH]; [congruence|].
  destruct l as [|d l].
  - cbn [inter app normal]. destruct Y as [|[s|m] Y]; auto.
    apply HS. exact I.
  - rewrite inter_cons by discriminate. cbn [app normal].
    apply IH. discriminate.
Qed.

Lemma expand_starts (p : str) (n : nat) (parts : list Part) :
  ~ starts_with_text parts -> ~ starts_with_text (expand p n parts).
Proof.
  destruct parts as [|[s|m] parts]; simpl; auto.
Qed.

Lemma expand_normal (p : str) (n : nat) (parts : list Part) :
  normal parts -> normal (expand p n parts).
Proof.
  induction parts as [|[s|m] parts IH]; intros H; [exact I| |].
  - cbn [expand]. apply normal_inter_app.
    + apply split_nonempty.
    + apply IH. simpl in H. destruct parts as [|[s'|m'] parts']; auto.
      contradiction.
    + apply expand_starts. simpl in H.
      destruct parts as [|[s'|m'] parts']; auto.
  - cbn [expand normal]. apply IH. exact H.
Qed.

(** One pattern of [ss] cuts the literal chunks of a body in which no two
    chunks are neighbours, and leaves such a body. *)
Lemma replace_pattern_expand (parts : list Part) (p : str) (n : nat) :
  p <> [] -> normal parts ->
  Core.replace_pattern_in_parts parts p n = expand p n parts.
Proof.
  intros Hp Hn. unfold Core.replace_pattern_in_parts.
  destruct p as [|c p]; [congruence|]. cbn [is_empty].
  rewrite for_parts_total by discriminate. cbn [app].
  rewrite merge_normal; [reflexivity|now apply expand_normal|now left].
Qed.

(** ** All the patterns *)

Lemma den_app (pats : list str) (i : nat) (A : list str) (x y : list Part) :
  den pats i A (x ++ y) = den pats i A x ++ den pats i A y.
Proof.
  induction x as [|[s|m] x IH]; [reflexivity| |]; cbn [app den];
    rewrite IH; now rewrite app_assoc.
Qed.

Lemma den_inter (pats : list str) (i n : nat) (A : list str) (l : list str) :
  den pats i A (inter n l) =
  Py.join (argument A n) (map (seq_subst pats i A) l).
Proof.
  induction l as [|c l IH]; [reflexivity|].
  destruct l as [|d l].
  - cbn [inter den map Py.join]. apply app_nil_r.
  - rewrite inter_cons by discriminate. cbn [den]. rewrite IH. reflexivity.
Qed.

Lemma den_expand (p : str) (pats : list str) (i : nat) (A : list str)
  (parts : list Part) :
  p <> [] ->
  den pats (S i) A (expand p i parts) = den (p :: pats) i A parts.
Proof.
  intros Hp. induction parts as [|[s|m] parts IH]; [reflexivity| |].
  - cbn [expand den]. rewrite den_app, den_inter, IH.
    cbn [seq_subst]. destruct p as [|c p]; [congruence|]. reflexivity.
  - cbn [expand den]. now rewrite IH.
Qed.

Lemma den_skip_empty (pats : list str) (i : nat) (A : list str)
  (parts : list Part) :
  den ([] :: pats) i A parts = den pats (S i) A parts.
Proof.
  induction parts as [|[s|m] parts IH]; [reflexivity| |]; cbn [den];
    now rewrite IH.
Qed.

Lemma ss_loop_den (pats : list str) (i : nat) (A : list str)
  (parts : list Part) :
  normal parts ->
  den [] 0 A (Core.ss_loop pats i parts) = den pats i A parts.
Proof.
  revert i parts. induction pats as [|p pats IH]; intros i parts Hn.
  - cbn [Core.ss_loop]. clear Hn.
    induction parts as [|[s|m] parts IHp]; [reflexivity| |]; cbn [den];
      now rewrite IHp.
  - cbn [Core.ss_loop]. destruct p as [|c p].
    + cbn [is_empty negb]. rewrite IH by exact Hn.
      now rewrite den_skip_empty.
    + cbn [is_empty negb].
      rewrite replace_pattern_expand by (auto; discriminate).
      rewrite IH by now apply expand_normal.
      apply den_expand. discriminate.
Qed.

(** ** Replacing from left to right *)

Lemma startswith_nil (s : str) : Py.startswith s [] = true.
Proof. destruct s; reflexivity. Qed.

Lemma startswith_prefix (L T q : str) :
  length q <= length L -> Py.startswith (L ++ T) q = Py.startswith L q.
Proof.
  revert L. induction q as [|c q IH]; intros L H.
  - now rewrite !startswith_nil.
  - destruct L as [|d L]; [simpl in H; lia|].
    cbn [app Py.startswith]. rewrite IH by (simpl in H; lia). reflexivity.
Qed.

Lemma startswith_app_true (L T q : str) :
  Py.startswith L q = true -> Py.startswith (L ++ T) q = true.
Proof.
  intros H. rewrite startswith_prefix; [exact H|].
  now apply startswith_length.
Qed.

Lemma first_match_some (pats : list str) (i : nat) (s : str) (n : nat)
  (q : str) :
  first_match pats i s = Some (n, q) ->
  q <> [] /\ Py.startswith s q = true /\
  exists k, nth_error pats k = Some q /\ n = i + k.
Proof.
  revert i. induction pats as [|p pats IH]; intros i H; [discriminate|].
  cbn [first_match] in H.
  destruct (negb (is_empty p) && Py.startswith s p) eqn:E.
  - inversion H; subst. apply andb_prop in E. destruct E as [E1 E2].
    repeat split; auto.
    + destruct q; [discriminate|discriminate].
    + exists 0. split; [reflexivity|lia].
  - destruct (IH (S i) H) as (H1 & H2 & k & H3 & H4).
    repeat split; auto. exists (S k). split; [exact H3|lia].
Qed.

Lemma first_match_prefix (pats : list str) (i : nat) (L T : str) :
  (forall q, In q pats -> q <> [] -> Py.startswith (L ++ T) q = true ->
             length q <= length L) ->
  first_match pats i (L ++ T) = first_match pats i L.
Proof.
  revert i. induction pats as [|p pats IH]; intros i H; [reflexivity|].
  cbn [first_match].
  assert (IH' : first_match pats (S i) (L ++ T) = first_match pats (S i) L).
  { apply IH. intros q Hq. apply H. now right. }
  destruct p as [|c p]; [exact IH'|]. cbn [is_empty negb andb].
  destruct (Py.startswith (L ++ T) (c :: p)) eqn:E.
  - rewrite <- (startswith_prefix L T (c :: p)), E; [reflexivity|].
    apply H; [now left|discriminate|exact E].
  - destruct (Py.startswith L (c :: p)) eqn:E'; [|exact IH'].
    apply (startswith_app_true L T) in E'. congruence.
Qed.

Lemma substitute_no_pattern (i : nat) (A : list str) (s : str) :
  substitute [] i A s 0 = s.
Proof. induction s as [|c s IH]; [reflexivity|]. simpl. now rewrite IH. Qed.

Lemma substitute_skip_empty (pats : list str) (i : nat) (A : list str)
  (s : str) (skip : nat) :
  substitute ([] :: pats) i A s skip = substitute pats (S i) A s skip.
Proof.
  revert skip. induction s as [|c s IH]; intros skip; [reflexivity|].
  cbn [substitute first_match is_empty negb andb].
  destruct skip; [|apply IH].
  destruct (first_match pats (S i) (c :: s)) as [[n p]|]; now rewrite IH.
Qed.

Lemma substitute_no_occurrence (p : str) (pats : list str) (i : nat)
  (A : list str) (s : str) (skip : nat) :
  (forall x, Py.startswith (skipn x s) p = false) ->
  substitute (p :: pats) i A s skip = substitute pats (S i) A s skip.
Proof.
  revert skip. induction s as [|c s IH]; intros skip H; [reflexivity|].
  assert (H' : forall x, Py.startswith (skipn x s) p = false)
    by (intros x; apply (H (S x))).
  cbn [substitute first_match]. destruct skip; [|now apply IH].
  rewrite (H 0 : Py.startswith (c :: s) p = false), andb_false_r.
  destruct (first_match pats (S i) (c :: s)) as [[n q]|]; now rewrite IH.
Qed.

Lemma substitute_skip_exact (pats : list str) (i : nat) (A : list str)
  (u R : str) :
  substitute pats i A (u ++ R) (length u) = substitute pats i A R 0.
Proof. induction u as [|c u IH]; [reflexivity|]. exact IH. Qed.

(** Before the first occurrence of the first pattern, which the other
    patterns do not reach, only the other patterns are at work. *)
Lemma substitute_prefix (p : str) (pats : list str) (i : nat) (A : list str)
  (L T : str) (skip : nat) :
  (forall x, x < length L -> Py.startswith (skipn x (L ++ T)) p = false) ->
  (forall q x, In q pats -> q <> [] -> x < length L ->
     Py.startswith (skipn x (L ++ T)) q = true -> x + length q <= length L) ->
  skip <= length L ->
  substitute (p :: pats) i A (L ++ T) skip =
  substitute pats (S i) A L skip ++ substitute (p :: pats) i A T 0.
Proof.
  revert skip. induction L as [|c L IH]; intros skip C1 C2 Hs.
  - assert (skip = 0) by (simpl in Hs; lia). subst. reflexivity.
  - assert (C1' : forall x, x < length L ->
                    Py.startswith (skipn x (L ++ T)) p = false).
    { intros x Hx. apply (C1 (S x)). simpl. lia. }
    assert (C2' : forall q x, In q pats -> q <> [] -> x < length L ->
                    Py.startswith (skipn x (L ++ T)) q = true ->
                    x + length q <= length L).
    { intros q x Hq Hne Hx Hm.
      pose proof (C2 q (S x) Hq Hne ltac:(simpl; lia) Hm). simpl in *. lia. }
    cbn [app substitute]. destruct skip as [|k].
    + cbn [first_match].
      rewrite (C1 0 ltac:(simpl; lia) : Py.startswith (c :: L ++ T) p = false).
      rewrite andb_false_r.
      change (c :: L ++ T) with ((c :: L) ++ T).
      rewrite first_match_prefix.
      2:{ intros q Hq Hne Hm.
          exact (C2 q 0 Hq Hne ltac:(simpl; lia) Hm). }
      destruct (first_match pats (S i) (c :: L)) as [[n q]|] eqn:F.
      * destruct (first_match_some _ _ _ _ _ F) as (Hq & Hm & _).
        apply startswith_length in Hm.
        rewrite IH; auto; [now rewrite app_assoc|].
        simpl in Hm. destruct q; [congruence|]. simpl in *. lia.
      * rewrite IH; auto. lia.
    + apply IH; auto. simpl in Hs. lia.
Qed.

Lemma join_cons (sep x : str) (l : list str) :
  l <> [] -> Py.join sep (x :: l) = x ++ sep ++ Py.join sep l.
Proof. destruct l; [congruence|reflexivity]. Qed.

Lemma skipn_app_le {X} (x : nat) (L T : list X) :
  x <= length L -> skipn x (L ++ T) = skipn x L ++ T.
Proof.
  intros H. rewrite skipn_app.
  replace (x - length L) with 0 by lia. reflexivity.
Qed.

(** The first pattern taken out: the pieces between its occurrences are
    left to the other patterns, when no occurrence of them overlaps one of
    the first. *)
Lemma substitute_peel (p : str) (pats : list str) (i : nat) (A : list str)
  (fuel : nat) (s : str) :
  p <> [] -> length s <= fuel ->
  (forall q x y, In q pats -> occurs p s x -> occurs q s y ->
     x + length p <= y \/ y + length q <= x) ->
  substitute (p :: pats) i A s 0 =
  Py.join (argument A i)
    (map (fun c => substitute pats (S i) A c 0) (split fuel p s)).
Proof.
  intros Hp. revert s. induction fuel as [|fuel IH]; intros s Hl Hc.
  - destruct s; [reflexivity|simpl in Hl; lia].
  - cbn [split]. destruct (Py.find s p 0) as [j|] eqn:F.
    + destruct (find_some p s j F) as (Hm & Hno & Hj).
      set (L := firstn j s). set (R := skipn (j + length p) s).
      assert (HL : length L = j) by (subst L; rewrite length_firstn; lia).
      assert (Es : s = L ++ p ++ R).
      { subst L R. rewrite <- (firstn_skipn j s) at 1. f_equal.
        rewrite (startswith_inv _ _ Hm) at 1. f_equal.
        rewrite skipn_skipn. f_equal. lia. }
      assert (Hlp : 0 < length p) by (destruct p; [congruence|simpl; lia]).
      cbn [map]. rewrite join_cons
        by (intros C; apply map_eq_nil in C; revert C; apply split_nonempty).
      rewrite <- IH.
      * rewrite Es at 1. rewrite substitute_prefix.
        -- f_equal. destruct p as [|c p']; [congruence|].
           cbn [app substitute first_match is_empty negb andb].
           change (c :: p' ++ R) with ((c :: p') ++ R).
           rewrite startswith_app. cbn [length Nat.sub].
           rewrite Nat.sub_0_r. now rewrite substitute_skip_exact.
        -- intros x Hx. rewrite <- Es. apply Hno. lia.
        -- intros q x Hq Hne Hx Hmq. rewrite <- Es in Hmq.
           destruct (Hc q j x Hq (conj Hp Hm) (conj Hne Hmq)); lia.
        -- lia.
      * subst R. rewrite length_skipn. lia.
      * intros q x y Hq [_ Hx] [Hne Hy]. subst R.
        rewrite skipn_skipn in Hx, Hy.
        destruct (Hc q (x + (j + length p)) (y + (j + length p)) Hq
                    (conj Hp Hx) (conj Hne Hy)); lia.
    + cbn [map Py.join]. apply substitute_no_occurrence.
      now apply find_none.
Qed.

(** ** Patterns that keep apart *)

Lemma split_substring (fuel : nat) (p s c : str) :
  In c (split fuel p s) -> exists u v, s = u ++ c ++ v.
Proof.
  revert s. induction fuel as [|fuel IH]; intros s H.
  - destruct H as [H|[]]. subst. exists [], []. now rewrite app_nil_r.
  - cbn [split] in H. destruct (Py.find s p 0) as [j|].
    + destruct H as [H|H].
      * subst. exists [], (skipn j s). symmetry. apply firstn_skipn.
      * destruct (IH _ H) as (u & v & E).
        exists (firstn (j + length p) s ++ u), v.
        rewrite <- app_assoc, <- E. symmetry. apply firstn_skipn.
    + destruct H as [H|[]]. subst. exists [], []. now rewrite app_nil_r.
Qed.

Lemma occurs_substring (p u c v : str) (x : nat) :
  occurs p c x -> occurs p (u ++ c ++ v) (length u + x).
Proof.
  intros [Hp H]. split; [exact Hp|].
  rewrite skipn_app, skipn_all2 by lia.
  replace (length u + x - length u) with x by lia. cbn [app].
  destruct (Nat.le_gt_cases x (length c)) as [Hx|Hx].
  - rewrite skipn_app_le by exact Hx. now apply startswith_app_true.
  - rewrite skipn_all2 in H by lia. destruct p; [congruence|discriminate].
Qed.

Lemma apart_substring (pats : list str) (u c v : str) :
  apart pats (u ++ c ++ v) -> apart pats c.
Proof.
  intros H i j p q x y Hij Hp Hq Hx Hy.
  destruct (H i j p q (length u + x) (length u + y) Hij Hp Hq
              (occurs_substring p u c v x Hx)
              (occurs_substring q u c v y Hy)); lia.
Qed.

Lemma apart_tail (p : str) (pats : list str) (s : str) :
  apart (p :: pats) s -> apart pats s.
Proof.
  intros H i j p' q x y Hij Hp Hq. apply (H (S i) (S j)); auto.
Qed.

(** Replacing the patterns one after the other is replacing them from left
    to right, when they keep apart. *)
Lemma seq_subst_substitute (pats : list str) (i : nat) (A : list str)
  (s : str) :
  apart pats s -> seq_subst pats i A s = substitute pats i A s 0.
Proof.
  revert i s. induction pats as [|p pats IH]; intros i s H.
  - symmetry. apply substitute_no_pattern.
  - cbn [seq_subst]. destruct p as [|c p].
    + cbn [is_empty]. rewrite substitute_skip_empty.
      apply IH. eapply apart_tail, H.
    + cbn [is_empty].
      rewrite (substitute_peel (c :: p) pats i A (length s) s);
        [|discriminate|lia|].
      * f_equal. apply map_ext_in. intros x Hx.
        apply IH. destruct (split_substring _ _ _ _ Hx) as (u & v & E).
        apply (apart_substring pats u x v). rewrite <- E.
        eapply apart_tail, H.
      * intros q x y Hq Hx Hy.
        destruct (In_nth_error _ _ Hq) as [k Hk].
        apply (H 0 (S k) (c :: p) q x y); auto.
Qed.

(** ** Filling the markers *)

Lemma replacement_eq (a : list str) (range : list nat) :
  Core.replacement a range =
  Ok (map (fun i => (i + 1, nth (i + 1) a [])) range).
Proof.
  induction range as [|i range IH]; [reflexivity|].
  cbn [Core.replacement map]. rewrite IH.
  destruct (i + 1 <? length a) eqn:E.
  - apply Nat.ltb_lt in E. destruct (index_lt a (i + 1) E) as [v Hv].
    rewrite Hv. cbn [bind]. unfold Py.index in Hv.
    destruct (nth_error a (i + 1)) eqn:E1; [|discriminate].
    inversion Hv; subst. now rewrite (nth_error_nth _ _ _ E1).
  - apply Nat.ltb_ge in E. cbn [bind]. now rewrite nth_overflow.
Qed.

Lemma get_replacement (a : list str) (st len n : nat) :
  Py.get Nat.eqb (map (fun i => (i + 1, nth (i + 1) a [])) (seq st len)) n =
  if (st + 1 <=? n) && (n <=? st + len) then Some (nth n a []) else None.
Proof.
  revert st. induction len as [|len IH]; intros st.
  - simpl. destruct (Nat.leb_spec (st + 1) n), (Nat.leb_spec n (st + 0));
      simpl; auto; lia.
  - cbn [seq map Py.get]. rewrite IH.
    destruct (Nat.eqb_spec n (st + 1)).
    + subst. destruct (Nat.leb_spec (st + 1) (st + 1)),
        (Nat.leb_spec (st + 1) (st + S len)); simpl; auto; lia.
    + destruct (Nat.leb_spec (S st + 1) n), (Nat.leb_spec n (S st + len)),
        (Nat.leb_spec (st + 1) n), (Nat.leb_spec n (st + S len));
        simpl; auto; lia.
Qed.

Lemma cl_marker (N : str) (A : list str) (n : nat) :
  match Py.get Nat.eqb
          (map (fun i => (i + 1, nth (i + 1) (N :: A) []))
             (seq 0 (length (N :: A)))) n
  with
  | Some v => v
  | None => []
  end = argument A n.
Proof.
  rewrite get_replacement. destruct n as [|m]; [reflexivity|].
  cbn [argument Nat.add length].
  destruct (Nat.leb_spec 1 (S m)), (Nat.leb_spec (S m) (S (length A)));
    simpl; auto; try lia.
  symmetry. apply nth_overflow. lia.
Qed.

Lemma cl_chunks_den (N : str) (A : list str) (parts : list Part) :
  Py.join []
    (Core.cl_chunks parts
       (map (fun i => (i + 1, nth (i + 1) (N :: A) []))
          (seq 0 (length (N :: A))))) =
  den [] 0 A parts.
Proof.
  assert (J : forall x l, Py.join [] (x :: l) = x ++ Py.join [] l).
  { intros x l. destruct l; [symmetry; apply app_nil_r|reflexivity]. }
  induction parts as [|[s|m] parts IH]; [reflexivity| |];
    cbn [Core.cl_chunks den seq_subst]; rewrite J, IH; [reflexivity|].
  now rewrite cl_marker.
Qed.

Lemma cl_value (t : TRAC) (N : str) (A : list str) (parts : list Part) :
  args t = N :: A -> Py.get str_eqb (forms t) N = Some parts ->
  evaluate (chars "cl") t = (den [] 0 A parts, t).
Proof.
  intros Ha Hf.
  rewrite (evaluate_known (chars "cl") Core.cl) by reflexivity.
  unfold Core.cl. rewrite arg_nth, Ha. cbn [nth bind].
  unfold Py.mem, Py.getitem. rewrite Hf. cbn [negb bind].
  rewrite replacement_eq. cbn [bind]. now rewrite cl_chunks_den.
Qed.

Lemma ss_value (t : TRAC) (N : str) (pats : list str) (parts : list Part) :
  args t = N :: pats -> Py.get str_eqb (forms t) N = Some parts ->
  evaluate (chars "ss") t =
  ([], set_forms t (Py.setitem str_eqb (forms t) N (Core.ss_loop pats 1 parts))).
Proof.
  intros Ha Hf.
  rewrite (evaluate_known (chars "ss") Core.ss) by reflexivity.
  unfold Core.ss. rewrite arg_nth, Ha. cbn [nth].
  unfold Py.mem, Py.getitem. rewrite Hf. cbn [negb].
  reflexivity.
Qed.

Lemma ds_value (t : TRAC) (N B : str) :
  N <> [] -> args t = [N; B] ->
  evaluate (chars "ds") t =
  ([], set_forms t (Py.setitem str_eqb (forms t) N [Text B])).
Proof.
  intros HN Ha.
  rewrite (evaluate_known (chars "ds") Core.ds) by reflexivity.
  unfold Core.ds. rewrite !arg_nth, Ha. cbn [nth bind].
  destruct N; [congruence|reflexivity].
Qed.

(** * [ds], [ss] and [cl] together *)

(** C2, as the code has it.  For a name [N] that is not empty, a body [B]
    and patterns [P1..Pk] of which no occurrence in [B] overlaps an
    occurrence of another, the calls [ds] with [N], [B], then [ss] with
    [N], [P1..Pk],
    then [cl] with [N], [A1..] return [B] with every occurrence of a
    pattern [Pi] that is not empty replaced by [Ai], from left to right and
    without overlap.  An empty pattern is passed over and the patterns after
    it keep their positions: [Pi] is replaced by [Ai] whatever stands before
    it.  A missing [Ai] is the empty string. *)
Theorem ss_cl_substitutes (t : TRAC) (N B : str) (pats A : list str) :
  N <> [] -> apart pats B ->
  let t1 := snd (evaluate (chars "ds") (set_args t [N; B])) in
  let t2 := snd (evaluate (chars "ss") (set_args t1 (N :: pats))) in
  fst (evaluate (chars "cl") (set_args t2 (N :: A))) =
  substitute pats 1 A B 0.
Proof.
  intros HN Hap t1 t2.
  assert (E1 : Py.get str_eqb (forms t1) N = Some [Text B]).
  { unfold t1. rewrite (ds_value (set_args t [N; B]) N B HN eq_refl).
    apply get_setitem. }
  assert (E2 : Py.get str_eqb (forms t2) N =
               Some (Core.ss_loop pats 1 [Text B])).
  { unfold t2.
    rewrite (ss_value (set_args t1 (N :: pats)) N pats [Text B] eq_refl E1).
    apply get_setitem. }
  rewrite (cl_value (set_args t2 (N :: A)) N A _ eq_refl E2). cbn [fst].
  rewrite ss_loop_den by exact I. cbn [den]. rewrite app_nil_r.
  now apply seq_subst_substitute.
Qed.

Lemma ss_cl_substitutes_witness :
  fst (evaluate (chars "cl")
         (set_args
            (snd (evaluate (chars "ss")
                    (set_args
                       (snd (evaluate (chars "ds")
                               (set_args init [chars "F"; chars "aXbYaX"])))
                       [chars "F"; chars "X"; []; chars "Y"])))
            [chars "F"; chars "1"; chars "2"; chars "3"])) =
  chars "a1b3a1".
Proof.
  apply (ss_cl_substitutes init (chars "F") (chars "aXbYaX")
           [chars "X"; []; chars "Y"] [chars "1"; chars "2"; chars "3"]).
  - discriminate.
  - intros i j p q x y Hij Hp Hq [Hpn Hx] [Hqn Hy].
    destruct i as [|[|[|i]]]; simpl in Hp; try discriminate;
      try (destruct i; discriminate Hp);
      inversion Hp; subst; try congruence;
      destruct j as [|[|[|j]]]; simpl in Hq; try discriminate;
      try (destruct j; discriminate Hq);
      inversion Hq; subst; try congruence;
      do 7 (try (destruct x as [|x]; [simpl in Hx; try discriminate|]));
      try (simpl in Hx; try rewrite skipn_nil in Hx; discriminate);
      do 7 (try (destruct y as [|y]; [simpl in Hy; try discriminate|]));
      try (simpl in Hy; try rewrite skipn_nil in Hy; discriminate);
      simpl; lia.
Defined.

(** * The demonstration at the end of the source *)

Example factorial_5 :
  result (execute 400 after_fact_ss (chars "#(cl,Factorial,5)'")) =
  Some (Ok (chars "120", forms after_fact_ss)).
Proof. vm_compute. reflexivity. Qed.

Example trivia :
  result (execute 40 init (chars "((3+4))*9 = #(ml,#(ad,3,4),9)'")) =
  Some (Ok (chars "(3+4)*9 = 63", [])).
Proof. vm_compute. reflexivity. Qed.

(** The value of a neutral call is printed as it is; the value of an active
    call is scanned again before [ps] prints it. *)
Example neutral_call_value_not_scanned :
  match execute 60 init (chars "#(ds,AA,Cat)#(ds,BB,(#(cl,AA)))#(ps,##(cl,BB))'") with
  | Some (Ok (v, t)) =>
      Some (v, skipn (length (chars "#(ds,AA,Cat)#(ds,BB,(#(cl,AA)))#(ps,##(cl,BB))'") + 1)
                 (stdout t))
  | _ => None
  end = Some ([], chars "#(cl,AA)").
Proof. vm_compute. reflexivity. Qed.

Example active_call_value_scanned :
  match execute 60 init (chars "#(ds,AA,Cat)#(ds,BB,(#(cl,AA)))#(ps,#(cl,BB))'") with
  | Some (Ok (v, t)) =>
      Some (v, skipn (length (chars "#(ds,AA,Cat)#(ds,BB,(#(cl,AA)))#(ps,#(cl,BB))'") + 1)
                 (stdout t))
  | _ => None
  end = Some ([], chars "Cat").
Proof. vm_compute. reflexivity. Qed.

(** C2, as the specification words it, fails when two patterns overlap
    without one lying inside the other: in the body [abc] the patterns [bc]
    and [ab] are such, [ss] marks [bc] first, and [cl] returns [a1] where
    the replacement from left to right gives [2c]. *)
Lemma overlapping_patterns_not_substituted :
  ~ (forall t N B pats A,
       N <> [] -> Forall (fun p => p <> []) pats -> nested_free pats B ->
       fst (evaluate (chars "cl")
              (set_args
                 (snd (evaluate (chars "ss")
                         (set_args
                            (snd (evaluate (chars "ds") (set_args t [N; B])))
                            (N :: pats))))
                 (N :: A))) =
       substitute pats 1 A B 0).
Proof.
  intros H.
  specialize (H init (chars "F") (chars "abc") [chars "bc"; chars "ab"]
                [chars "1"; chars "2"]).
  assert (E : chars "a1" = chars "2c"); [|discriminate E].
  apply H.
  - discriminate.
  - repeat constructor; discriminate.
  - intros i j p q x y Hij Hp Hq [Hpn Hx] [Hqn Hy].
    destruct i as [|[|i]]; simpl in Hp; try discriminate;
      try (destruct i; discriminate Hp);
      inversion Hp; subst; try congruence;
      destruct j as [|[|j]]; simpl in Hq; try discriminate;
      try (destruct j; discriminate Hq);
      inversion Hq; subst; try congruence;
      do 4 (try (destruct x as [|x]; [simpl in Hx; try discriminate|]));
      try (simpl in Hx; try rewrite skipn_nil in Hx; discriminate);
      do 4 (try (destruct y as [|y]; [simpl in Hy; try discriminate|]));
      try (simpl in Hy; try rewrite skipn_nil in Hy; discriminate);
      simpl; lia.
Qed.

(** * Further properties *)

(** ** What [execute] depends on *)

(** X1. What [execute] returns and the form store it leaves depend on the
    source and on the form store only: what the processor fields held
    before and what was printed before make no difference. *)
Theorem execute_starts_afresh (fuel : nat) (t0 t0' : TRAC) (s : str) :
  forms t0 = forms t0' ->
  result (execute fuel t0 s) = result (execute fuel t0' s).
Proof. intros H. rewrite !execute_result, H. reflexivity. Qed.

Lemma execute_starts_afresh_witness :
  result (execute 9 (mkTRAC [] (chars "left") (chars "over") 3
                       [mkFrame 1 neutral_mode [(1, 2)] 2] [chars "x"]
                       (chars "out"))
            (chars "#(ad,1,2)")) =
  result (execute 9 init (chars "#(ad,1,2)")).
Proof.
  apply (execute_starts_afresh 9
           (mkTRAC [] (chars "left") (chars "over") 3
              [mkFrame 1 neutral_mode [(1, 2)] 2] [chars "x"] (chars "out"))
           init (chars "#(ad,1,2)")).
  reflexivity.
Defined.

(** X2. No call of a primitive, known or not, raising or not, changes
    [active], [neutral], [scan], [frames] or [args]: a handler acts on the
    form store and on the output only. *)
Theorem primitives_keep_processor (name : str) (t : TRAC) :
  active (snd (evaluate name t)) = active t /\
  neutral (snd (evaluate name t)) = neutral t /\
  scan (snd (evaluate name t)) = scan t /\
  frames (snd (evaluate name t)) = frames t /\
  args (snd (evaluate name t)) = args t.
Proof. exact (evaluate_same_processor name t). Qed.

(** ** Protective parentheses *)

Lemma consume_loop_closes (rest : list ascii) (depth : Z) (ntl : list ascii)
  (n : nat) :
  (0 < depth)%Z ->
  (depth + paren_balance (firstn n rest) = 0)%Z ->
  (forall m, m < n -> (0 < depth + paren_balance (firstn m rest))%Z) ->
  consume_loop rest depth ntl = (true, skipn n rest, ntl ++ firstn (n - 1) rest).
Proof.
  revert depth ntl n. induction rest as [|ch rest IH]; intros depth ntl n Hd Hn Hm.
  - rewrite firstn_nil in Hn. simpl in Hn. lia.
  - destruct n as [|n]; [simpl in Hn; lia|].
    assert (Hm' : forall m, m < n ->
              (0 < depth + paren_balance (ch :: firstn m rest))%Z).
    { intros m Hlt. apply (Hm (S m)). lia. }
    cbn [firstn paren_balance] in Hn, Hm'. cbn [consume_loop skipn].
    replace (S n - 1) with n by lia.
    destruct (Ascii.eqb ch "("%char) eqn:E1.
    { destruct n as [|n].
      - cbn [firstn paren_balance] in Hn. lia.
      - rewrite (IH (depth + 1)%Z (ntl ++ [ch]) (S n)).
        + replace (S n - 1) with n by lia. cbn [firstn].
          now rewrite <- app_assoc.
        + lia.
        + lia.
        + intros m Hlt. specialize (Hm' m Hlt). lia. }
    destruct (Ascii.eqb ch ")"%char) eqn:E2.
    { destruct (depth - 1 =? 0)%Z eqn:E.
      - apply Z.eqb_eq in E. destruct n as [|n].
        + cbn [firstn skipn]. now rewrite app_nil_r.
        + specialize (Hm' 0 ltac:(lia)). cbn [firstn paren_balance] in Hm'. lia.
      - apply Z.eqb_neq in E. destruct n as [|n].
        + cbn [firstn paren_balance] in Hn. lia.
        + rewrite (IH (depth - 1)%Z (ntl ++ [ch]) (S n)).
          * replace (S n - 1) with n by lia. cbn [firstn].
            now rewrite <- app_assoc.
          * specialize (Hm' 0 ltac:(lia)). cbn [firstn paren_balance] in Hm'. lia.
          * lia.
          * intros m Hlt. specialize (Hm' m Hlt). lia. }
    destruct n as [|n].
    + cbn [firstn paren_balance] in Hn. lia.
    + rewrite (IH depth (ntl ++ [ch]) (S n)).
      * replace (S n - 1) with n by lia. cbn [firstn].
        now rewrite <- app_assoc.
      * lia.
      * lia.
      * intros m Hlt. specialize (Hm' m Hlt). lia.
Qed.

Lemma consume_loop_true_closes (rest : list ascii) (depth : Z)
  (ntl : list ascii) :
  (0 < depth)%Z -> fst (fst (consume_loop rest depth ntl)) = true ->
  exists n, (depth + paren_balance (firstn n rest) = 0)%Z /\
            forall m, m < n -> (0 < depth + paren_balance (firstn m rest))%Z.
Proof.
  revert depth ntl. induction rest as [|ch rest IH]; intros depth ntl Hd H.
  - discriminate.
  - assert (Step : forall d' : Z,
              (d' = depth +
                    (if Ascii.eqb ch "("%char then 1
                     else if Ascii.eqb ch ")"%char then -1 else 0))%Z ->
              (exists n, (d' + paren_balance (firstn n rest) = 0)%Z /\
                 forall m, m < n ->
                   (0 < d' + paren_balance (firstn m rest))%Z) ->
              exists n,
                (depth + paren_balance (firstn n (ch :: rest)) = 0)%Z /\
                forall m, m < n ->
                  (0 < depth + paren_balance (firstn m (ch :: rest)))%Z).
    { intros d' Ed [n [Hn Hm]]. exists (S n). cbn [firstn paren_balance].
      split; [lia|]. intros m Hlt. destruct m as [|m].
      - cbn [firstn paren_balance]. lia.
      - cbn [firstn paren_balance]. specialize (Hm m ltac:(lia)). lia. }
    simpl in H.
    destruct (Ascii.eqb ch "("%char) eqn:E1.
    { apply (Step (depth + 1)%Z); [try rewrite E1; lia|].
      apply IH in H; [exact H|lia]. }
    destruct (Ascii.eqb ch ")"%char) eqn:E2.
    { destruct (depth - 1 =? 0)%Z eqn:E.
      - apply Z.eqb_eq in E. exists 1. cbn [firstn paren_balance].
        rewrite E1, E2. split; [lia|]. intros m Hlt.
        assert (m = 0) by lia. subst. cbn [firstn paren_balance]. lia.
      - apply Z.eqb_neq in E.
        apply (Step (depth - 1)%Z); [try rewrite E1; try rewrite E2; lia|].
        apply IH in H; [exact H|lia]. }
    apply (Step depth); [try rewrite E1; try rewrite E2; lia|].
    apply IH in H; [exact H|lia].
Qed.

Lemma consume_loop_false_unmatched (rest : list ascii) (depth : Z)
  (ntl : list ascii) :
  (0 < depth)%Z -> fst (fst (consume_loop rest depth ntl)) = false ->
  forall n, n <= length rest ->
    (0 < depth + paren_balance (firstn n rest))%Z.
Proof.
  revert depth ntl. induction rest as [|ch rest IH]; intros depth ntl Hd H n Hn.
  - rewrite firstn_nil. simpl. lia.
  - destruct n as [|n]; [simpl; lia|].
    cbn [firstn paren_balance]. simpl in H, Hn.
    destruct (Ascii.eqb ch "("%char).
    { assert (G := IH (depth + 1)%Z _ ltac:(lia) H n ltac:(lia)). lia. }
    destruct (Ascii.eqb ch ")"%char).
    { destruct (depth - 1 =? 0)%Z eqn:E; [discriminate|].
      apply Z.eqb_neq in E.
      assert (G := IH (depth - 1)%Z _ ltac:(lia) H n ltac:(lia)). lia. }
    assert (G := IH depth _ Hd H n ltac:(lia)). lia.
Qed.

(** X3. At a ['('] the scanner finds the matching [')'] exactly when some
    beginning of the text behind the ['('] holds one [')'] more than
    ['(']; it then moves what stands before that [')'] to [neutral] as it
    is, drops the two parentheses and goes on behind them.  When there is
    none it reports the failure that aborts the record. *)
Theorem protective_parentheses (t : TRAC) (rest : list ascii) :
  scan t = 0 -> active t = "("%char :: rest ->
  (forall n, closes_at rest n ->
     _consume_balanced_parentheses_into_neutral t =
     Ok (true, set_neutral (set_active t (skipn n rest))
                 (neutral t ++ firstn (n - 1) rest))) /\
  (unmatched_open rest ->
     exists t', _consume_balanced_parentheses_into_neutral t = Ok (false, t')) /\
  ((exists n, closes_at rest n) \/ unmatched_open rest).
Proof.
  intros Hs Ha. rewrite (consume_eq t rest Hs Ha). cbv zeta.
  split; [|split].
  - intros n [Hn Hm].
    rewrite (consume_loop_closes rest 1 (neutral t) n); auto. lia.
  - intros Hu. rewrite (consume_loop_unmatched rest 1 (neutral t) Hu). eauto.
  - destruct (fst (fst (consume_loop rest 1 (neutral t)))) eqn:E.
    + left. apply consume_loop_true_closes in E; [exact E|lia].
    + right. intros n Hn.
      apply (consume_loop_false_unmatched rest 1 (neutral t)); auto. lia.
Qed.

Lemma protective_parentheses_witness :
  _consume_balanced_parentheses_into_neutral
    (mkTRAC [] (chars "(a(,)#)b)") (chars "x") 0 [] [] []) =
  Ok (true, mkTRAC [] (chars "b)") (chars "xa(,)#") 0 [] [] []).
Proof.
  refine (proj1 (protective_parentheses
                   (mkTRAC [] (chars "(a(,)#)b)") (chars "x") 0 [] [] [])
                   (chars "a(,)#)b)") eq_refl eq_refl) 6 _).
  split; [reflexivity|].
  intros m Hm. do 6 (destruct m as [|m]; [vm_compute; reflexivity|]). lia.
Defined.

Lemma paren_balance_app (a b : list ascii) :
  paren_balance (a ++ b) = (paren_balance a + paren_balance b)%Z.
Proof.
  induction a as [|c a IH]; [reflexivity|].
  cbn [app paren_balance]. rewrite IH. lia.
Qed.

Lemma balanced_closes (X tail : list ascii) :
  balanced X -> closes_at (X ++ ")"%char :: tail) (S (length X)).
Proof.
  intros [H0 Hp]. split.
  - replace (S (length X)) with (length (X ++ [")"%char]))
      by (rewrite length_app; simpl; lia).
    replace (X ++ ")"%char :: tail) with ((X ++ [")"%char]) ++ tail)
      by (rewrite <- app_assoc; reflexivity).
    rewrite firstn_app, firstn_all, Nat.sub_diag. cbn [firstn].
    rewrite app_nil_r, paren_balance_app, H0. reflexivity.
  - intros m Hm. rewrite firstn_app.
    replace (m - length X) with 0 by lia. cbn [firstn].
    rewrite app_nil_r. specialize (Hp m ltac:(lia)). lia.
Qed.

(** One iteration takes the scanner over a text in parentheses whose own
    parentheses match. *)
Lemma scans_over_balanced (t : TRAC) (X : list ascii) :
  scan t = 0 -> balanced X ->
  scans_over 1 ("("%char :: X ++ [")"%char]) t
    (set_neutral t (neutral t ++ X)).
Proof.
  intros Hs HX. split; [exact Hs|]. intros tail. cbn [continues].
  rewrite <- app_comm_cons, <- app_assoc. cbn [app].
  rewrite (loop_body_head _ "("%char (X ++ ")"%char :: tail))
    by (auto; reflexivity).
  change (char_in "("%char _skip_chars) with false.
  cbn [Ascii.eqb Bool.eqb].
  rewrite (consume_eq _ (X ++ ")"%char :: tail)) by (auto; reflexivity).
  cbv zeta. cbn [neutral set_active].
  destruct (balanced_closes X tail HX) as [Hn Hm].
  rewrite (consume_loop_closes _ 1 (neutral t) (S (length X))); auto; [|lia].
  cbn [bind fst snd negb].
  replace (S (length X) - 1) with (length X) by lia.
  rewrite firstn_app, firstn_all, Nat.sub_diag. cbn [firstn].
  rewrite app_nil_r.
  replace (skipn (S (length X)) (X ++ ")"%char :: tail)) with tail.
  - reflexivity.
  - rewrite skipn_app, skipn_all2 by lia.
    replace (S (length X) - length X) with 1 by lia. reflexivity.
Qed.

Lemma loop_done (fuel : nat) (t : TRAC) :
  scan t = 0 -> active t = [] -> loop (S fuel) t = Some (Ok t).
Proof.
  intros Hs Ha. cbn [loop]. unfold loop_body. rewrite Hs, Ha. reflexivity.
Qed.

(** X4. A text in protective parentheses whose own parentheses match comes
    out as it is, whatever else it holds (commas, calls, idle characters),
    between the plain text before and after it; the form store is not
    touched. *)
Theorem quoted_text_verbatim (t0 : TRAC) (P X Q : str) :
  plain P = true -> balanced X -> plain Q = true ->
  result (execute (length P + 1 + length Q + 1) t0
            (P ++ "("%char :: X ++ ")"%char :: Q)) =
  Some (Ok (P ++ X ++ Q, forms t0)).
Proof.
  intros HP HX HQ. rewrite execute_result.
  set (b := mkTRAC (forms t0) [] [] 0 [] [] []).
  pose proof (scans_over_plain P b eq_refl HP) as S1.
  pose proof (scans_over_balanced _ X (proj1 S1) HX) as S2.
  pose proof (scans_over_plain Q _ (proj1 S2) HQ) as S3.
  destruct (scans_over_app _ _ _ _ _ _ _ S1
              (scans_over_app _ _ _ _ _ _ _ S2 S3)) as [Hs C].
  specialize (C []). rewrite app_nil_r in C.
  replace (P ++ "("%char :: X ++ ")"%char :: Q)
    with (P ++ ("("%char :: X ++ [")"%char]) ++ Q)
    by (cbn [app]; rewrite <- app_assoc; reflexivity).
  change (mkTRAC (forms t0) (P ++ ("("%char :: X ++ [")"%char]) ++ Q)
            [] 0 [] [] [])
    with (set_active b (P ++ ("("%char :: X ++ [")"%char]) ++ Q)).
  replace (length P + 1 + length Q + 1)
    with (length P + (1 + length Q) + 1) by lia.
  rewrite (loop_continues _ 1 _ _ C).
  rewrite loop_done by reflexivity.
  cbn [neutral forms set_active set_neutral b app].
  now rewrite <- app_assoc.
Qed.

Lemma quoted_text_verbatim_witness :
  result (execute (length (chars "a") + 1 + length (chars "b!") + 1) init
            (chars "a" ++ "("%char :: chars "#(x,(y))'" ++ ")"%char :: chars "b!")) =
  Some (Ok (chars "a" ++ chars "#(x,(y))'" ++ chars "b!", forms init)).
Proof.
  apply (quoted_text_verbatim init (chars "a") (chars "#(x,(y))'") (chars "b!")).
  - reflexivity.
  - split; [reflexivity|].
    intros n Hn. do 10 (destruct n as [|n]; [vm_compute; discriminate|]).
    simpl in Hn. lia.
  - reflexivity.
Defined.

Lemma flat_no_open (l : list ascii) (i : nat) (z : ascii) :
  forallb flat l = true -> nth_error l i = Some z ->
  Ascii.eqb z "("%char = false.
Proof.
  intros H E. apply nth_error_In in E.
  rewrite forallb_forall in H. specialize (H z E).
  unfold flat in H. apply negb_true_iff in H.
  now apply orb_false_elim in H.
Qed.

Lemma kept_flat_step (t : TRAC) (c : ascii) (rest : list ascii) :
  scan t = 0 -> frames t = [] -> forallb flat (c :: rest) = true ->
  loop_body (set_active t (c :: rest)) =
  Ok (Continue,
      set_active (set_neutral t (neutral t ++ (if kept c then [c] else [])))
        rest).
Proof.
  intros Hs Hf H.
  rewrite (loop_body_head _ c rest) by (auto; reflexivity).
  cbn [forallb] in H. apply andb_prop in H. destruct H as [Hc Hr].
  unfold flat in Hc. apply negb_true_iff in Hc.
  apply orb_false_elim in Hc. destruct Hc as [H2 H3].
  rewrite H2, H3.
  destruct (Ascii.eqb c "#"%char) eqn:H1.
  - apply Ascii.eqb_eq in H1. subst c.
    destruct (peek_not_open (set_active t ("#"%char :: rest)) rest Hs eq_refl)
      as [P1 P2].
    + intros z Hz. exact (flat_no_open rest 0 z Hr Hz).
    + intros z _ Hz. exact (flat_no_open rest 1 z Hr Hz).
    + change (char_in "#"%char _skip_chars) with false.
      cbn [Ascii.eqb Bool.eqb]. rewrite P1, P2. cbn [bind].
      reflexivity.
  - unfold kept.
    destruct (char_in c _skip_chars).
    { cbn [orb negb]. rewrite app_nil_r. destruct t; reflexivity. }
    destruct (Ascii.eqb c ","%char).
    { cbn [orb negb]. unfold _mark_argument_boundary.
      cbn [frames set_active]. rewrite Hf. cbn [bind].
      rewrite app_nil_r. destruct t; reflexivity. }
    reflexivity.
Qed.

Lemma continues_flat (s : str) (t : TRAC) :
  scan t = 0 -> frames t = [] -> forallb flat s = true ->
  continues (length s) (set_active t s) =
  Some (set_active (set_neutral t (neutral t ++ filter kept s)) []).
Proof.
  revert t. induction s as [|c s IH]; intros t Hs Hf H.
  - simpl. rewrite app_nil_r. destruct t; reflexivity.
  - cbn [length continues]. rewrite (kept_flat_step t c s Hs Hf H).
    cbn [forallb] in H. apply andb_prop in H. destruct H as [Hc H].
    rewrite (IH (set_neutral t (neutral t ++ (if kept c then [c] else [])))
               Hs Hf H).
    cbn [neutral set_neutral filter].
    destruct (kept c); cbn [app]; rewrite <- ?app_assoc, ?app_nil_r;
      reflexivity.
Qed.

(** X5. On a source without parentheses, [execute] returns the source less
    its idle characters (tab, newline, carriage return, apostrophe) and its
    commas, within one iteration per character, and leaves the form store
    as it was: a ['#'] that no ['('] follows, at once or after a second
    ['#'], is text like any other. *)
Theorem text_outside_calls (t0 : TRAC) (s : str) :
  forallb flat s = true ->
  result (execute (length s + 1) t0 s) =
  Some (Ok (filter kept s, forms t0)).
Proof.
  intros H. rewrite execute_result.
  pose proof (continues_flat s (mkTRAC (forms t0) [] [] 0 [] [] [])
                eq_refl eq_refl H) as C.
  change (mkTRAC (forms t0) s [] 0 [] [] [])
    with (set_active (mkTRAC (forms t0) [] [] 0 [] [] []) s).
  rewrite (loop_continues _ 1 _ _ C).
  rewrite loop_done by reflexivity. reflexivity.
Qed.

Lemma text_outside_calls_witness :
  result (execute (length (chars "a, #b'c ##") + 1) init (chars "a, #b'c ##")) =
  Some (Ok (filter kept (chars "a, #b'c ##"), forms init)) /\
  filter kept (chars "a, #b'c ##") = chars "a #bc ##".
Proof.
  split; [|reflexivity].
  apply (text_outside_calls init (chars "a, #b'c ##")). reflexivity.
Defined.

(** ** The form store *)

Lemma str_eqb_sym (a b : str) : str_eqb a b = str_eqb b a.
Proof.
  destruct (str_eqb a b) eqn:E.
  - apply str_eqb_eq in E. subst. symmetry. apply str_eqb_refl.
  - symmetry. apply str_eqb_neq. apply str_eqb_neq in E. congruence.
Qed.

Lemma mem_In (d : list (str * list Part)) (k : str) :
  Py.mem str_eqb d k = true <-> In k (Py.keys d).
Proof.
  unfold Py.mem, Py.keys. induction d as [|[k' v] d IH]; simpl.
  - split; [discriminate|tauto].
  - destruct (str_eqb k k') eqn:E.
    + apply str_eqb_eq in E. subst. tauto.
    + apply str_eqb_neq in E. rewrite IH. split; [tauto|].
      intros [H|H]; [congruence|exact H].
Qed.

Lemma get_In (d : list (str * list Part)) (k : str) (v : list Part) :
  Py.get str_eqb d k = Some v -> In (k, v) d.
Proof.
  induction d as [|[k' v'] d IH]; simpl; [discriminate|].
  destruct (str_eqb k k') eqn:E.
  - apply str_eqb_eq in E. intros H. inversion H; subst. now left.
  - intros H. right. now apply IH.
Qed.

Lemma keys_setitem (d : list (str * list Part)) (k : str) (v : list Part) :
  Py.keys (Py.setitem str_eqb d k v) =
  if Py.mem str_eqb d k then Py.keys d else Py.keys d ++ [k].
Proof.
  unfold Py.mem, Py.keys. induction d as [|[k' v'] d IH]; simpl; [reflexivity|].
  destruct (str_eqb k k') eqn:E; [reflexivity|].
  simpl. rewrite IH. destruct (Py.get str_eqb d k); reflexivity.
Qed.

Lemma get_setitem_other (d : list (str * list Part)) (k k' : str)
  (v : list Part) :
  k' <> k ->
  Py.get str_eqb (Py.setitem str_eqb d k v) k' = Py.get str_eqb d k'.
Proof.
  intros H. induction d as [|[k0 v0] d IH]; simpl.
  - apply str_eqb_neq in H. now rewrite H.
  - destruct (str_eqb k k0) eqn:E; simpl.
    + apply str_eqb_eq in E. subst. apply str_eqb_neq in H. now rewrite H.
    + now rewrite IH.
Qed.

Lemma setitem_Forall (P : str * list Part -> Prop)
  (d : list (str * list Part)) (k : str) (v : list Part) :
  Forall P d -> (forall k', P (k', v)) -> Forall P (Py.setitem str_eqb d k v).
Proof.
  intros Hd Hv. induction d as [|[k' v'] d IH]; simpl.
  - constructor; auto.
  - inversion Hd; subst. destruct (str_eqb k k'); constructor; auto.
Qed.

Lemma forms_ok_setitem (d : list (str * list Part)) (k : str)
  (v : list Part) :
  forms_ok d -> k <> [] -> body_ok v -> forms_ok (Py.setitem str_eqb d k v).
Proof.
  intros (H1 & H2 & H3) Hk Hv. unfold forms_ok. rewrite keys_setitem.
  destruct (Py.mem str_eqb d k) eqn:E.
  - repeat split; auto. apply setitem_Forall; auto.
  - repeat split.
    + apply NoDup_app; [exact H1|repeat constructor; simpl; tauto|].
      intros x Hx [Hy|[]]. subst. apply mem_In in Hx. congruence.
    + intros C. apply in_app_or in C. destruct C as [C|[C|[]]]; auto.
    + apply setitem_Forall; auto.
Qed.

Lemma filter_keys_In (f : str * list Part -> bool)
  (d : list (str * list Part)) (k : str) :
  In k (Py.keys (filter f d)) -> In k (Py.keys d).
Proof.
  unfold Py.keys. rewrite !in_map_iff. intros [x [Hx Hin]].
  apply filter_In in Hin. exists x. tauto.
Qed.

Lemma forms_ok_filter (f : str * list Part -> bool)
  (d : list (str * list Part)) :
  forms_ok d -> forms_ok (filter f d).
Proof.
  intros (H1 & H2 & H3). repeat split.
  - clear H2 H3. induction d as [|[k v] d IH]; simpl; [constructor|].
    unfold Py.keys in *. simpl in H1. inversion H1; subst.
    destruct (f (k, v)); simpl; auto.
    constructor; auto. intros C. apply H2.
    exact (filter_keys_In f d k C).
  - intros C. apply H2. exact (filter_keys_In f d [] C).
  - rewrite Forall_forall in *. intros x Hx. apply filter_In in Hx.
    apply H3. tauto.
Qed.

Lemma filter_absent (d : list (str * list Part)) (k : str) :
  ~ In k (Py.keys d) ->
  filter (fun kv => negb (str_eqb k (fst kv))) d = d.
Proof.
  unfold Py.keys. induction d as [|[k' v] d IH]; intros H; simpl; [reflexivity|].
  destruct (str_eqb k k') eqn:E.
  - apply str_eqb_eq in E. subst. exfalso. apply H. now left.
  - simpl. f_equal. apply IH. intros C. apply H. now right.
Qed.

(** Deleting a key of a dictionary drops the one entry that has it. *)
Lemma delitem_filter (d : list (str * list Part)) (k : str) :
  NoDup (Py.keys d) -> In k (Py.keys d) ->
  Py.delitem str_eqb d k =
  Ok (filter (fun kv => negb (str_eqb k (fst kv))) d).
Proof.
  unfold Py.keys. induction d as [|[k' v] d IH]; intros Hn Hin; [destruct Hin|].
  simpl in Hn. inversion Hn; subst. simpl.
  destruct (str_eqb k k') eqn:E.
  - apply str_eqb_eq in E. subst. simpl.
    now rewrite (filter_absent d k').
  - simpl. destruct Hin as [Hin|Hin].
    + apply str_eqb_neq in E. simpl in Hin. congruence.
    + rewrite IH by assumption. reflexivity.
Qed.

Lemma inter_markers (n : nat) (l : list str) :
  1 <= n -> Forall marker_ok (inter n l).
Proof.
  intros Hn. induction l as [|c l IH]; [constructor|].
  destruct l as [|d l]; [repeat constructor|].
  rewrite inter_cons by discriminate. repeat constructor; auto.
Qed.

Lemma expand_markers (p : str) (n : nat) (parts : list Part) :
  1 <= n -> Forall marker_ok parts -> Forall marker_ok (expand p n parts).
Proof.
  intros Hn H. induction parts as [|[s|m] parts IH]; [constructor| |];
    inversion H; subst; cbn [expand].
  - apply Forall_app. split; [now apply inter_markers|auto].
  - constructor; auto.
Qed.

Lemma ss_loop_body_ok (pats : list str) (i : nat) (parts : list Part) :
  1 <= i -> body_ok parts -> body_ok (Core.ss_loop pats i parts).
Proof.
  revert i parts. induction pats as [|p pats IH]; intros i parts Hi H; [exact H|].
  cbn [Core.ss_loop]. apply IH; [lia|].
  destruct p as [|c p]; [exact H|]. cbn [is_empty negb].
  destruct H as [H1 H2].
  rewrite replace_pattern_expand by (auto; discriminate).
  split; [now apply expand_normal|now apply expand_markers].
Qed.

Lemma dd_loop_forms_ok (range : list nat) (t : TRAC) :
  forms_ok (forms t) -> forms_ok (forms (snd (Core.dd_loop range t))).
Proof.
  revert t. induction range as [|i r IH]; intros t H; [exact H|].
  cbn [Core.dd_loop]. destruct (_arg t i) as [name|e]; [|exact H].
  destruct (Py.mem str_eqb (forms t) name) eqn:E; [|now apply IH].
  rewrite delitem_filter; [|apply H|now apply mem_In].
  apply IH. cbn [forms set_forms]. now apply forms_ok_filter.
Qed.

Lemma evaluate_forms_ok (name : str) (t : TRAC) :
  forms_ok (forms t) -> forms_ok (forms (snd (evaluate name t))).
Proof.
  intros H. unfold evaluate, Py.mem, Py.getitem.
  destruct (Py.get str_eqb builtins name) as [h|] eqn:E; [|exact H].
  assert (G : forms_ok (forms (snd (h t)))).
  { destruct (str_eqb name (chars "ds")) eqn:E1;
      [|destruct (str_eqb name (chars "ss")) eqn:E2;
        [|destruct (str_eqb name (chars "dd")) eqn:E3]].
    - apply str_eqb_eq in E1. subst. inversion E; subst h. unfold Core.ds.
      rewrite !arg_nth. cbn [bind].
      destruct (nth 0 (args t) []) as [|c n] eqn:En; [exact H|].
      cbn [is_empty snd forms set_forms].
      apply forms_ok_setitem; [exact H|discriminate|].
      split; [exact I|repeat constructor].
    - apply str_eqb_eq in E2. subst. inversion E; subst h. unfold Core.ss.
      rewrite arg_nth. unfold Py.mem, Py.getitem.
      destruct (Py.get str_eqb (forms t) (nth 0 (args t) [])) as [parts|] eqn:Eg;
        [|exact H].
      cbn [negb snd forms set_forms].
      apply forms_ok_setitem; [exact H| |].
      + intros C. rewrite C in Eg. apply get_In in Eg.
        destruct H as (_ & H2 & _). apply H2.
        unfold Py.keys. apply in_map_iff. exists ([], parts). auto.
      + apply ss_loop_body_ok; [lia|].
        destruct H as (_ & _ & H3). rewrite Forall_forall in H3.
        apply get_In in Eg. exact (H3 _ Eg).
    - apply str_eqb_eq in E3. subst. inversion E; subst h. unfold Core.dd.
      pose proof (dd_loop_forms_ok (seq 0 (length (args t))) t H) as P.
      destruct (Core.dd_loop _ t) as [[u|e] t']; exact P.
    - rewrite (handler_keeps_forms name h t E); auto;
        now apply str_eqb_neq. }
  destruct (h t) as [[v|e] t']; exact G.
Qed.

(** An iteration of the scan loop changes the form store through the
    handler of a call only. *)
Lemma loop_body_forms (P : list (str * list Part) -> Prop) :
  (forall name u, P (forms u) -> P (forms (snd (evaluate name u)))) ->
  forall t fl t', P (forms t) -> loop_body t = Ok (fl, t') -> P (forms t').
Proof.
  intros HP t fl t' H E.
  assert (D : forall u v, _delete_active_char u = Ok v -> forms v = forms u).
  { intros u v Hd. rewrite delete_active_char_eq in Hd. inversion Hd.
    destruct (scan u <? length (active u)); reflexivity. }
  assert (M : forall u v, _move_active_char_to_neutral u = Ok v ->
                forms v = forms u).
  { intros u v Hm. unfold _move_active_char_to_neutral in Hm. bind_inv Hm.
    apply D in Hm. exact Hm. }
  unfold loop_body in E.
  destruct (length (active t) <=? scan t); [inversion E; subst; exact H|].
  bind_inv E. rename u into ch.
  destruct (char_in ch _skip_chars).
  { bind_inv E. inversion E; subst. now rewrite (D _ _ Hu0). }
  destruct (Ascii.eqb ch "("%char).
  { bind_inv E. unfold _consume_balanced_parentheses_into_neutral in Hu0.
    bind_inv Hu0. destruct (consume_loop _ _ _) as [[found rest] ntl].
    inversion Hu0; subst. apply D in Hu1.
    destruct (negb _); inversion E; subst; cbn; now rewrite Hu1. }
  destruct (Ascii.eqb ch ","%char).
  { bind_inv E. bind_inv E. inversion E; subst. apply D in Hu0.
    destruct (mark_argument_boundary_total u) as [fs [Hfs _]].
    rewrite Hfs in Hu1. inversion Hu1; subst. cbn. now rewrite Hu0. }
  destruct (Ascii.eqb ch "#"%char).
  { bind_inv E. destruct u.
    - bind_inv E. bind_inv E. inversion E; subst.
      apply D in Hu1, Hu2. cbn. now rewrite Hu2, Hu1.
    - bind_inv E. destruct u.
      + bind_inv E. bind_inv E. bind_inv E. inversion E; subst.
        apply D in Hu2, Hu3, Hu4. cbn. now rewrite Hu4, Hu3, Hu2.
      + bind_inv E. inversion E; subst. now rewrite (M _ _ Hu2). }
  destruct (Ascii.eqb ch ")"%char).
  { bind_inv E. bind_inv E. inversion E; subst. apply D in Hu0.
    destruct (frames u) as [|f0 l0] eqn:Ef.
    - unfold _end_function_and_evaluate in Hu1. rewrite Ef in Hu1.
      inversion Hu1; subst. cbn. now rewrite Hu0.
    - destruct (nonempty_snoc (f0 :: l0)) as [l [f Hl]]; [discriminate|].
      rewrite Hl in Ef. rewrite (end_function_eq u l f Ef) in Hu1.
      cbv zeta in Hu1. inversion Hu1; subst. clear Hu1.
      match goal with
      | |- context [evaluate ?n ?w] =>
          assert (G : P (forms (snd (evaluate n w))))
            by (apply HP; cbn; now rewrite Hu0)
      end.
      destruct (mode f); exact G. }
  bind_inv E. inversion E; subst. now rewrite (M _ _ Hu0).
Qed.

Lemma continues_forms (P : list (str * list Part) -> Prop) :
  (forall name u, P (forms u) -> P (forms (snd (evaluate name u)))) ->
  forall k t t', P (forms t) -> continues k t = Some t' -> P (forms t').
Proof.
  intros HP. induction k as [|k IH]; intros t t' H E; simpl in E.
  - inversion E; subst. exact H.
  - destruct (loop_body t) as [[[|] u]|] eqn:Eb; try discriminate.
    apply (IH u); [|exact E]. exact (loop_body_forms P HP _ _ _ H Eb).
Qed.

Lemma loop_forms (P : list (str * list Part) -> Prop) :
  (forall name u, P (forms u) -> P (forms (snd (evaluate name u)))) ->
  forall fuel t t', P (forms t) -> loop fuel t = Some (Ok t') -> P (forms t').
Proof.
  intros HP. induction fuel as [|fuel IH]; intros t t' H E; simpl in E.
  - discriminate.
  - destruct (loop_body t) as [[[|] u]|] eqn:Eb.
    + apply (IH u); [|exact E]. exact (loop_body_forms P HP _ _ _ H Eb).
    + inversion E; subst. exact (loop_body_forms P HP _ _ _ H Eb).
    + discriminate.
Qed.

(** X6. From a form store in which no name stands twice, no name is empty,
    no body has two literal chunks side by side and every marker carries a
    number from 1 on (the empty store of a new interpreter is one), every
    state of a run of [execute] and the state it ends in have such a
    store. *)
Theorem form_store_stays_well_formed (t0 : TRAC) (s : str) :
  forms_ok (forms t0) ->
  (forall k t,
     continues k (_reset_processor_with (print t0 s ["010"%char]) s) = Some t ->
     forms_ok (forms t)) /\
  (forall fuel v t',
     execute fuel t0 s = Some (Ok (v, t')) -> forms_ok (forms t')).
Proof.
  intros H. split.
  - intros k t E.
    exact (continues_forms forms_ok evaluate_forms_ok k
             (_reset_processor_with (print t0 s ["010"%char]) s) t H E).
  - intros fuel v t' E. unfold execute in E.
    destruct (loop fuel _) as [[u|e]|] eqn:El; try discriminate.
    inversion E; subst.
    exact (loop_forms forms_ok evaluate_forms_ok fuel
             (_reset_processor_with (print t0 s ["010"%char]) s) t' H El).
Qed.

Lemma form_store_stays_well_formed_witness :
  forms_ok (forms after_ds_ss).
Proof.
  refine (proj2 (form_store_stays_well_formed init
                   (chars "#(ds,N,X)#(ss,N,X)") _) 20 [] after_ds_ss _).
  - repeat split; [constructor|intros []|constructor].
  - vm_compute. reflexivity.
Defined.

(** ** What [dd], [ds] and [ss] do to the form store *)

Lemma filter_filter (A : Type) (f g : A -> bool) (l : list A) :
  filter g (filter f l) = filter (fun x => f x && g x) l.
Proof.
  induction l as [|a l IH]; simpl; [reflexivity|].
  destruct (f a); simpl; [destruct (g a)|]; now rewrite IH.
Qed.

Lemma filter_all (A : Type) (l : list A) : filter (fun _ => true) l = l.
Proof. induction l as [|a l IH]; simpl; [reflexivity|now rewrite IH]. Qed.

Lemma set_forms_same (t : TRAC) : set_forms t (forms t) = t.
Proof. now destruct t. Qed.

Lemma filter_keys_NoDup (f : str * list Part -> bool)
  (d : list (str * list Part)) :
  NoDup (Py.keys d) -> NoDup (Py.keys (filter f d)).
Proof.
  intros H1. induction d as [|[k v] d IH]; simpl; [constructor|].
  unfold Py.keys in *. simpl in H1. inversion H1; subst.
  destruct (f (k, v)); simpl; auto.
  constructor; auto. intros C. apply H2.
  exact (filter_keys_In f d k C).
Qed.

Lemma dd_loop_filter (n st : nat) (t : TRAC) :
  NoDup (Py.keys (forms t)) -> st + n <= length (args t) ->
  Core.dd_loop (seq st n) t =
  (Ok tt,
   set_forms t
     (filter (fun kv => negb (existsb (str_eqb (fst kv))
                                (firstn n (skipn st (args t)))))
        (forms t))).
Proof.
  revert st t. induction n as [|n IH]; intros st t Hn Hl.
  - simpl. rewrite filter_all. now rewrite set_forms_same.
  - cbn [seq Core.dd_loop]. rewrite arg_nth.
    assert (Hs : skipn st (args t) =
                 nth st (args t) [] :: skipn (S st) (args t)).
    { clear -Hl. revert st Hl. induction (args t) as [|a l IHl]; intros st Hl.
      - simpl in Hl. lia.
      - destruct st as [|st]; [reflexivity|]. simpl. apply IHl. simpl in Hl. lia. }
    rewrite Hs. cbn [firstn existsb].
    set (a := nth st (args t) []).
    assert (Hf : forall d : list (str * list Part),
      filter (fun kv => negb (existsb (str_eqb (fst kv))
                                (firstn n (skipn (S st) (args t)))))
        (filter (fun kv => negb (str_eqb a (fst kv))) d) =
      filter (fun kv => negb (str_eqb (fst kv) a ||
                existsb (str_eqb (fst kv)) (firstn n (skipn (S st) (args t)))))
        d).
    { intros d. rewrite filter_filter. apply filter_ext. intros kv.
      rewrite (str_eqb_sym a). now rewrite negb_orb. }
    destruct (Py.mem str_eqb (forms t) a) eqn:E.
    + rewrite delitem_filter; [|exact Hn|now apply mem_In].
      rewrite IH; cbn [forms set_forms args].
      * rewrite Hf. now destruct t.
      * now apply filter_keys_NoDup.
      * lia.
    + rewrite IH; [|exact Hn|lia]. rewrite <- Hf.
      rewrite filter_absent; [reflexivity|].
      intros C. apply mem_In in C. congruence.
Qed.

(** X7. [dd] removes from the form store exactly the forms that one of its
    arguments names, keeps the other forms with their bodies and in their
    order, and returns the empty string; names that are arguments twice or
    that name no form do no harm. *)
Theorem dd_deletes_named (t : TRAC) :
  NoDup (Py.keys (forms t)) ->
  evaluate (chars "dd") t =
  ([], set_forms t
         (filter (fun kv => negb (existsb (str_eqb (fst kv)) (args t)))
            (forms t))).
Proof.
  intros H. rewrite (evaluate_known (chars "dd") Core.dd t eq_refl).
  unfold Core.dd.
  rewrite (dd_loop_filter (length (args t)) 0 t H) by lia.
  cbn [skipn]. now rewrite firstn_all.
Qed.

Lemma dd_deletes_named_witness :
  evaluate (chars "dd")
    (set_args after_fact_ss [chars "Nobody"; chars "Factorial"; chars "Factorial"]) =
  ([], set_forms
         (set_args after_fact_ss
            [chars "Nobody"; chars "Factorial"; chars "Factorial"])
         (filter
            (fun kv => negb (existsb (str_eqb (fst kv))
               (args (set_args after_fact_ss
                  [chars "Nobody"; chars "Factorial"; chars "Factorial"]))))
            (forms (set_args after_fact_ss
                  [chars "Nobody"; chars "Factorial"; chars "Factorial"])))).
Proof.
  apply (dd_deletes_named
           (set_args after_fact_ss
              [chars "Nobody"; chars "Factorial"; chars "Factorial"])).
  vm_compute. repeat constructor. intros [].
Defined.

(** X8. [ds] with the name [N] (its first argument, not empty) and the body
    [B] (its second argument, the empty string when there is none) makes
    the body of [N] the single literal chunk [B], leaves every other form
    as it was, and keeps the names in their order: a form that is defined
    again keeps its place, a new form goes last.  With an empty or missing
    name it does nothing. *)
Theorem ds_defines_one_form (t : TRAC) :
  let N := nth 0 (args t) [] in
  let B := nth 1 (args t) [] in
  let t' := snd (evaluate (chars "ds") t) in
  fst (evaluate (chars "ds") t) = [] /\
  (N = [] -> t' = t) /\
  (N <> [] ->
   Py.get str_eqb (forms t') N = Some [Text B] /\
   (forall M, M <> N -> Py.get str_eqb (forms t') M = Py.get str_eqb (forms t) M) /\
   Py.keys (forms t') =
   if Py.mem str_eqb (forms t) N then Py.keys (forms t)
   else Py.keys (forms t) ++ [N]).
Proof.
  intros N B t'. subst t'.
  rewrite (evaluate_known (chars "ds") Core.ds t eq_refl).
  unfold Core.ds. rewrite !arg_nth. cbn [bind]. fold N B.
  destruct N as [|c N'] eqn:EN; cbn [is_empty fst snd].
  - repeat split; congruence.
  - split; [reflexivity|]. split; [discriminate|]. intros _.
    cbn [forms set_forms]. split; [apply get_setitem|].
    split; [intros M HM; now apply get_setitem_other|apply keys_setitem].
Qed.

(** X9. [ss] returns the empty string and changes at most the body of the
    form that its first argument names: the names and their order stay,
    every other form keeps its body, and when no form has that name the
    interpreter is left as it was. *)
Theorem ss_touches_one_form (t : TRAC) :
  let N := nth 0 (args t) [] in
  let t' := snd (evaluate (chars "ss") t) in
  fst (evaluate (chars "ss") t) = [] /\
  Py.keys (forms t') = Py.keys (forms t) /\
  (forall M, M <> N -> Py.get str_eqb (forms t') M = Py.get str_eqb (forms t) M) /\
  (Py.get str_eqb (forms t) N = None -> t' = t).
Proof.
  intros N t'. subst t'.
  rewrite (evaluate_known (chars "ss") Core.ss t eq_refl).
  unfold Core.ss. rewrite arg_nth. fold N. unfold Py.getitem.
  destruct (Py.mem str_eqb (forms t) N) eqn:E; cbn [negb].
  - unfold Py.mem in E.
    destruct (Py.get str_eqb (forms t) N) as [parts|] eqn:Eg; [|discriminate].
    cbn [fst snd forms set_forms]. split; [reflexivity|].
    split.
    + rewrite keys_setitem. unfold Py.mem. now rewrite Eg.
    + split; [intros M HM; now apply get_setitem_other|discriminate].
  - cbn [fst snd]. repeat split; reflexivity.
Qed.

(** ** [ss] a second time *)

Lemma free_nil (p : str) : p <> [] -> free p [].
Proof.
  intros Hp x. destruct x; destruct p; try congruence; reflexivity.
Qed.

Lemma free_substring (p u c v : str) : p <> [] -> free p (u ++ c ++ v) -> free p c.
Proof.
  intros Hp H x. destruct (Py.startswith (skipn x c) p) eqn:E; [|reflexivity].
  assert (O : occurs p c x) by (split; assumption).
  apply (occurs_substring p u c v x) in O. destruct O as [_ O].
  now rewrite H in O.
Qed.

Lemma split_free (fuel : nat) (p s c : str) :
  p <> [] -> length s <= fuel -> In c (split fuel p s) -> free p c.
Proof.
  intros Hp. revert s. induction fuel as [|fuel IH]; intros s Hl Hc.
  - destruct s; [|simpl in Hl; lia]. destruct Hc as [<-|[]].
    now apply free_nil.
  - cbn [split] in Hc. destruct (Py.find s p 0) as [j|] eqn:E.
    + destruct (find_some p s j E) as (_ & Hlt & Hj).
      destruct Hc as [<-|Hc].
      * intros x. destruct (Nat.lt_ge_cases x j) as [Hx|Hx].
        -- destruct (Py.startswith (skipn x (firstn j s)) p) eqn:Es;
             [|reflexivity].
           rewrite <- (Hlt x Hx).
           rewrite <- (firstn_skipn j s) at 1.
           rewrite skipn_app.
           replace (x - length (firstn j s)) with 0
             by (rewrite length_firstn; lia).
           symmetry. now apply startswith_app_true.
        -- rewrite skipn_all2 by (rewrite length_firstn; lia).
           exact (free_nil p Hp 0).
      * apply (IH (skipn (j + length p) s)); [|exact Hc].
        rewrite length_skipn. destruct p; [congruence|]. simpl in *. lia.
    + destruct Hc as [<-|[]]. intros x. now apply find_none.
Qed.

Lemma split_of_free (fuel : nat) (p s : str) : free p s -> split fuel p s = [s].
Proof.
  intros H. destruct fuel as [|fuel]; [reflexivity|]. cbn [split].
  destruct (Py.find s p 0) as [j|] eqn:E; [|reflexivity].
  destruct (find_some p s j E) as (C & _). now rewrite H in C.
Qed.

Lemma expand_of_free (p : str) (n : nat) (parts : list Part) :
  (forall s, In (Text s) parts -> free p s) -> expand p n parts = parts.
Proof.
  induction parts as [|[s|m] parts IH]; intros H; [reflexivity| |];
    cbn [expand].
  - rewrite split_of_free by (apply H; now left).
    cbn [inter app]. f_equal. apply IH. intros s' Hs. apply H. now right.
  - f_equal. apply IH. intros s' Hs. apply H. now right.
Qed.

Lemma inter_chunks (n : nat) (l : list str) (c : str) :
  In (Text c) (inter n l) -> In c l.
Proof.
  induction l as [|a l IH]; [intros []|].
  destruct l as [|b l].
  - intros [E|[]]. inversion E. now left.
  - rewrite inter_cons by discriminate.
    intros [E|[E|H]]; [inversion E; now left|discriminate|right; auto].
Qed.

Lemma expand_chunks (p : str) (n : nat) (parts : list Part) (c : str) :
  In (Text c) (expand p n parts) ->
  exists s, In (Text s) parts /\ In c (split (length s) p s).
Proof.
  induction parts as [|[s|m] parts IH]; [intros []| |]; cbn [expand]; intros H.
  - apply in_app_or in H. destruct H as [H|H].
    + exists s. split; [now left|now apply inter_chunks in H].
    + destruct (IH H) as [s' [H1 H2]]. exists s'. split; [now right|exact H2].
  - destruct H as [H|H]; [discriminate|].
    destruct (IH H) as [s' [H1 H2]]. exists s'. split; [now right|exact H2].
Qed.

Lemma ss_loop_normal (pats : list str) (i : nat) (parts : list Part) :
  normal parts -> normal (Core.ss_loop pats i parts).
Proof.
  revert i parts. induction pats as [|p pats IH]; intros i parts H; [exact H|].
  cbn [Core.ss_loop]. apply IH.
  destruct p as [|c p]; [exact H|]. cbn [is_empty negb].
  rewrite replace_pattern_expand by (auto; discriminate).
  now apply expand_normal.
Qed.

(** The literal chunks that [ss] leaves are pieces of the chunks it found
    and hold none of the patterns. *)
Lemma ss_loop_chunks (pats : list str) (i : nat) (parts : list Part) (c : str) :
  normal parts -> In (Text c) (Core.ss_loop pats i parts) ->
  (exists s u v, In (Text s) parts /\ s = u ++ c ++ v) /\
  (forall p, In p pats -> p <> [] -> free p c).
Proof.
  revert i parts. induction pats as [|p pats IH]; intros i parts Hn Hc.
  - cbn [Core.ss_loop] in Hc. split; [|intros p []].
    exists c, [], []. split; [exact Hc|]. now rewrite app_nil_r.
  - cbn [Core.ss_loop] in Hc. destruct p as [|a p].
    + cbn [is_empty negb] in Hc. destruct (IH _ _ Hn Hc) as [H1 H2].
      split; [exact H1|]. intros q [<-|Hq] Hne; [congruence|auto].
    + cbn [is_empty negb] in Hc.
      rewrite replace_pattern_expand in Hc by (auto; discriminate).
      destruct (IH _ _ (expand_normal (a :: p) i parts Hn) Hc) as [H1 H2].
      destruct H1 as (s1 & u & v & Hs1 & Es1).
      apply expand_chunks in Hs1. destruct Hs1 as (s & Hs & Hin).
      split.
      * destruct (split_substring _ _ _ _ Hin) as (u' & v' & Es).
        exists s, (u' ++ u), (v ++ v'). split; [exact Hs|].
        rewrite Es, Es1. now rewrite <- !app_assoc.
      * intros q [<-|Hq] Hne; [|auto].
        apply (free_substring (a :: p) u c v Hne). rewrite <- Es1.
        apply (split_free (length s) (a :: p) s s1 Hne (le_n _) Hin).
Qed.

Lemma ss_loop_of_free (pats : list str) (i : nat) (parts : list Part) :
  normal parts ->
  (forall p s, In p pats -> p <> [] -> In (Text s) parts -> free p s) ->
  Core.ss_loop pats i parts = parts.
Proof.
  revert i. induction pats as [|p pats IH]; intros i Hn H; [reflexivity|].
  cbn [Core.ss_loop]. destruct p as [|a p]; cbn [is_empty negb].
  - apply IH; [exact Hn|]. intros q s Hq. apply H. now right.
  - rewrite replace_pattern_expand by (auto; discriminate).
    rewrite expand_of_free.
    + apply IH; [exact Hn|]. intros q s Hq. apply H. now right.
    + intros s Hs. apply (H (a :: p) s); [now left|discriminate|exact Hs].
Qed.

Lemma setitem_twice (d : list (str * list Part)) (k : str) (v w : list Part) :
  Py.setitem str_eqb (Py.setitem str_eqb d k v) k w = Py.setitem str_eqb d k w.
Proof.
  induction d as [|[k' v'] d IH]; simpl.
  - now rewrite str_eqb_refl.
  - destruct (str_eqb k k') eqn:E; simpl; rewrite E; [reflexivity|].
    now rewrite IH.
Qed.

(** X10. [ss] a second time with the same arguments changes nothing: the
    patterns that the first call cut out of the body occur in none of the
    literal chunks it left. *)
Theorem ss_again_changes_nothing (t : TRAC) :
  forms_ok (forms t) ->
  evaluate (chars "ss") (snd (evaluate (chars "ss") t)) =
  ([], snd (evaluate (chars "ss") t)).
Proof.
  intros (_ & _ & Hb).
  assert (E1 : evaluate (chars "ss") t =
    match Py.get str_eqb (forms t) (nth 0 (args t) []) with
    | Some parts =>
        ([], set_forms t
               (Py.setitem str_eqb (forms t) (nth 0 (args t) [])
                  (Core.ss_loop (Py.slice_from (args t) 1) 1 parts)))
    | None => ([], t)
    end).
  { rewrite (evaluate_known (chars "ss") Core.ss t eq_refl).
    unfold Core.ss. rewrite arg_nth. unfold Py.getitem, Py.mem.
    destruct (Py.get str_eqb (forms t) (nth 0 (args t) [])); reflexivity. }
  rewrite E1.
  destruct (Py.get str_eqb (forms t) (nth 0 (args t) [])) as [parts|] eqn:Eg;
    cbn [snd]; [|exact E1].
  assert (Hn : normal parts).
  { apply get_In in Eg. rewrite Forall_forall in Hb.
    exact (proj1 (Hb _ Eg)). }
  rewrite (evaluate_known (chars "ss") Core.ss _ eq_refl).
  unfold Core.ss. rewrite arg_nth. unfold Py.getitem, Py.mem.
  set (d := Py.setitem str_eqb (forms t) (nth 0 (args t) [])
              (Core.ss_loop (Py.slice_from (args t) 1) 1 parts)).
  replace (args (set_forms t d)) with (args t) by now destruct t.
  replace (forms (set_forms t d)) with d by now destruct t.
  subst d.
  rewrite get_setitem. cbn [negb].
  rewrite setitem_twice.
  rewrite (ss_loop_of_free (Py.slice_from (args t) 1) 1
             (Core.ss_loop (Py.slice_from (args t) 1) 1 parts)).
  - now destruct t.
  - now apply ss_loop_normal.
  - intros p s Hp Hne Hs.
    exact (proj2 (ss_loop_chunks _ 1 parts s Hn Hs) p Hp Hne).
Qed.

Lemma ss_again_changes_nothing_witness :
  evaluate (chars "ss")
    (snd (evaluate (chars "ss")
            (set_args after_fact [chars "Factorial"; chars "X"; chars "("]))) =
  ([], snd (evaluate (chars "ss")
              (set_args after_fact [chars "Factorial"; chars "X"; chars "("]))).
Proof.
  apply (ss_again_changes_nothing
           (set_args after_fact [chars "Factorial"; chars "X"; chars "("])).
  vm_compute. repeat split.
  - repeat constructor. intros [].
  - intros [C|[]]. discriminate.
  - repeat constructor.
Defined.

(** ** A call with its arguments written out *)

Lemma scans_over_pieces (a : list Piece) (t : TRAC) :
  scan t = 0 -> Forall piece_ok a ->
  scans_over (steps a) (written a) t (set_neutral t (neutral t ++ meant a)).
Proof.
  revert t. induction a as [|p a IH]; intros t Hs Ha.
  - unfold steps, written, meant. cbn [map concat list_sum].
    rewrite app_nil_r. replace (set_neutral t (neutral t)) with t by now destruct t.
    now apply scans_over_nil.
  - inversion Ha as [|p' a' Hp Ha']; subst.
    assert (S1 : scans_over (match p with Bare s => length s | Quoted _ => 1 end)
                   (match p with
                    | Bare s => s
                    | Quoted X => "("%char :: X ++ [")"%char]
                    end) t
                   (set_neutral t
                      (neutral t ++ match p with Bare s => s | Quoted X => X end))).
    { destruct p as [s|X]; [now apply scans_over_plain|now apply scans_over_balanced]. }
    pose proof (IH _ (proj1 S1) Ha') as S2.
    pose proof (scans_over_app _ _ _ _ _ _ _ S1 S2) as S3.
    cbn [neutral set_neutral] in S3. rewrite <- app_assoc in S3.
    exact S3.
Qed.

Lemma scans_over_open_neutral (t : TRAC) :
  scan t = 0 ->
  scans_over 1 ["#"%char; "#"%char; "("%char] t (_begin_function t neutral_mode).
Proof.
  intros Hs. split; [exact Hs|]. intros tail. cbn [continues app].
  rewrite (loop_body_head _ "#"%char ("#"%char :: "("%char :: tail))
    by (auto; reflexivity).
  change (char_in "#"%char _skip_chars) with false.
  cbn [Ascii.eqb Bool.eqb].
  unfold _peek. cbn [scan set_active active length]. rewrite Hs.
  cbn [Nat.add Nat.sub Nat.leb all_expected Py.index nth_error bind
         Ascii.eqb Bool.eqb].
  rewrite (delete_active_char_head _ "#"%char ("("%char :: tail))
    by (auto; reflexivity).
  cbn [bind].
  rewrite (delete_active_char_head _ "("%char tail) by (auto; reflexivity).
  cbn [bind]. reflexivity.
Qed.

Lemma slice_app_within (N w : list ascii) (a b : nat) :
  b <= length N -> Py.slice (N ++ w) a b = Py.slice N a b.
Proof.
  intros H. unfold Py.slice. rewrite firstn_app.
  replace (b - length N) with 0 by lia. cbn [firstn]. now rewrite app_nil_r.
Qed.

(** The arguments of the open call after one more argument was scanned. *)
Lemma call_args_next (N w : list ascii) (b : nat) (m : Mode)
  (sl : list (nat * nat)) (cur : nat) :
  Forall (fun ab => snd ab <= length N) sl -> cur <= length N ->
  call_args (N ++ w) (mkFrame b m (sl ++ [(cur, length N)]) (length N)) =
  call_args N (mkFrame b m sl cur) ++ [w].
Proof.
  intros Hsl Hcur. unfold call_args.
  cbn [argument_slices current_argument_start].
  rewrite !map_app. cbn [map fst snd]. rewrite <- !app_assoc. cbn [app].
  f_equal.
  - apply map_ext_in. intros [x y] Hin. rewrite Forall_forall in Hsl.
    apply slice_app_within. exact (Hsl _ Hin).
  - f_equal; [apply slice_app_within; lia|]. f_equal.
    unfold Py.slice. rewrite firstn_all.
    rewrite skipn_app, skipn_all, Nat.sub_diag. reflexivity.
Qed.

Lemma scans_over_argument (a : list Piece) (u : TRAC) (fs : list Frame)
  (f : Frame) :
  scan u = 0 -> frames u = fs ++ [f] -> Forall piece_ok a ->
  scans_over (1 + steps a) (","%char :: written a) u
    (set_neutral
       (set_frames u
          (fs ++ [mkFrame (begin f) (mode f)
                    (argument_slices f ++
                     [(current_argument_start f, length (neutral u))])
                    (length (neutral u))]))
       (neutral u ++ meant a)).
Proof.
  intros Hs Hf Ha.
  assert (S1 : scans_over 1 [","%char] u
                 (set_frames u
                    (fs ++ [mkFrame (begin f) (mode f)
                              (argument_slices f ++
                               [(current_argument_start f, length (neutral u))])
                              (length (neutral u))]))).
  { split; [exact Hs|]. intros tail. cbn [continues app].
    rewrite (loop_body_head _ ","%char tail) by (auto; reflexivity).
    change (char_in ","%char _skip_chars) with false.
    cbn [Ascii.eqb Bool.eqb].
    unfold _mark_argument_boundary. cbn [frames set_active neutral].
    rewrite Hf. rewrite pop_snoc.
    destruct fs; cbn [app bind fst snd]; reflexivity. }
  pose proof (scans_over_pieces a _ (proj1 S1) Ha) as S2.
  exact (scans_over_app _ _ _ _ _ _ _ S1 S2).
Qed.

(** The scanner over the arguments that follow the first: the frame of the
    call keeps its [begin] and its mode, and its slices give the arguments
    scanned so far. *)
Lemma scans_over_arguments (al : list (list Piece)) (u : TRAC)
  (fs : list Frame) (f : Frame) :
  scan u = 0 -> frames u = fs ++ [f] -> Forall (Forall piece_ok) al ->
  Forall (fun ab => snd ab <= length (neutral u)) (argument_slices f) ->
  current_argument_start f <= length (neutral u) ->
  exists f',
    scans_over (list_sum (map (fun a => 1 + steps a) al))
      (concat (map (fun a => ","%char :: written a) al)) u
      (set_neutral (set_frames u (fs ++ [f']))
         (neutral u ++ concat (map meant al))) /\
    begin f' = begin f /\ mode f' = mode f /\
    call_args (neutral u ++ concat (map meant al)) f' =
    call_args (neutral u) f ++ map meant al.
Proof.
  revert u f. induction al as [|a al IH]; intros u f Hs Hf Hal Hsl Hcur.
  - exists f. cbn [map concat list_sum]. rewrite !app_nil_r.
    repeat split; auto.
    replace (set_neutral (set_frames u (fs ++ [f])) (neutral u)) with u
      by (rewrite <- Hf; now destruct u).
    apply scans_over_nil. exact Hs.
  - inversion Hal as [|a' al' Ha Hal']; subst.
    pose proof (scans_over_argument a u fs f Hs Hf Ha) as S1.
    set (f1 := mkFrame (begin f) (mode f)
                 (argument_slices f ++
                  [(current_argument_start f, length (neutral u))])
                 (length (neutral u))) in *.
    set (u1 := set_neutral (set_frames u (fs ++ [f1])) (neutral u ++ meant a))
      in *.
    destruct (IH u1 f1 (proj1 S1) eq_refl Hal') as (f' & S2 & Hb & Hm & Hc).
    { subst u1 f1. cbn [neutral set_neutral argument_slices].
      rewrite length_app. apply Forall_app. split.
      - eapply Forall_impl; [|exact Hsl]. cbn. intros; lia.
      - repeat constructor. cbn. lia. }
    { subst u1 f1. cbn [neutral set_neutral current_argument_start].
      rewrite length_app. lia. }
    exists f'. split; [|split; [exact Hb|split; [exact Hm|]]].
    + pose proof (scans_over_app _ _ _ _ _ _ _ S1 S2) as S3.
      cbn [map concat list_sum].
      replace (set_neutral (set_frames u (fs ++ [f']))
                 (neutral u ++ meant a ++ concat (map meant al)))
        with (set_neutral (set_frames u1 (fs ++ [f']))
                (neutral u1 ++ concat (map meant al)))
        by (subst u1; cbn; now rewrite <- app_assoc).
      exact S3.
    + cbn [map concat]. rewrite app_assoc.
      change (neutral u ++ meant a) with (neutral u1).
      rewrite Hc. subst u1 f1. cbn [neutral set_neutral].
      destruct f as [b m sl cur]. cbn [begin mode argument_slices
                                          current_argument_start] in *.
      rewrite call_args_next by assumption.
      now rewrite <- app_assoc.
Qed.

(** The iterations from the ['#'] of a call to its [')'], with the call
    evaluated. *)
Lemma call_continues (m : Mode) (a0 : list Piece) (al : list (list Piece))
  (t : TRAC) (tail : list ascii) :
  scan t = 0 -> Forall piece_ok a0 -> Forall (Forall piece_ok) al ->
  let t0 := mkTRAC (forms t) tail (neutral t) 0 (frames t) (map meant al)
              (stdout t) in
  let V := fst (evaluate (meant a0) t0) in
  let t1 := snd (evaluate (meant a0) t0) in
  continues (call_steps a0 al) (set_active t (call_text m a0 al ++ tail)) =
  Some match m with
       | active_mode =>
           mkTRAC (forms t1) (V ++ tail) (neutral t) 0 (frames t) [] (stdout t1)
       | neutral_mode =>
           mkTRAC (forms t1) tail (neutral t ++ V) 0 (frames t) [] (stdout t1)
       end.
Proof.
  intros Hs H0 Hal t0 V t1.
  set (b := length (neutral t)).
  assert (S1 : scans_over 1
                 match m with
                 | active_mode => chars "#("
                 | neutral_mode => chars "##("
                 end t (_begin_function t m)).
  { destruct m; [apply scans_over_open|apply scans_over_open_neutral]; exact Hs. }
  pose proof (scans_over_pieces a0 _ (proj1 S1) H0) as S2.
  set (u := set_neutral (_begin_function t m)
              (neutral (_begin_function t m) ++ meant a0)) in *.
  destruct (scans_over_arguments al u (frames t) (mkFrame b m [] b)
              (proj1 S2) eq_refl Hal) as (f' & S3 & Hb & Hm & Hc).
  { constructor. }
  { subst u b. cbn. rewrite length_app. lia. }
  pose proof (scans_over_app _ _ _ _ _ _ _
                (scans_over_app _ _ _ _ _ _ _ S1 S2) S3) as S4.
  destruct S4 as [Hs4 S4]. specialize (S4 (")"%char :: tail)).
  unfold call_steps, call_text.
  replace (1 + steps a0 + list_sum (map (fun a => 1 + steps a) al) + 1)
    with (1 + steps a0 + list_sum (map (fun a => 1 + steps a) al) + 1) by lia.
  rewrite <- !app_assoc. cbn [app].
  rewrite <- !app_assoc in S4.
  apply (continues_app _ 1 _ _ _ S4).
  cbn [continues].
  set (u' := set_neutral (set_frames u (frames t ++ [f']))
               (neutral u ++ concat (map meant al))) in *.
  rewrite (loop_body_head _ ")"%char tail) by (auto; reflexivity).
  change (char_in ")"%char _skip_chars) with false.
  cbn [Ascii.eqb Bool.eqb].
  rewrite (end_function_eq _ (frames t) f') by reflexivity.
  cbv zeta. cbn [bind].
  assert (Hargv : call_args (neutral (set_active (set_active u' (")"%char :: tail)) tail)) f' =
                  meant a0 :: map meant al).
  { subst u'. cbn [neutral set_active set_neutral]. rewrite Hc.
    subst u. cbn [neutral set_neutral _begin_function set_frames].
    unfold call_args. cbn [argument_slices current_argument_start map app fst snd].
    f_equal. unfold Py.slice. rewrite firstn_all. subst b.
    rewrite skipn_app, skipn_all, Nat.sub_diag. reflexivity. }
  rewrite Hargv. cbn [hd tl].
  assert (Ht0 : set_args
                  (set_neutral
                     (set_frames (set_active (set_active u' (")"%char :: tail)) tail)
                        (frames t))
                     (firstn (begin f')
                        (neutral (set_active (set_active u' (")"%char :: tail)) tail))))
                  (map meant al) = t0).
  { subst t0 u' u. rewrite Hb. subst b.
    cbn [neutral set_active set_neutral set_frames set_args _begin_function
           forms active scan frames args stdout begin].
    rewrite <- app_assoc. rewrite firstn_app, firstn_all, Nat.sub_diag.
    cbn [firstn]. rewrite app_nil_r.
    unfold set_args, set_neutral, set_frames, set_active, _begin_function.
    cbn. now rewrite Hs. }
  rewrite Ht0. fold V t1.
  destruct (evaluate_same_processor (meant a0) t0) as (Pa & Pn & Ps & Pf & _).
  fold t1 in Pa, Pn, Ps, Pf. subst t0. cbn in Pa, Pn, Ps, Pf.
  rewrite Hm. destruct m.
  - unfold set_args, set_scan, set_active. cbn. rewrite Pa, Pn, Ps, Pf.
    reflexivity.
  - unfold set_args, set_neutral. cbn. rewrite Pa, Pn, Ps, Pf. reflexivity.
Qed.

(** X11. A call whose arguments are written as text without special
    characters and texts in matching protective parentheses, in a state
    between two iterations: the iterations up to its [')'] evaluate the
    primitive that the first argument names on the other arguments, the
    parentheses stripped and the commas inside them kept, with [neutral] and
    the frames as they were before the call.  The value goes in front of
    what follows an active call, and to the end of [neutral] for a neutral
    call.  A neutral call that is the whole source makes [execute] return
    the value. *)
Theorem call_evaluates_written_arguments (m : Mode) (a0 : list Piece)
  (al : list (list Piece)) :
  Forall piece_ok a0 -> Forall (Forall piece_ok) al ->
  (forall t tail, scan t = 0 ->
     let t0 := mkTRAC (forms t) tail (neutral t) 0 (frames t) (map meant al)
                 (stdout t) in
     let V := fst (evaluate (meant a0) t0) in
     let t1 := snd (evaluate (meant a0) t0) in
     continues (call_steps a0 al) (set_active t (call_text m a0 al ++ tail)) =
     Some match m with
          | active_mode =>
              mkTRAC (forms t1) (V ++ tail) (neutral t) 0 (frames t) []
                (stdout t1)
          | neutral_mode =>
              mkTRAC (forms t1) tail (neutral t ++ V) 0 (frames t) []
                (stdout t1)
          end) /\
  (forall t fuel,
     let t0 := mkTRAC (forms t) [] [] 0 [] (map meant al)
                 (stdout t ++ call_text neutral_mode a0 al ++ ["010"%char]) in
     execute (call_steps a0 al + S fuel) t (call_text neutral_mode a0 al) =
     Some (Ok (fst (evaluate (meant a0) t0),
               mkTRAC (forms (snd (evaluate (meant a0) t0))) []
                 (fst (evaluate (meant a0) t0)) 0 [] []
                 (stdout (snd (evaluate (meant a0) t0)))))).
Proof.
  intros H0 Hal. split.
  - intros t tail Hs. exact (call_continues m a0 al t tail Hs H0 Hal).
  - intros t fuel t0. unfold execute. cbv zeta.
    set (s := call_text neutral_mode a0 al).
    set (st := _reset_processor_with (print t s ["010"%char]) s).
    pose proof (call_continues neutral_mode a0 al st [] eq_refl H0 Hal) as C.
    cbv zeta in C. fold s in C. rewrite app_nil_r in C.
    replace (set_active st s) with st in C by reflexivity.
    rewrite (loop_continues _ (S fuel) _ _ C).
    rewrite loop_done by reflexivity.
    cbn [neutral Py.join]. reflexivity.
Qed.

Lemma call_evaluates_written_arguments_witness :
  result
    (execute
       (call_steps [Bare (chars "ad")]
          [[Bare (chars "12")]; [Quoted (chars "3"); Bare (chars "0")]] + S 0)
       init
       (call_text neutral_mode [Bare (chars "ad")]
          [[Bare (chars "12")]; [Quoted (chars "3"); Bare (chars "0")]])) =
  Some (Ok (chars "42", forms init)).
Proof.
  assert (H0 : Forall piece_ok [Bare (chars "ad")]) by repeat constructor.
  assert (Hal : Forall (Forall piece_ok)
                  [[Bare (chars "12")]; [Quoted (chars "3"); Bare (chars "0")]]).
  { repeat constructor.
    intros n Hn. do 2 (destruct n as [|n]; [vm_compute; discriminate|]).
    simpl in Hn. lia. }
  rewrite (proj2 (call_evaluates_written_arguments neutral_mode
                    [Bare (chars "ad")]
                    [[Bare (chars "12")]; [Quoted (chars "3"); Bare (chars "0")]]
                    H0 Hal) init 0).
  vm_compute. reflexivity.
Defined.

Lemma ds_defines_one_form_witness :
  Py.get str_eqb
    (forms (snd (evaluate (chars "ds")
                   (set_args after_fact [chars "G"; chars "b"]))))
    (chars "Factorial") =
  Py.get str_eqb (forms (set_args after_fact [chars "G"; chars "b"]))
    (chars "Factorial") /\
  Py.keys (forms (snd (evaluate (chars "ds")
                         (set_args after_fact [chars "G"; chars "b"])))) =
  [chars "Factorial"; chars "G"].
Proof.
  assert (H : nth 0 (args (set_args after_fact [chars "G"; chars "b"])) [] <> [])
    by discriminate.
  destruct (ds_defines_one_form (set_args after_fact [chars "G"; chars "b"]))
    as (_ & _ & D).
  destruct (D H) as (_ & D1 & D2). split.
  - apply D1. discriminate.
  - rewrite D2. reflexivity.
Defined.

Lemma ss_touches_one_form_witness :
  Py.get str_eqb
    (forms (snd (evaluate (chars "ss")
                   (set_args after_fact [chars "Factorial"; chars "X"]))))
    (chars "G") =
  Py.get str_eqb (forms (set_args after_fact [chars "Factorial"; chars "X"]))
    (chars "G") /\
  snd (evaluate (chars "ss") (set_args after_fact [chars "G"; chars "X"])) =
  set_args after_fact [chars "G"; chars "X"].
Proof.
  split.
  - apply (ss_touches_one_form
             (set_args after_fact [chars "Factorial"; chars "X"])).
    discriminate.
  - apply (ss_touches_one_form (set_args after_fact [chars "G"; chars "X"])).
    reflexivity.
Defined.

(** ** What is printed *)

Lemma dd_loop_stdout (range : list nat) (t : TRAC) :
  stdout (snd (Core.dd_loop range t)) = stdout t.
Proof.
  revert t. induction range as [|i r IH]; intros t; [reflexivity|].
  cbn [Core.dd_loop]. destruct (_arg t i) as [name|e]; [|reflexivity].
  destruct (Py.mem str_eqb (forms t) name); [|apply IH].
  destruct (Py.delitem str_eqb (forms t) name) as [d|e]; [|reflexivity].
  now rewrite IH.
Qed.

Lemma handler_stdout (name : str) (h : BuiltIn) (t : TRAC) :
  Py.get str_eqb builtins name = Some h ->
  stdout (snd (h t)) =
  stdout t ++ (if str_eqb name (chars "ps") then nth 0 (args t) [] else []).
Proof.
  intros H. apply builtins_get in H.
  repeat (destruct H as [[-> ->]|H]); try destruct H as [-> ->];
    cbn [str_eqb]; rewrite ?app_nil_r; try reflexivity.
  - unfold Core.ds. rewrite !arg_nth. cbn [bind].
    destruct (is_empty _); reflexivity.
  - unfold Core.ss. rewrite arg_nth. destruct (negb _); [reflexivity|].
    destruct (Py.getitem _ _ _); reflexivity.
  - unfold Core.dd. pose proof (dd_loop_stdout (seq 0 (length (args t))) t) as P.
    destruct (Core.dd_loop _ t) as [[u|e] t']; exact P.
  - unfold Core.ps. rewrite arg_nth. cbn [snd print stdout].
    now rewrite app_nil_r.
Qed.

Lemma evaluate_stdout (name : str) (t : TRAC) :
  stdout (snd (evaluate name t)) =
  stdout t ++ (if str_eqb name (chars "ps") then nth 0 (args t) [] else []).
Proof.
  unfold evaluate, Py.mem, Py.getitem.
  destruct (Py.get str_eqb builtins name) as [h|] eqn:E.
  - pose proof (handler_stdout name h t E) as P.
    destruct (h t) as [[v|e] t']; exact P.
  - destruct (str_eqb name (chars "ps")) eqn:Ep.
    + apply str_eqb_eq in Ep. subst. discriminate.
    + cbn [snd]. now rewrite app_nil_r.
Qed.


(** ** Calls that are not closed, and the value of an active call *)

(** X13. A call that the source never closes is not evaluated: when the
    source ends after the arguments, written as text without special
    characters and texts in matching protective parentheses, [execute]
    returns the arguments one after the other, without the commas between
    them, and leaves the form store as it was. *)
Theorem unclosed_call_is_text (m : Mode) (a0 : list Piece)
  (al : list (list Piece)) (t0 : TRAC) :
  Forall piece_ok a0 -> Forall (Forall piece_ok) al ->
  result
    (execute (call_steps a0 al) t0
       (match m with
        | active_mode => chars "#("
        | neutral_mode => chars "##("
        end ++ written a0 ++ concat (map (fun a => ","%char :: written a) al))) =
  Some (Ok (meant a0 ++ concat (map meant al), forms t0)).
Proof.
  intros H0 Hal. rewrite execute_result.
  set (t := mkTRAC (forms t0) [] [] 0 [] [] []).
  assert (S1 : scans_over 1
                 match m with
                 | active_mode => chars "#("
                 | neutral_mode => chars "##("
                 end t (_begin_function t m)).
  { destruct m; [apply scans_over_open|apply scans_over_open_neutral];
      reflexivity. }
  pose proof (scans_over_pieces a0 _ (proj1 S1) H0) as S2.
  set (u := set_neutral (_begin_function t m)
              (neutral (_begin_function t m) ++ meant a0)) in *.
  destruct (scans_over_arguments al u [] (mkFrame 0 m [] 0)
              (proj1 S2) eq_refl Hal) as (f' & S3 & _).
  { constructor. }
  { cbn. lia. }
  pose proof (scans_over_app _ _ _ _ _ _ _
                (scans_over_app _ _ _ _ _ _ _ S1 S2) S3) as S4.
  destruct S4 as [Hs4 S4]. specialize (S4 []).
  rewrite app_nil_r, <- !app_assoc in S4.
  match goal with
  | |- context [loop _ ?st] =>
      replace st with
        (set_active t
           (match m with
            | active_mode => chars "#("
            | neutral_mode => chars "##("
            end ++ written a0 ++
            concat (map (fun a => ","%char :: written a) al)))
        by reflexivity
  end.
  unfold call_steps.
  rewrite (loop_continues _ 1 _ _ S4).
  rewrite loop_done by reflexivity.
  cbn [neutral forms set_active set_neutral set_frames]. reflexivity.
Qed.

Lemma unclosed_call_is_text_witness :
  result
    (execute (call_steps [Bare (chars "ad")] [[Bare (chars "1")]; [Bare (chars "2")]])
       init
       (match active_mode with
        | active_mode => chars "#("
        | neutral_mode => chars "##("
        end ++ written [Bare (chars "ad")] ++
        concat (map (fun a => ","%char :: written a)
                  [[Bare (chars "1")]; [Bare (chars "2")]]))) =
  Some (Ok (meant [Bare (chars "ad")] ++
            concat (map meant [[Bare (chars "1")]; [Bare (chars "2")]]),
            forms init)) /\
  meant [Bare (chars "ad")] ++
  concat (map meant [[Bare (chars "1")]; [Bare (chars "2")]]) = chars "ad12".
Proof.
  split; [|reflexivity].
  apply (unclosed_call_is_text active_mode [Bare (chars "ad")]
           [[Bare (chars "1")]; [Bare (chars "2")]] init);
    repeat constructor.
Defined.

(** X14. The value of an active call is scanned again, the value of a
    neutral call is not: when a call with arguments written as above is
    the whole source and its value [V] holds no parentheses, [execute]
    returns [V] less its commas and idle characters for the active call
    and [V] itself for the neutral call, and leaves the same form store. *)
Theorem active_value_is_rescanned (a0 : list Piece) (al : list (list Piece))
  (t : TRAC) :
  Forall piece_ok a0 -> Forall (Forall piece_ok) al ->
  let t0 := mkTRAC (forms t) [] [] 0 [] (map meant al) [] in
  let V := fst (evaluate (meant a0) t0) in
  let t1 := snd (evaluate (meant a0) t0) in
  forallb flat V = true ->
  result (execute (call_steps a0 al + length V + 1) t
            (call_text active_mode a0 al)) =
  Some (Ok (filter kept V, forms t1)) /\
  result (execute (call_steps a0 al + 1) t (call_text neutral_mode a0 al)) =
  Some (Ok (V, forms t1)).
Proof.
  intros H0 Hal t0 V t1 HV.
  set (st := mkTRAC (forms t) [] [] 0 [] [] []).
  split.
  - rewrite execute_result.
    pose proof (call_continues active_mode a0 al st [] eq_refl H0 Hal) as C.
    cbv zeta in C. rewrite !app_nil_r in C.
    change (mkTRAC (forms st) [] (neutral st) 0 (frames st) (map meant al)
              (stdout st)) with t0 in C.
    fold V t1 in C.
    change (mkTRAC (forms t) (call_text active_mode a0 al) [] 0 [] [] [])
      with (set_active st (call_text active_mode a0 al)).
    rewrite <- Nat.add_assoc.
    rewrite (loop_continues _ (length V + 1) _ _ C).
    pose proof (continues_flat V (mkTRAC (forms t1) [] [] 0 [] [] (stdout t1))
                  eq_refl eq_refl HV) as C2.
    change (mkTRAC (forms t1) V (neutral st) 0 (frames st) [] (stdout t1))
      with (set_active (mkTRAC (forms t1) [] [] 0 [] [] (stdout t1)) V).
    rewrite (loop_continues _ 1 _ _ C2).
    rewrite loop_done by reflexivity. reflexivity.
  - rewrite execute_result.
    pose proof (call_continues neutral_mode a0 al st [] eq_refl H0 Hal) as C.
    cbv zeta in C. rewrite !app_nil_r in C.
    change (mkTRAC (forms st) [] (neutral st) 0 (frames st) (map meant al)
              (stdout st)) with t0 in C.
    fold V t1 in C.
    change (mkTRAC (forms t) (call_text neutral_mode a0 al) [] 0 [] [] [])
      with (set_active st (call_text neutral_mode a0 al)).
    rewrite (loop_continues _ 1 _ _ C).
    rewrite loop_done by reflexivity. reflexivity.
Qed.

Lemma active_value_is_rescanned_witness :
  let t := set_forms init [(chars "N", [Text (chars "a,b")])] in
  let a0 := [Bare (chars "cl")] in
  let al := [[Bare (chars "N")]] in
  let t0 := mkTRAC (forms t) [] [] 0 [] (map meant al) [] in
  let V := fst (evaluate (meant a0) t0) in
  let t1 := snd (evaluate (meant a0) t0) in
  (result (execute (call_steps a0 al + length V + 1) t
             (call_text active_mode a0 al)) =
   Some (Ok (filter kept V, forms t1)) /\
   result (execute (call_steps a0 al + 1) t (call_text neutral_mode a0 al)) =
   Some (Ok (V, forms t1))) /\
  filter kept V = chars "ab" /\ V = chars "a,b".
Proof.
  intros t a0 al t0 V t1. split; [|split; reflexivity].
  apply (active_value_is_rescanned a0 al t).
  - subst a0. repeat constructor.
  - subst al. repeat constructor.
  - reflexivity.
Defined.

(** ** Where the scan loop stops *)

(** The loop returns from the iteration that breaks. *)
Lemma loop_break (fuel : nat) (t t' : TRAC) :
  loop fuel t = Some (Ok t') ->
  exists k u, k < fuel /\ continues k t = Some u /\ loop_body u = Ok (Break, t').
Proof.
  revert t. induction fuel as [|fuel IH]; intros t E; simpl in E.
  - discriminate.
  - destruct (loop_body t) as [[[|] u]|] eqn:Eb.
    + destruct (IH u E) as (k & w & Hk & Hc & Hb).
      exists (S k), w. split; [lia|]. split; [|exact Hb].
      cbn [continues]. now rewrite Eb.
    + inversion E; subst. exists 0, t. split; [lia|]. split; [reflexivity|exact Eb].
    + discriminate.
Qed.

(** The iteration breaks when [active] has run out, and at a ['('] that
    nothing closes, where it clears the processor. *)
Lemma break_cases (t t' : TRAC) :
  scan t = 0 -> loop_body t = Ok (Break, t') ->
  (active t = [] /\ t' = t) \/
  (exists rest, active t = "("%char :: rest /\ unmatched_open rest /\
                t' = _clear_processor t).
Proof.
  intros Hs E. destruct (active t) as [|c rest] eqn:Ha.
  - left. unfold loop_body in E. rewrite Hs, Ha in E. cbn in E.
    inversion E. auto.
  - right. rewrite (loop_body_head t c rest Hs Ha) in E.
    destruct (char_in c _skip_chars); [discriminate|].
    destruct (Ascii.eqb c "("%char) eqn:E1.
    + apply Ascii.eqb_eq in E1. subst c.
      rewrite (consume_eq t rest Hs Ha) in E. cbv zeta in E. cbn [bind fst snd] in E.
      destruct (fst (fst (consume_loop rest 1 (neutral t)))) eqn:Ef;
        cbn [negb] in E; [discriminate|].
      exists rest. split; [reflexivity|]. split.
      * intros n Hn.
        exact (consume_loop_false_unmatched rest 1 (neutral t) ltac:(lia) Ef n Hn).
      * inversion E. reflexivity.
    + destruct (Ascii.eqb c ","%char).
      { destruct (_mark_argument_boundary _); discriminate. }
      destruct (Ascii.eqb c "#"%char).
      { destruct (_peek t ["("%char]) as [[|]|]; cbn [bind] in E;
          try discriminate.
        - destruct (_delete_active_char _); discriminate.
        - destruct (_peek t ["#"%char; "("%char]) as [[|]|]; cbn [bind] in E;
            try discriminate.
          destruct (_delete_active_char _) as [u|]; cbn [bind] in E;
            [|discriminate].
          destruct (_delete_active_char _); discriminate. }
      destruct (Ascii.eqb c ")"%char); [|discriminate].
      destruct (_end_function_and_evaluate _); discriminate.
Qed.

(** C7, as the code has it.  After [execute] returns, [active] and [args]
    are empty and [scan] is 0, and [neutral] still holds the text that was
    returned.  Nothing is reset on return: the interpreter is left in the
    state in which the scan loop stopped, after some iterations that all
    continued.  Either [active] had run out, and the interpreter, its
    frames among the rest, is what it was then; or the scanner stood at a
    ['('] that nothing closes, and the processor was cleared, so that
    [neutral] and the frames are empty. *)
Theorem after_execute (fuel : nat) (t0 : TRAC) (s v : str) (t' : TRAC) :
  execute fuel t0 s = Some (Ok (v, t')) ->
  active t' = [] /\ args t' = [] /\ scan t' = 0 /\ neutral t' = v /\
  exists k t,
    k < fuel /\
    continues k (_reset_processor_with (print t0 s ["010"%char]) s) = Some t /\
    ((active t = [] /\ t' = t) \/
     (exists rest, active t = "("%char :: rest /\ unmatched_open rest /\
                   t' = _clear_processor t /\ frames t' = [] /\ v = [])).
Proof.
  unfold execute. intros H.
  destruct (loop fuel _) as [[u|e]|] eqn:E; try discriminate.
  inversion H; subst. clear H.
  destruct (loop_break _ _ _ E) as (k & t & Hk & Hc & Hb).
  apply loop_end in E; [|apply reachable_start].
  destruct E as [R Hact]. apply reachable_inv in R.
  destruct R as (Hs & Hargs & _).
  split; [exact Hact|]. split; [exact Hargs|]. split; [exact Hs|].
  split; [reflexivity|].
  exists k, t. split; [exact Hk|]. split; [exact Hc|].
  assert (Rt : reachable t)
    by (eapply continues_reachable; [apply reachable_start|exact Hc]).
  destruct (break_cases t t' (proj1 (reachable_inv t Rt)) Hb)
    as [[Ha Eu]|(rest & Ha & Hu & Eu)].
  - left. auto.
  - right. exists rest. rewrite Eu. repeat split; auto.
Qed.

Lemma after_execute_witness :
  let t' := mkTRAC [] [] (chars "abclx") 0
              [mkFrame 2 active_mode [(2, 4)] 4] []
              (chars "ab#(cl,x" ++ ["010"%char]) in
  execute 9 init (chars "ab#(cl,x") = Some (Ok (chars "abclx", t')) /\
  active t' = [] /\ args t' = [] /\ scan t' = 0 /\ neutral t' = chars "abclx" /\
  exists k t,
    k < 9 /\
    continues k
      (_reset_processor_with (print init (chars "ab#(cl,x") ["010"%char])
         (chars "ab#(cl,x")) = Some t /\
    ((active t = [] /\ t' = t) \/
     (exists rest, active t = "("%char :: rest /\ unmatched_open rest /\
                   t' = _clear_processor t /\ frames t' = [] /\
                   chars "abclx" = [])).
Proof.
  intros t'. split; [vm_compute; reflexivity|].
  apply (after_execute 9 init (chars "ab#(cl,x") (chars "abclx") t').
  vm_compute. reflexivity.
Defined.

(** ** What a run prints *)

(** An iteration prints what the call it ends prints, and only [ps]
    prints. *)
Lemma loop_body_stdout (t t' : TRAC) (fl : flow) :
  scan t = 0 -> loop_body t = Ok (fl, t') ->
  stdout t' = stdout t ++ ps_output t.
Proof.
  intros Hs E. unfold ps_output. rewrite Hs. cbn [skipn].
  destruct (active t) as [|c rest] eqn:Ha.
  - unfold loop_body in E. rewrite Hs, Ha in E. cbn in E.
    inversion E. now rewrite app_nil_r.
  - rewrite (loop_body_head t c rest Hs Ha) in E.
    destruct (char_in c _skip_chars) eqn:Ek.
    { inversion E; subst. cbn [stdout set_active].
      assert (Ascii.eqb c ")"%char = false) as ->
        by (destruct (Ascii.eqb_spec c ")"%char); [subst; discriminate|reflexivity]).
      destruct (rev (frames t)); now rewrite app_nil_r. }
    destruct (Ascii.eqb c "("%char) eqn:E1.
    { apply Ascii.eqb_eq in E1. subst c.
      rewrite (consume_eq t rest Hs Ha) in E. cbv zeta in E.
      cbn [bind fst snd Ascii.eqb Bool.eqb] in E |- *.
      destruct (negb _); inversion E; subst; cbn [stdout _clear_processor
        set_neutral set_active]; destruct (rev (frames t));
        now rewrite app_nil_r. }
    destruct (Ascii.eqb c ","%char) eqn:E2.
    { apply Ascii.eqb_eq in E2. subst c. cbn [Ascii.eqb Bool.eqb].
      destruct (mark_argument_boundary_total (set_active t rest)) as [fs [Hfs _]].
      rewrite Hfs in E. inversion E; subst. cbn [stdout set_frames set_active].
      destruct (rev (frames t)); now rewrite app_nil_r. }
    destruct (Ascii.eqb c "#"%char) eqn:E3.
    { apply Ascii.eqb_eq in E3. subst c. cbn [Ascii.eqb Bool.eqb].
      assert (D : forall u v, _delete_active_char u = Ok v ->
                    stdout v = stdout u).
      { intros u v Hd. rewrite delete_active_char_eq in Hd. inversion Hd.
        destruct (scan u <? length (active u)); reflexivity. }
      assert (G : stdout t' = stdout t).
      { destruct (_peek t ["("%char]) as [[|]|]; cbn [bind] in E;
          try discriminate.
        - destruct (_delete_active_char (set_active t rest)) as [u|] eqn:Ed;
            cbn [bind] in E; [|discriminate].
          inversion E; subst. cbn [stdout _begin_function set_frames].
          now rewrite (D _ _ Ed).
        - destruct (_peek t ["#"%char; "("%char]) as [[|]|]; cbn [bind] in E;
            try discriminate.
          + destruct (_delete_active_char (set_active t rest)) as [u|] eqn:Ed;
              cbn [bind] in E; [|discriminate].
            destruct (_delete_active_char u) as [w|] eqn:Ed2;
              cbn [bind] in E; [|discriminate].
            inversion E; subst. cbn [stdout _begin_function set_frames].
            now rewrite (D _ _ Ed2), (D _ _ Ed).
          + inversion E; subst. reflexivity. }
      rewrite G. destruct (rev (frames t)); now rewrite app_nil_r. }
    destruct (Ascii.eqb c ")"%char) eqn:E4.
    { apply Ascii.eqb_eq in E4. subst c.
      destruct (frames t) as [|f0 l0] eqn:Ef.
      - unfold _end_function_and_evaluate in E.
        cbn [frames set_active] in E. rewrite Ef in E. cbn [bind] in E.
        inversion E; subst. cbn [rev stdout _clear_processor set_active].
        now rewrite app_nil_r.
      - destruct (nonempty_snoc (f0 :: l0)) as [l [f Hl]]; [discriminate|].
        rewrite Hl in *. rewrite rev_app_distr. cbn [rev app].
        rewrite (end_function_eq (set_active t rest) l f) in E
          by (cbn [frames set_active]; exact Ef).
        cbv zeta in E. cbn [bind] in E. inversion E; subst. clear E.
        cbn [neutral set_active].
        match goal with
        | |- context [evaluate ?n ?w] =>
            pose proof (evaluate_stdout n w) as G
        end.
        cbn [stdout args set_args set_neutral set_frames set_active] in G.
        destruct (mode f); cbn [stdout set_args set_neutral set_scan set_active];
          exact G. }
    inversion E; subst. cbn [stdout set_active set_neutral].
    destruct (rev (frames t)); now rewrite app_nil_r.
Qed.

Lemma continues_stdout (k : nat) (t t' : TRAC) :
  reachable t -> continues k t = Some t' ->
  stdout t' = stdout t ++ printed k t.
Proof.
  revert t. induction k as [|k IH]; intros t R E; cbn [continues printed] in *.
  - inversion E; subst. now rewrite app_nil_r.
  - destruct (loop_body t) as [[[|] u]|] eqn:Eb; try discriminate.
    rewrite (IH u (reachable_step _ _ _ R Eb) E).
    rewrite (loop_body_stdout _ _ _ (proj1 (reachable_inv t R)) Eb).
    now rewrite app_assoc.
Qed.

Lemma loop_stdout (fuel : nat) (t t' : TRAC) :
  reachable t -> loop fuel t = Some (Ok t') ->
  stdout t' = stdout t ++ printed fuel t.
Proof.
  revert t. induction fuel as [|fuel IH]; intros t R E; cbn [loop printed] in *.
  - discriminate.
  - destruct (loop_body t) as [[[|] u]|] eqn:Eb.
    + rewrite (IH u (reachable_step _ _ _ R Eb) E).
      rewrite (loop_body_stdout _ _ _ (proj1 (reachable_inv t R)) Eb).
      now rewrite app_assoc.
    + inversion E; subst.
      rewrite (loop_body_stdout _ _ _ (proj1 (reachable_inv t R)) Eb).
      now rewrite app_nil_r.
    + discriminate.
Qed.

(** X12. What was printed is never taken back, and only [ps] prints: the
    call of [ps] adds its first argument (nothing, when there is none) and
    no line end, and the call of any other name, known or not, adds
    nothing.  In every state of a run of [execute], and when it returns,
    the output is what it was before, the source with a line end, and then,
    in the order of the iterations, the first argument of every call of
    [ps] that a [')'] closed. *)
Theorem output_only_grows (t0 : TRAC) (s : str) :
  (forall name t,
     stdout (snd (evaluate name t)) =
     stdout t ++ (if str_eqb name (chars "ps") then nth 0 (args t) [] else [])) /\
  (forall k t,
     continues k (_reset_processor_with (print t0 s ["010"%char]) s) = Some t ->
     stdout t =
     stdout t0 ++ s ++ ["010"%char] ++
     printed k (_reset_processor_with (print t0 s ["010"%char]) s)) /\
  (forall fuel v t',
     execute fuel t0 s = Some (Ok (v, t')) ->
     stdout t' =
     stdout t0 ++ s ++ ["010"%char] ++
     printed fuel (_reset_processor_with (print t0 s ["010"%char]) s)).
Proof.
  split; [exact evaluate_stdout|]. split.
  - intros k t E.
    rewrite (continues_stdout _ _ _ (reachable_start t0 s) E).
    cbn [stdout _reset_processor_with print]. now rewrite <- !app_assoc.
  - intros fuel v t' E. unfold execute in E.
    destruct (loop fuel _) as [[u|e]|] eqn:El; try discriminate.
    inversion E; subst.
    rewrite (loop_stdout _ _ _ (reachable_start t0 s) El).
    cbn [stdout _reset_processor_with print]. now rewrite <- !app_assoc.
Qed.

Lemma output_only_grows_witness :
  let t' := mkTRAC [] [] (chars "a") 0 [] []
              (chars "#(ps,hi)a#(ps,(x,y))" ++ ["010"%char] ++ chars "hix,y") in
  execute 20 init (chars "#(ps,hi)a#(ps,(x,y))") = Some (Ok (chars "a", t')) /\
  stdout t' =
  stdout init ++ chars "#(ps,hi)a#(ps,(x,y))" ++ ["010"%char] ++
  printed 20
    (_reset_processor_with
       (print init (chars "#(ps,hi)a#(ps,(x,y))") ["010"%char])
       (chars "#(ps,hi)a#(ps,(x,y))")) /\
  printed 20
    (_reset_processor_with
       (print init (chars "#(ps,hi)a#(ps,(x,y))") ["010"%char])
       (chars "#(ps,hi)a#(ps,(x,y))")) = chars "hix,y".
Proof.
  intros t'. split; [vm_compute; reflexivity|].
  split; [|vm_compute; reflexivity].
  apply (proj2 (proj2 (output_only_grows init (chars "#(ps,hi)a#(ps,(x,y))")))
           20 (chars "a") t').
  vm_compute. reflexivity.
Defined.
